(** * QUBO / QAOA helper functions of tensorcircuit: a shallow embedding

    Sources embedded here:
    - [docs/source/tutorials/QAOA_funcs.py]: [QUBO_to_Ising], [Ising_loss],
      [QAOA_loss], [QUBO_QAOA], [print_result_prob], [print_result_cost],
      [print_Q_cost];
    - [tensorcircuit/templates/blocks.py]: [QAOA_block], [Bell_pair_block],
      [Grid2D_entangling], [example_block].

    Conventions.
    - numpy floats are modelled by exact rationals ([Q], compared with [==]);
      rounding error of float64 is outside the model.
    - A two-dimensional numpy array is its shape together with its element
      function; a Python exception is a [Raise] result.
    - [print] appends a line to an output trace.
    - The circuit, the simulator and the backend are outside these two
      files.  A circuit is the list of the gates applied to it; a gate is
      refused when it names a qubit twice or a qubit the circuit does not
      have.  Qubit indices are natural numbers.
    - numpy's argsort is any function that returns the indices in an order
      that sorts the values; what depends on the order of equal values is
      stated for every such function. *)

From Stdlib Require Import QArith ZArith Lia Lqa String Ascii Qround.
From stdpp Require Import base list sorting.

Local Open Scope Q_scope.
Local Open Scope nat_scope.

(** ** Exceptions and results *)

Inductive exn : Type :=
| ValueError (msg : string)
| IndexError
| NameError (name : string)
| AssertionError
| AttributeError (name : string).

Inductive result (A : Type) : Type :=
| Ok (a : A)
| Raise (e : exn).
Arguments Ok {A} a.
Arguments Raise {A} e.

#[global] Instance result_ret : MRet result := fun _ a => Ok a.
#[global] Instance result_bind : MBind result := fun _ _ k r =>
  match r with
  | Ok a => k a
  | Raise e => Raise e
  end.

(** Python's [l[i]] for [0 <= i]: an [IndexError] out of range. *)
Definition getitem {A} (l : list A) (i : nat) : result A :=
  match l !! i with
  | Some a => Ok a
  | None => Raise IndexError
  end.

(** ** numpy arrays *)

Record ndarray2 : Type := mk_ndarray2 {
  shape0 : nat;              (* Q.shape[0] *)
  shape1 : nat;              (* Q.shape[1] *)
  item : nat -> nat -> Q     (* Q[i][j], meaningful for i < shape0, j < shape1 *)
}.

(** [Q[i]]: the i-th row, a one-dimensional array of length [shape1]. *)
Definition getrow (A : ndarray2) (i : nat) : result (list Q) :=
  if i <? shape0 A then Ok (map (item A i) (seq 0 (shape1 A)))
  else Raise IndexError.

Fixpoint sumQ (l : list Q) : Q :=
  match l with
  | [] => 0%Q
  | x :: l' => (x + sumQ l')%Q
  end.

(** [np.triu(A, 0)]: entries below the main diagonal are zeroed. *)
Definition triu (A : ndarray2) : ndarray2 :=
  {| shape0 := shape0 A; shape1 := shape1 A;
     item := fun i j => if j <? i then 0%Q else item A i j |}.

(** [A.sum()]: the sum of all entries. *)
Definition sum_all (A : ndarray2) : Q :=
  sumQ (map (fun i => sumQ (map (item A i) (seq 0 (shape1 A)))) (seq 0 (shape0 A))).

(** [np.sum(A, axis=1)]: the vector of row sums. *)
Definition sum_axis1 (A : ndarray2) : list Q :=
  map (fun i => sumQ (map (item A i) (seq 0 (shape1 A)))) (seq 0 (shape0 A)).

(** [np.zeros(n)] *)
Definition zeros (n : nat) : list Q := replicate n 0%Q.

(** ** QUBO_to_Ising *)

Definition not_square_msg : string := "Matrix is not a square matrix.".

(** Body of the second loop nest, for one pair [(i, j)]. *)
Definition add_pair_term (Qm : ndarray2) (n i : nat)
    (st : list (list Q) * list Q) (j : nat) : list (list Q) * list Q :=
  let '(pauli_terms, weights) := st in
  let term := <[j := 1%Q]> (<[i := 1%Q]> (zeros n)) in
  let weight := (item Qm i j / 2)%Q in
  (pauli_terms ++ [term], weights ++ [weight]).

Definition QUBO_to_Ising (Qm : ndarray2)
  : result (list (list Q) * list Q * Q) :=
  let n := shape0 Qm in
  row0 ← getrow Qm 0;
  if negb (length row0 =? n) then Raise (ValueError not_square_msg)
  else
    let offset := (sum_all (triu Qm) / 2)%Q in
    let pauli_terms : list (list Q) := [] in
    let weights := map (fun s => (- s / 2)%Q) (sum_axis1 Qm) in
    let pauli_terms :=
      fold_left (fun pt i => pt ++ [<[i := 1%Q]> (zeros n)]) (seq 0 n) pauli_terms in
    let '(pauli_terms, weights) :=
      fold_left (fun st i =>
                   fold_left (add_pair_term Qm n i) (seq (i + 1) (n - (i + 1))) st)
                (seq 0 (n - 1)) (pauli_terms, weights) in
    Ok (pauli_terms, weights, offset).

(** [np.array(rows)] for [r] rows of [c] entries. *)
Definition of_rows (r c : nat) (rows : list (list Q)) : ndarray2 :=
  {| shape0 := r; shape1 := c;
     item := fun i j => nth j (nth i rows []) 0%Q |}.

(** The matrix of the worked example, [[1,2],[2,3]]. *)
Definition Q_example : ndarray2 := of_rows 2 2 [[1; 2]; [2; 3]]%Q.

Example QUBO_to_Ising_example :
  QUBO_to_Ising Q_example =
  Ok ([[1; 0]; [0; 1]; [1; 1]]%Q,
      [- (1 + (2 + 0)) / 2; - (2 + (3 + 0)) / 2; 2 / 2]%Q,
      ((1 + (2 + 0)) + ((0 + (3 + 0)) + 0)) / 2)%Q.
Proof. reflexivity. Qed.

(** ** State and exceptions

    [ST S A]: a computation that reads and updates a state [S] (the output
    trace, or the circuit being built) and returns an [A] or raises.  The
    state reached when an exception is raised is kept: what was printed or
    applied before the exception stays printed or applied. *)

Definition ST (S A : Type) : Type := S -> S * result A.

#[global] Instance ST_ret {S} : MRet (ST S) := fun _ a s => (s, Ok a).
#[global] Instance ST_bind {S} : MBind (ST S) := fun _ _ k m s =>
  match m s with
  | (s', Ok a) => k a s'
  | (s', Raise e) => (s', Raise e)
  end.

Definition lift {S A} (r : result A) : ST S A := fun s => (s, r).

(** [for x in xs: body], with the local variables of the loop in [v]. *)
Fixpoint for_fold {S X V} (xs : list X) (body : V -> X -> ST S V) (v : V)
  : ST S V :=
  match xs with
  | [] => mret v
  | x :: xs' => v' ← body v x; for_fold xs' body v'
  end.

Definition for_each {S X} (xs : list X) (body : X -> ST S unit) : ST S unit :=
  for_fold xs (fun _ x => body x) tt.

(** The same loop for code that has no state. *)
Fixpoint rfold {X V} (xs : list X) (body : V -> X -> result V) (v : V)
  : result V :=
  match xs with
  | [] => Ok v
  | x :: xs' => v' ← body v x; rfold xs' body v'
  end.

(** ** Tensors, gates and circuits *)

Record tensor : Type := mk_tensor {
  tshape : list Z;
  tdata : list Q
}.

Definition prodZ (ds : list Z) : Z := fold_right Z.mul 1%Z ds.


(** [a[i]] for a counter [i >= 0]: the i-th slice along the first axis.
    Out of range, and on a zero-dimensional tensor, indexing raises. *)
Definition tensor_getitem (t : tensor) (i : nat) : result tensor :=
  match tshape t with
  | [] => Raise IndexError
  | d :: ds =>
      if (Z.of_nat i <? d)%Z then
        let m := Z.to_nat (prodZ ds) in
        Ok {| tshape := ds; tdata := take m (drop (i * m) (tdata t)) |}
      else Raise IndexError
  end.

Definition kwargs : Type := list (string * string).

Inductive unitary : Type := zz_matrix.

Inductive gate : Type :=
| exp1 (a b : nat) (u : unitary) (theta : tensor) (kws : kwargs)
| rx (n : nat) (theta : tensor).

Record Circuit : Type := mk_circuit {
  nqubits : nat;
  ops : list gate
}.


(** The qubits a gate acts on. *)
Definition gate_qubits (g : gate) : list nat :=
  match g with
  | exp1 a b _ _ _ => [a; b]
  | rx n _ => [n]
  end.

(** Some qubit occurs twice in the list. *)
Fixpoint repeated (qs : list nat) : bool :=
  match qs with
  | [] => false
  | q :: qs' => existsb (Nat.eqb q) qs' || repeated qs'
  end.

(** What the circuit checks before it applies a gate on the qubits [qs]:
    the qubits are distinct (an assertion), and each is a qubit of the
    circuit (else the index is out of range).  The class Circuit is not
    among the embedded sources; this is what the blocks rely on. *)
Definition check_gate (n : nat) (qs : list nat) : result unit :=
  if repeated qs then Raise AssertionError
  else if forallb (fun q => q <? n) qs then Ok tt
  else Raise IndexError.


(** ** QAOA_block (templates/blocks.py)

    The circuit is the state; the function returns the circuit it was
    given, so the returned value is the final state. *)


(** ** The simulation engine and the backend

    Both are external to the repository: the queries of a circuit and the
    differentiation, compilation and optimiser services reached through the
    global name [K].  They are total functions here.  [K.jit(f)] is a
    function that computes what [f] computes, so it is written [f]. *)

Record complex : Type := mk_complex { re : Q; im : Q }.

Definition czero : complex := {| re := 0; im := 0 |}.
Definition cadd (a b : complex) : complex :=
  {| re := re a + re b; im := im a + im b |}%Q.
Definition cscale (w : Q) (a : complex) : complex :=
  {| re := w * re a; im := w * im a |}%Q.

Record Engine : Type := mk_engine {
  expectation_ps : Circuit -> list nat -> complex;   (* c.expectation_ps(z=[...]) *)
  probability : Circuit -> tensor                    (* c.probability() *)
}.

(** The backend bound to [K].  [tc.backend], used for [vvag], is the same
    object once a backend has been set.  The optimiser carries a state of
    its own, which [opt.update] advances.

    [vvag(f)] returns the values of [f] over the batch together with their
    gradient.  QUBO_QAOA gives it a function that [value_and_grad] has
    already transformed, whose values are pairs: the first component of
    what the vectorised function returns is then a pair, not a tensor. *)
Record Backend : Type := mk_backend {
  OptState : Type;
  value_and_grad : (tensor -> tensor) -> tensor -> tensor * tensor;
                                   (* K.value_and_grad(f) *)
  implicit_randn : list Z -> Q -> tensor;
                                   (* K.implicit_randn(shape=, stddev=) *)
  vvag : (tensor -> tensor * tensor) -> tensor -> (tensor * tensor) * tensor;
                                   (* tc.backend.vvag(f, argnums=0, vectorized_argnums=0) *)
  optimizer : Q -> OptState;       (* K.optimizer(tf.keras.optimizers.Adam(lr)) *)
  update : OptState -> tensor -> tensor -> OptState * tensor;
                                   (* opt.update(grads, params) *)
  numpy : tensor -> tensor         (* K.numpy(t) *)
}.

(** ** Ising_loss *)

Definition index_of_ones (term : list Q) : list nat :=
  fold_left (fun acc l =>
               match term !! l with
               | Some t => if Qeq_bool t 1 then acc ++ [l] else acc
               | None => acc
               end)
            (seq 0 (length term)) [].

(** One iteration of the loop: the value of [delta_loss]. *)
Definition delta_loss (E : Engine) (c : Circuit) (weights : list Q)
    (k : nat) (term : list Q) : result complex :=
  let ones := index_of_ones term in
  if length ones =? 1 then
    w ← getitem weights k;
    i0 ← getitem ones 0;
    mret (cscale w (expectation_ps E c [i0]))
  else
    w ← getitem weights k;
    i0 ← getitem ones 0;
    i1 ← getitem ones 1;
    mret (cscale w (expectation_ps E c [i0; i1])).

Definition Ising_loss (E : Engine) (c : Circuit)
    (pauli_terms : list (list Q)) (weights : list Q) : result Q :=
  loss ← rfold (seq 0 (length pauli_terms))
         (fun loss k =>
            term ← getitem pauli_terms k;
            d ← delta_loss E c weights k term;
            mret (cadd loss d))
         czero;
  mret (re loss).

(** ** Output and calls to the collaborators *)

Inductive line : Type :=
| Text (s : string)                    (* print(s) *)
| ProbRow (state : string) (p : Q)     (* the row format of the probability report *)
| CostRow (state : string) (v : Q)     (* the row format of the cost report *)
| Value (t : tensor).                  (* print(K.numpy(loss)) *)

Inductive event : Type :=
| Print (l : line)
| IsingConversion                      (* QUBO_to_Ising is run *)
| ParamInit (shape : list Z) (stddev : Q)   (* K.implicit_randn *)
| LossGradEval                         (* loss_val_grad_jit(params) *)
| OptUpdate                            (* opt.update(grads, params) *)
| ProbabilityQuery.                    (* c.probability() *)

Definition trace : Type := list event.

Definition emit (e : event) : ST trace unit := fun tr => (tr ++ [e], Ok tt).
Definition print (l : line) : ST trace unit := emit (Print l).

Definition tab : string := String (ascii_of_nat 9) EmptyString.
Definition newline : string := String (ascii_of_nat 10) EmptyString.
Definition rule : string := "-------------------------------------".
Definition backend_msg : string := "select a backend and assign it to K.".
Definition prob_header : string :=
  ("    selection" ++ tab ++ "  |" ++ tab ++ "probability")%string.
Definition cost_header : string :=
  ("    selection" ++ tab ++ "  |" ++ tab ++ "  cost")%string.
Definition ellipsis : string := "               ... ...".

(** The global name [K]: bound to a backend, or unbound. *)
Definition get_K (K : option Backend) : ST trace Backend :=
  match K with
  | Some B => mret B
  | None => lift (Raise (NameError "K"))
  end.

(** [try: K / except NameError: print(...)] *)
Definition try_K (K : option Backend) : ST trace unit :=
  match K with
  | Some _ => mret tt
  | None => print (Text backend_msg)
  end.

(** ** QUBO_QAOA *)

Definition learning_rate : Q := 1 # 100.

(** The value bound to [loss] in the loop: a tensor, or, when the function
    was vectorised by [vvag], the pair that the vectorised function has as
    its value. *)
Inductive loss_value : Type :=
| Loss (t : tensor)
| LossPair (value grads : tensor).

(** [K.numpy(loss)]: the conversion calls the method [numpy] of its
    argument, which a tuple does not have. *)
Definition K_numpy (B : Backend) (loss : loss_value) : result tensor :=
  match loss with
  | Loss t => Ok (numpy B t)
  | LossPair _ _ => Raise (AttributeError "numpy")
  end.

(** [if i % 100 == 0: print(K.numpy(loss))] *)
Definition report_progress (B : Backend) (i : nat) (loss : loss_value)
  : ST trace unit :=
  if i mod 100 =? 0 then
    t ← lift (K_numpy B loss);
    print (Value t)
  else mret tt.

(** The body of the optimisation loop; the state of the loop is the pair
    of the parameters and the optimiser. *)
Definition opt_step (B : Backend)
    (loss_val_grad_jit : tensor -> loss_value * tensor)
    (st : tensor * OptState B) (i : nat) : ST trace (tensor * OptState B) :=
  let '(params, opt) := st in
  emit LossGradEval;;
  let '(loss, grads) := loss_val_grad_jit params in
  emit OptUpdate;;
  let '(opt, params) := update B opt grads params in
  report_progress B i loss;;
  mret (params, opt).

Definition QUBO_QAOA (K : option Backend) (Qm : ndarray2)
    (ansatz : Z -> list (list Q) -> list Q -> tensor -> tensor)
    (nlayers iterations : Z) (vvag_flag : bool) (ncircuits : Z)
  : ST trace tensor :=
  try_K K;;
  emit IsingConversion;;
  ising ← lift (QUBO_to_Ising Qm);
  let '(pauli_terms, weights, offset) := ising in
  B ← get_K K;
  let loss_val_grad := value_and_grad B (ansatz nlayers pauli_terms weights) in
  emit (ParamInit [2 * nlayers]%Z (1 # 2));;
  let params := implicit_randn B [2 * nlayers]%Z (1 # 2) in
  st ← (if vvag_flag then
          emit (ParamInit [ncircuits; 2 * nlayers]%Z (1 # 10));;
          mret (fun p => let '((value, grads), g) := vvag B loss_val_grad p in
                         (LossPair value grads, g),
                implicit_randn B [ncircuits; 2 * nlayers]%Z (1 # 10))
        else mret (fun p => let '(loss, g) := loss_val_grad p in (Loss loss, g),
                   params));
  let '(loss_val_grad, params) := st in
  let loss_val_grad_jit := loss_val_grad in
  let opt := optimizer B learning_rate in
  final ← for_fold (seq 0 (Z.to_nat iterations))
            (opt_step B loss_val_grad_jit) (params, opt);
  mret final.1.

(** ** Basis states *)

(** [bin(i)[2:]] *)
Fixpoint bin_pos (p : positive) : string :=
  match p with
  | xH => "1"
  | xO p' => bin_pos p' ++ "0"
  | xI p' => bin_pos p' ++ "1"
  end%string.

Definition bin (i : nat) : string :=
  match N.of_nat i with
  | N0 => "0"%string
  | Npos p => bin_pos p
  end.

Fixpoint zero_string (k : nat) : string :=
  match k with
  | 0 => EmptyString
  | S k' => String "0"%char (zero_string k')
  end.

(** [f"{s:0>{width}}"]: right-aligned, padded with the character 0. *)
Definition pad_zeros (width : nat) (s : string) : string :=
  (zero_string (width - String.length s) ++ s)%string.

Definition state_string (n_qubits i : nat) : string :=
  pad_zeros n_qubits (bin i).

(** The loop [for i in range(2**n_qubits): ... states.append(a)]. *)
Definition enumerate_states (n_qubits : nat) : list string :=
  fold_left (fun states i => states ++ [state_string n_qubits i])
            (seq 0 (2 ^ n_qubits)) [].

(** ** Sorting *)

Section sorting.
Context {A : Type} (key : A -> Q).

Fixpoint insert_by (x : A) (l : list A) : list A :=
  match l with
  | [] => [x]
  | y :: l' =>
      if Qle_bool (key x) (key y) then x :: y :: l'
      else y :: insert_by x l'
  end.

(** A stable sort by increasing key. *)
Fixpoint sort_by (l : list A) : list A :=
  match l with
  | [] => []
  | x :: l' => insert_by x (sort_by l')
  end.

(** Python's [sorted(l, key=key, reverse=reverse)]: stable; with
    [reverse=True] the list is reversed, sorted and reversed again, which
    keeps elements of equal key in their original order. *)
Definition py_sorted (reverse : bool) (l : list A) : list A :=
  if reverse then rev (sort_by (rev l)) else sort_by l.
End sorting.

(** [np.argsort(v)] returns the indices that sort [v] by increasing value.
    numpy does not fix the order it gives to equal values, and its default
    sort is not stable.  This is the argsort that keeps equal values in
    index order; what depends on the order of equal values is stated
    below for every argsort, not for this one. *)
Definition argsort (v : list Q) : list nat :=
  map fst (sort_by snd (zip (seq 0 (length v)) v)).

(** [np.round(x, 4)]: to the nearest multiple of 1/10000, halves to even. *)
Definition round_half_even (q : Q) : Z :=
  let f := Qfloor q in
  match (q - inject_Z f ?= 1 # 2)%Q with
  | Lt => f
  | Gt => (f + 1)%Z
  | Eq => if Z.even f then f else (f + 1)%Z
  end.

Definition round4 (q : Q) : Q :=
  (inject_Z (round_half_even (q * 10000)) / 10000)%Q.

(** Python's [l[i]] for any integer [i]: negative indices count from the end. *)
Definition pyindex {A} (l : list A) (i : Z) : result A :=
  if (0 <=? i)%Z then getitem l (Z.to_nat i)
  else if (- Z.of_nat (length l) <=? i)%Z
       then getitem l (Z.to_nat (Z.of_nat (length l) + i))
       else Raise IndexError.

(** [range(a, b)] *)
Definition range (a b : Z) : list Z :=
  map (fun k => (a + Z.of_nat k)%Z) (seq 0 (Z.to_nat (b - a))).

(** [np.array(l)[indices]] *)
Definition take_indices {A} (l : list A) (indices : list nat) : result (list A) :=
  mapM (getitem l) indices.

(** ** print_result_prob *)

Definition print_prob_row (state_sorted : list string) (prob_sorted : list Q)
    (i : Z) : ST trace unit :=
  s ← lift (pyindex state_sorted i);
  p ← lift (pyindex prob_sorted i);
  print (ProbRow s p).

(** The report is written over the function used for [np.argsort], whose
    order on equal values numpy does not fix. *)
Definition print_result_prob_with (sorter : list Q -> list nat)
    (K : option Backend) (E : Engine) (c : Circuit)
    (wrap reverse : bool) : ST trace unit :=
  try_K K;;
  let n_qubits := nqubits c in
  let states := enumerate_states n_qubits in
  B ← get_K K;
  emit ProbabilityQuery;;
  let probs := map round4 (tdata (numpy B (probability E c))) in
  let sorted_indices := rev (sorter probs) in
  let sorted_indices := if reverse then rev sorted_indices else sorted_indices in
  state_sorted ← lift (take_indices states sorted_indices);
  prob_sorted ← lift (take_indices probs sorted_indices);
  print (Text (newline ++ rule));;
  print (Text prob_header);;
  print (Text rule);;
  (if wrap then
     for_each (range 0 4) (print_prob_row state_sorted prob_sorted);;
     print (Text ellipsis);;
     for_each (range (-4) (-1)) (print_prob_row state_sorted prob_sorted)
   else
     for_each (range 0 (Z.of_nat (length states)))
              (print_prob_row state_sorted prob_sorted));;
  print (Text rule).

Definition print_result_prob : option Backend -> Engine -> Circuit ->
    bool -> bool -> ST trace unit :=
  print_result_prob_with argsort.

(** ** print_result_cost and print_Q_cost *)

(** [int(bit)] on the characters of a state string *)
Definition int_of_bit (b : ascii) : Q :=
  if Ascii.eqb b "1" then 1%Q else 0%Q.

Definition bits_of (selection : string) : list Q :=
  map int_of_bit (list_ascii_of_string selection).

Definition shapes_msg : string := "shapes not aligned".

(** [np.dot(Q, x)] for a matrix and a vector *)
Definition dot_mv (Qm : ndarray2) (x : list Q) : result (list Q) :=
  if shape1 Qm =? length x then
    Ok (map (fun i => sumQ (map (fun j => (item Qm i j * nth j x 0)%Q)
                                (seq 0 (shape1 Qm))))
            (seq 0 (shape0 Qm)))
  else Raise (ValueError shapes_msg).

(** [np.dot(x, y)] for two vectors *)
Definition dot_vv (x y : list Q) : result Q :=
  if length x =? length y then Ok (sumQ (zip_with Qmult x y))
  else Raise (ValueError shapes_msg).

(** [np.dot(x, np.dot(Q, x))] *)
Definition quad_form (Qm : ndarray2) (x : list Q) : result Q :=
  y ← dot_mv Qm x; dot_vv x y.

(** A Python dict keeps its keys in insertion order; assigning to a key
    that is present keeps its position. *)
Fixpoint dict_set (d : list (string * Q)) (k : string) (v : Q)
  : list (string * Q) :=
  match d with
  | [] => [(k, v)]
  | (k', v') :: d' =>
      if String.eqb k' k then (k', v) :: d' else (k', v') :: dict_set d' k v
  end.

(** [dict(items)] *)
Definition dict_of_items (items : list (string * Q)) : list (string * Q) :=
  fold_left (fun d kv => dict_set d kv.1 kv.2) items [].

(** The loop that fills [cost_dict]. *)
Definition fill_cost_dict (Qm : ndarray2) (states : list string)
  : result (list (string * Q)) :=
  rfold states
        (fun cost_dict selection =>
           let x := bits_of selection in
           v ← quad_form Qm x;
           mret (dict_set cost_dict selection v))
        [].

(** The printing loop, with its [break]. *)
Fixpoint print_cost_rows (items : list (string * Q)) (num : nat) (wrap : bool)
  : ST trace unit :=
  match items with
  | [] => mret tt
  | kv :: rest =>
      print (CostRow kv.1 kv.2);;
      let num := num + 1 in
      if (8 <=? num) && wrap then mret tt
      else print_cost_rows rest num wrap
  end.

Definition print_result_cost (c : Circuit) (Qm : ndarray2)
    (wrap reverse : bool) : ST trace unit :=
  let n_qubits := nqubits c in
  let states := enumerate_states n_qubits in
  cost_dict ← lift (fill_cost_dict Qm states);
  let cost_sorted := dict_of_items (py_sorted snd false cost_dict) in
  let cost_sorted :=
    if reverse then dict_of_items (py_sorted snd true cost_dict)
    else cost_sorted in
  print (Text (newline ++ rule));;
  print (Text cost_header);;
  print (Text rule);;
  print_cost_rows cost_sorted 0 wrap;;
  print (Text rule).

(** The first loop of [print_Q_cost] also counts the ones of each state in
    [n_ones]; the count is never read. *)
Definition count_ones (a : string) : nat :=
  fold_left (fun n_ones j => if Ascii.eqb j "1" then n_ones + 1 else n_ones)
            (list_ascii_of_string a) 0.

Definition enumerate_states_Q (n_stocks : nat) : list string :=
  fold_left (fun states i =>
               let a := state_string n_stocks i in
               let n_ones := count_ones a in
               states ++ [a])
            (seq 0 (2 ^ n_stocks)) [].

Definition print_Q_cost (Qm : ndarray2) (wrap reverse : bool) : ST trace unit :=
  let n_stocks := shape0 Qm in
  let states := enumerate_states_Q n_stocks in
  cost_dict ← lift (fill_cost_dict Qm states);
  let cost_sorted := dict_of_items (py_sorted snd false cost_dict) in
  let cost_sorted :=
    if reverse then dict_of_items (py_sorted snd true cost_dict)
    else cost_sorted in
  print (Text (newline ++ rule));;
  print (Text cost_header);;
  print (Text rule);;
  print_cost_rows cost_sorted 0 wrap;;
  print (Text rule).

(** ** Classical evaluation of an Ising Hamiltonian *)

Definition bit (b : bool) : Q := if b then 1%Q else 0%Q.

(** The classical Z-value of a bit: [z = 1 - 2*x]. *)
Definition zval (x : Q) : Q := (1 - 2 * x)%Q.

Fixpoint prodQ (l : list Q) : Q :=
  match l with
  | [] => 1%Q
  | x :: l' => (x * prodQ l')%Q
  end.

(** The product of the Z-values of the qubits marked in a term. *)
Definition zprod (term : list Q) (z : list Q) : Q :=
  prodQ (map (fun l => nth l z 0%Q) (index_of_ones term)).

Definition reconstruct (pauli_terms : list (list Q)) (weights : list Q)
    (offset : Q) (z : list Q) : Q :=
  (offset + sumQ (zip_with (fun w term => w * zprod term z) weights pauli_terms))%Q.

Definition symmetric (Qm : ndarray2) : Prop :=
  forall i j, i < shape0 Qm -> j < shape1 Qm -> (item Qm i j == item Qm j i)%Q.

(** A double sum over the square [0 <= i, j < n]. *)
Definition dsum (F : nat -> nat -> Q) (n : nat) : Q :=
  sumQ (map (fun i => sumQ (map (F i) (seq 0 n))) (seq 0 n)).

(** ** Specification-level vocabulary for the loss *)

(** The positions of a term that hold a 1, in increasing order. *)
Definition marked_positions (term : list Q) : list nat :=
  List.filter (fun l => Qeq_bool (nth l term 0%Q) 1) (seq 0 (length term)).

(** The contribution of a term that reads at most its first two marked
    positions. *)
Definition term_value (E : Engine) (c : Circuit) (w : Q) (term : list Q)
  : complex :=
  cscale w (expectation_ps E c (take 2 (marked_positions term))).

(** A simulator and a backend to run the definitions on: every expectation
    is 1, the probabilities are those given, the optimiser leaves the
    parameters unchanged. *)
Definition toy_engine (probs : list Q) : Engine :=
  {| expectation_ps := fun c z => {| re := 1; im := 0 |};
     probability := fun c =>
       {| tshape := [Z.of_nat (length probs)]; tdata := probs |} |}.

Definition toy_backend : Backend :=
  {| OptState := nat;
     value_and_grad := fun f p => (f p, p);
     implicit_randn := fun shape stddev => {| tshape := shape; tdata := [] |};
     vvag := fun f p => (f p, (f p).2);
     optimizer := fun _ => 0;
     update := fun st grads params => (S st, params);
     numpy := fun t => t |}.

Definition circuit_of (n : nat) : Circuit := {| nqubits := n; ops := [] |}.

(** ** Specification-level vocabulary for the blocks *)

(** The circuit [c] followed by the gates [gs]. *)
Definition with_ops (c : Circuit) (gs : list gate) : Circuit :=
  {| nqubits := nqubits c; ops := ops c ++ gs |}.

(** Entry [k] of a tensor along its first axis. *)
Definition slice (p : tensor) (k : nat) : tensor :=
  let m := Z.to_nat (prodZ (tail (tshape p))) in
  {| tshape := tail (tshape p); tdata := take m (drop (k * m) (tdata p)) |}.




(** The circuit accepts the gate. *)
Definition accepted (n : nat) (g : gate) : Prop :=
  check_gate n (gate_qubits g) = Ok tt.

(** The pairs join two different qubits of a circuit of [n] qubits. *)
Definition pairs_fit (n : nat) (pairs : list (nat * nat)) : Prop :=
  Forall (fun ab => ab.1 < n /\ ab.2 < n /\ ab.1 <> ab.2) pairs.


Definition scalar_angle : tensor := {| tshape := []; tdata := [1 # 2]%Q |}.

(** ** Specification-level vocabulary for the optimisation loop *)

Definition is_step (e : event) : bool :=
  match e with
  | LossGradEval | OptUpdate => true
  | _ => false
  end.

(** The evaluations and updates of a trace, in order. *)
Definition steps (tr : trace) : list event := List.filter is_step tr.

(** What the backend is assumed to do with shapes: [implicit_randn] gives a
    tensor of the shape asked for, and the optimiser returns parameters of
    the shape it was given. *)
Definition shape_preserving (B : Backend) : Prop :=
  (forall shape stddev, tshape (implicit_randn B shape stddev) = shape) /\
  (forall st grads params, tshape (update B st grads params).2 = tshape params).

(** ** Specification-level vocabulary for the reports *)

(** [x] occurs before [y] in [l]. *)
Definition before {A} (l : list A) (x y : A) : Prop :=
  exists l1 l2 l3, l = l1 ++ x :: l2 ++ y :: l3.

(** The rows of a report, in the order in which they are printed. *)
Definition row_of (e : event) : option (string * Q) :=
  match e with
  | Print (ProbRow s p) => Some (s, p)
  | Print (CostRow s v) => Some (s, v)
  | _ => None
  end.

Definition rows (tr : trace) : list (string * Q) := omap row_of tr.

(** The cost of a basis state, zero where [np.dot] would raise. *)
Definition cost_of (Qm : ndarray2) (selection : string) : Q :=
  match quad_form Qm (bits_of selection) with
  | Ok v => v
  | Raise _ => 0%Q
  end.

(** The number written by a string of binary digits. *)
Fixpoint parse_bin (acc : nat) (s : string) : nat :=
  match s with
  | EmptyString => acc
  | String b s' => parse_bin (2 * acc + (if Ascii.eqb b "1" then 1 else 0)) s'
  end.

(** The items of the report in the order of the enumeration. *)
Definition cost_items (Qm : ndarray2) (n : nat) : list (string * Q) :=
  map (fun s => (s, cost_of Qm s)) (enumerate_states n).

(** The row of state number [i] in the cost report and in the probability
    report. *)
Definition cost_item (Qm : ndarray2) (n i : nat) : string * Q :=
  (state_string n i, cost_of Qm (state_string n i)).

Definition prob_item (probs : list Q) (n i : nat) : string * Q :=
  (state_string n i, nth i probs 0%Q).

(** A matrix on which all costs tie, and a distribution on which both
    probabilities tie. *)
Definition Q_zero : ndarray2 := of_rows 2 2 [[0; 0]; [0; 0]]%Q.
Definition coin : list Q := [1 # 2; 1 # 2]%Q.

(** A distribution over the eight states of three qubits. *)
Definition probs8 : list Q :=
  [1 # 8; 1 # 8; 1 # 4; 1 # 16; 1 # 16; 1 # 8; 1 # 8; 0]%Q.

(** A distribution over the same states with eight different values. *)
Definition probs8_distinct : list Q :=
  [10 # 100; 25 # 100; 2 # 100; 30 # 100; 6 # 100; 15 # 100; 8 # 100; 4 # 100]%Q.

(** The probabilities that the report sorts: rounded to four decimals. *)
Definition rounded_probs (B : Backend) (E : Engine) (c : Circuit) : list Q :=
  map round4 (tdata (numpy B (probability E c))).

(** The order of the rows of the probability report, as indices into the
    enumeration of the states. *)
Definition prob_order (sorter : list Q -> list nat) (probs : list Q)
    (reverse : bool) : list nat :=
  if reverse then sorter probs else rev (sorter probs).

(** What any argsort does: it returns the indices of its argument, each
    once. *)
Definition index_sorter (sorter : list Q -> list nat) : Prop :=
  forall v, Permutation (sorter v) (seq 0 (length v)).

(** An argsort that keeps equal values in index order. *)
Definition stable_sorter (sorter : list Q -> list nat) : Prop :=
  forall v i j,
    i < j -> j < length v -> (nth i v 0 == nth j v 0)%Q ->
    before (sorter v) i j.

(** ** Specification-level vocabulary for the Ising terms *)

(** A length-[n] 0/1 vector with a 1 exactly at the marked positions. *)
Definition indicator (n : nat) (marked : nat -> bool) : list Q :=
  map (fun l => if marked l then 1%Q else 0%Q) (seq 0 n).

Definition single_term (n i : nat) : list Q :=
  indicator n (fun l => l =? i).

Definition pair_term (n : nat) (p : nat * nat) : list Q :=
  indicator n (fun l => (l =? p.1) || (l =? p.2)).

(** Pairs [(i, j)] with [i < j < n], increasing [i], then increasing [j]. *)
Definition upper_pairs (n : nat) : list (nat * nat) :=
  flat_map (fun i => map (pair i) (seq (S i) (n - S i))) (seq 0 n).

(** Pairs [(i, j)] with [i <= j < n]: the upper triangle with its diagonal. *)
Definition upper_incl (n : nat) : list (nat * nat) :=
  flat_map (fun i => map (pair i) (seq i (n - i))) (seq 0 n).

Definition row_sum (Qm : ndarray2) (i : nat) : Q :=
  sumQ (map (item Qm i) (seq 0 (shape1 Qm))).

Definition entry (Qm : ndarray2) (p : nat * nat) : Q := item Qm p.1 p.2.

Definition lex_lt (p q : nat * nat) : Prop :=
  p.1 < q.1 \/ (p.1 = q.1 /\ p.2 < q.2).

(** The value returned on a square matrix with at least one row, in the
    vocabulary of the specification. *)
Definition Ising_of (Qm : ndarray2) (n : nat) : list (list Q) * list Q * Q :=
  (map (single_term n) (seq 0 n) ++ map (pair_term n) (upper_pairs n),
   map (fun i => (- row_sum Qm i / 2)%Q) (seq 0 n)
     ++ map (fun p => (entry Qm p / 2)%Q) (upper_pairs n),
   (sum_all (triu Qm) / 2)%Q).

(** Matrices to run the conversion on: a 2-by-3 array and two arrays with
    no row. *)
Definition Q_2x3 : ndarray2 := of_rows 2 3 [[1; 2; 3]; [4; 5; 6]]%Q.
Definition Q_empty : ndarray2 := of_rows 0 0 [].
Definition Q_0x3 : ndarray2 := of_rows 0 3 [].

(** ** QAOA_loss

    The function calls [QAOA_ansatz_for_Ising], a name that the file neither
    defines nor imports: like [K] it is a global that is bound or not when
    the call is made. *)

Definition QAOA_loss
    (QAOA_ansatz_for_Ising :
       option (tensor -> Z -> list (list Q) -> list Q -> Circuit))
    (E : Engine) (nlayers : Z) (pauli_terms : list (list Q))
    (weights : list Q) (params : tensor) : result Q :=
  match QAOA_ansatz_for_Ising with
  | None => Raise (NameError "QAOA_ansatz_for_Ising")
  | Some ansatz =>
      let c := ansatz params nlayers pauli_terms weights in
      Ising_loss E c pauli_terms weights
  end.

(** ** The other blocks of templates/blocks.py

    These blocks use gates that [QAOA_block] does not, and a two-qubit gate
    whose unitary is an argument, so they have their own gate type. *)

Module Blocks.

Inductive unitary_arg : Type :=
| G_zz_matrix                 (* G._zz_matrix *)
| given (u : tensor).         (* a tensor passed by the caller *)

Inductive op : Type :=
| X (a : nat)
| H (a : nat)
| cnot (a b : nat)
| exp1 (a b : nat) (u : unitary_arg) (theta : tensor) (kws : kwargs)
| rx (n : nat) (theta : tensor).

Record circuit : Type := mk_circuit {
  nqubits : nat;              (* c._nqubits *)
  ops : list op
}.

(** The qubits a gate acts on. *)
Definition qubits_of (g : op) : list nat :=
  match g with
  | X a | H a | rx a _ => [a]
  | cnot a b | exp1 a b _ _ _ => [a; b]
  end.

(** A gate method of the circuit, with the check of [check_gate]. *)
Definition apply_op (g : op) : ST circuit unit :=
  fun c =>
    match check_gate (nqubits c) (qubits_of g) with
    | Ok _ => ({| nqubits := nqubits c; ops := ops c ++ [g] |}, Ok tt)
    | Raise e => (c, Raise e)
    end.

(** [range(start, stop, step)] for a positive step *)
Definition range3 (start stop step : Z) : list Z :=
  map (fun k => (start + Z.of_nat k * step)%Z)
      (seq 0 (Z.to_nat ((stop - start + step - 1) / step))).

(** [[(i, i + 1) for i in range(0, n - 1, 2)]] *)
Definition default_links (n : nat) : list (nat * nat) :=
  map (fun i => (Z.to_nat i, Z.to_nat (i + 1)))
      (range3 0 (Z.of_nat n - 1) 2).

Definition Bell_pair_block (links : option (list (nat * nat)))
  : ST circuit unit :=
  fun c =>
    let n := nqubits c in
    let links := match links with
                 | None => default_links n
                 | Some l => l
                 end in
    for_each links (fun ab =>
      apply_op (X ab.1);;
      apply_op (H ab.1);;
      apply_op (cnot ab.1 ab.2);;
      apply_op (X ab.2)) c.



(** [param[a, b]] *)
Definition tensor_getitem2 (t : tensor) (a b : nat) : result tensor :=
  row ← tensor_getitem t a; tensor_getitem row b.

Definition example_block (param : tensor) (nlayers : Z) : ST circuit unit :=
  fun c =>
    let n := nqubits c in
    (for_each (seq 0 n) (fun i => apply_op (H i));;
     for_each (seq 0 (Z.to_nat nlayers)) (fun j =>
       for_each (seq 0 (n - 1)) (fun i =>
         theta ← lift (tensor_getitem2 param (2 * j) i);
         apply_op (exp1 i (i + 1) G_zz_matrix theta []));;
       for_each (seq 0 n) (fun i =>
         theta ← lift (tensor_getitem2 param (2 * j + 1) i);
         apply_op (rx i theta)))) c.

(** The circuit [c] followed by the gates [gs]. *)
Definition with_ops (c : circuit) (gs : list op) : circuit :=
  {| nqubits := nqubits c; ops := ops c ++ gs |}.

(** The circuit accepts the gate. *)
Definition accepted (n : nat) (g : op) : Prop :=
  check_gate n (qubits_of g) = Ok tt.

(** The four gates of one Bell pair. *)
Definition bell_gates (ab : nat * nat) : list op :=
  [X ab.1; H ab.1; cnot ab.1 ab.2; X ab.2].

End Blocks.

(** ** Specification-level vocabulary for tensors and bit vectors *)

(** The number of entries of a tensor along its first axis. *)
Definition avail (p : tensor) : nat :=
  match tshape p with
  | [] => 0
  | d :: _ => Z.to_nat d
  end.

(** Entry [(a, b)] of a tensor of two or more axes. *)
Definition slice2 (p : tensor) (a b : nat) : tensor := slice (slice p a) b.

(** The number written by a vector of bits, most significant bit first. *)
Definition bits_value (x : list Q) : Q :=
  fold_left (fun acc b => (2 * acc + b)%Q) x 0%Q.

(** The gates of layer [j] of example_block. *)
Definition example_layer (param : tensor) (n j : nat) : list Blocks.op :=
  map (fun i => Blocks.exp1 i (i + 1) Blocks.G_zz_matrix (slice2 param (2 * j) i) [])
      (seq 0 (n - 1))
  ++ map (fun i => Blocks.rx i (slice2 param (2 * j + 1) i)) (seq 0 n).


(** ** Specification-level vocabulary for the traces and the indices *)

Definition is_print (e : event) : bool :=
  match e with
  | Print _ => true
  | _ => false
  end.

(** The lines printed in a trace. *)
Definition prints (tr : trace) : list event := List.filter is_print tr.

(** The position that Python's indexing reads for an index in range. *)
Definition pypos (len : nat) (i : Z) : nat :=
  Z.to_nat (if (0 <=? i)%Z then i else Z.of_nat len + i).

(** ** Lemmas on the loops of QUBO_to_Ising *)

Lemma insert_zeros_single n i :
  i < n -> <[i := 1%Q]> (zeros n) = single_term n i.
Proof.
  intros Hi. apply list_eq. intros k.
  unfold single_term, indicator, zeros.
  rewrite list_lookup_fmap.
  destruct (decide (k < n)) as [Hk|Hk].
  - rewrite lookup_seq_lt by lia. simpl.
    destruct (Nat.eqb_spec k i) as [->|Hne].
    + rewrite list_lookup_insert_eq; [done|]. rewrite length_replicate. lia.
    + rewrite list_lookup_insert_ne by congruence.
      rewrite lookup_replicate_2 by lia. done.
  - rewrite lookup_seq_ge by lia. simpl.
    apply lookup_ge_None. rewrite length_insert, length_replicate. lia.
Qed.

Lemma insert_zeros_pair n i j :
  i < n -> j < n ->
  <[j := 1%Q]> (<[i := 1%Q]> (zeros n)) = pair_term n (i, j).
Proof.
  intros Hi Hj. apply list_eq. intros k.
  unfold pair_term, indicator, zeros.
  rewrite list_lookup_fmap.
  destruct (decide (k < n)) as [Hk|Hk].
  - rewrite lookup_seq_lt by lia. simpl.
    destruct (Nat.eqb_spec k j) as [->|Hnej].
    + rewrite list_lookup_insert_eq.
      * by rewrite orb_true_r.
      * rewrite length_insert, length_replicate. lia.
    + rewrite list_lookup_insert_ne by congruence. rewrite orb_false_r.
      destruct (Nat.eqb_spec k i) as [->|Hnei].
      * rewrite list_lookup_insert_eq; [done|]. rewrite length_replicate. lia.
      * rewrite list_lookup_insert_ne by congruence.
        rewrite lookup_replicate_2 by lia. done.
  - rewrite lookup_seq_ge by lia. simpl.
    apply lookup_ge_None. rewrite !length_insert, length_replicate. lia.
Qed.

Lemma fold_left_snoc {A B} (f : B -> A) (l : list B) (acc : list A) :
  fold_left (fun pt i => pt ++ [f i]) l acc = acc ++ map f l.
Proof.
  revert acc. induction l as [|b l IH]; intros acc; simpl.
  - by rewrite app_nil_r.
  - rewrite IH. by rewrite <- app_assoc.
Qed.

Lemma inner_loop_spec Qm n i js pt w :
  i < n -> Forall (fun j => j < n) js ->
  fold_left (add_pair_term Qm n i) js (pt, w) =
  (pt ++ map (fun j => pair_term n (i, j)) js,
   w ++ map (fun j => (item Qm i j / 2)%Q) js).
Proof.
  intros Hi Hjs. revert pt w.
  induction Hjs as [|j js Hj Hjs IH]; intros pt w; simpl.
  - by rewrite !app_nil_r.
  - rewrite insert_zeros_pair by done. rewrite IH.
    by rewrite <- !app_assoc.
Qed.

Lemma outer_loop_spec Qm n is_ pt w :
  Forall (fun i => i < n) is_ ->
  fold_left (fun st i =>
               fold_left (add_pair_term Qm n i) (seq (i + 1) (n - (i + 1))) st)
            is_ (pt, w) =
  (pt ++ flat_map (fun i => map (fun j => pair_term n (i, j)) (seq (S i) (n - S i))) is_,
   w ++ flat_map (fun i => map (fun j => (item Qm i j / 2)%Q) (seq (S i) (n - S i))) is_).
Proof.
  intros His. revert pt w.
  induction His as [|i is_ Hi His IH]; intros pt w; simpl.
  - by rewrite !app_nil_r.
  - replace (i + 1) with (S i) by lia.
    rewrite inner_loop_spec; [|done|].
    + rewrite IH. by rewrite <- !app_assoc.
    + apply Forall_forall. intros j Hj. apply list_elem_of_In, in_seq in Hj. lia.
Qed.

Lemma map_flat_map {A B C} (f : B -> C) (g : A -> list B) (l : list A) :
  map f (flat_map g l) = flat_map (fun a => map f (g a)) l.
Proof.
  induction l as [|a l IH]; simpl; [done|].
  by rewrite map_app, IH.
Qed.

Lemma flat_map_seq_last {A} (g : nat -> list A) (n : nat) :
  1 <= n -> g (n - 1) = [] ->
  flat_map g (seq 0 n) = flat_map g (seq 0 (n - 1)).
Proof.
  intros Hn Hg. replace n with (S (n - 1)) at 1 by lia.
  rewrite seq_S, flat_map_app. simpl. rewrite Hg. by rewrite !app_nil_r.
Qed.

Lemma getrow_ok Qm i :
  i < shape0 Qm -> getrow Qm i = Ok (map (item Qm i) (seq 0 (shape1 Qm))).
Proof.
  intros Hi. unfold getrow.
  destruct (Nat.ltb_spec i (shape0 Qm)); [done|lia].
Qed.

Lemma getrow_empty Qm i : shape0 Qm = 0 -> getrow Qm i = Raise IndexError.
Proof. intros H0. unfold getrow. rewrite H0. done. Qed.

Lemma QUBO_to_Ising_square Qm n :
  shape0 Qm = n -> shape1 Qm = n -> 1 <= n ->
  QUBO_to_Ising Qm = Ok (Ising_of Qm n).
Proof.
  intros H0 H1 Hn. unfold QUBO_to_Ising, Ising_of.
  rewrite getrow_ok by lia. simpl.
  rewrite length_map, length_seq, H0, H1, Nat.eqb_refl. simpl.
  rewrite fold_left_snoc. simpl.
  rewrite outer_loop_spec.
  2:{ apply Forall_forall. intros i Hi. apply list_elem_of_In, in_seq in Hi. lia. }
  assert (Hsingle : map (fun i => <[i := 1%Q]> (zeros n)) (seq 0 n)
                    = map (single_term n) (seq 0 n)).
  { apply map_ext_in. intros i Hi. apply in_seq in Hi.
    apply insert_zeros_single. lia. }
  assert (Hlast : forall {A} (g : nat -> nat -> A),
             flat_map (fun i => map (g i) (seq (S i) (n - S i))) (seq 0 (n - 1))
             = map (fun p => g p.1 p.2) (upper_pairs n)).
  { intros A g. unfold upper_pairs. rewrite map_flat_map.
    rewrite (flat_map_seq_last _ n); [|done|].
    - apply flat_map_ext. intros i. by rewrite map_map.
    - by replace (n - S (n - 1)) with 0 by lia. }
  rewrite Hsingle.
  rewrite (Hlast _ (fun i j => pair_term n (i, j))).
  rewrite (Hlast _ (fun i j => (item Qm i j / 2)%Q)).
  unfold sum_axis1, row_sum, entry. rewrite map_map, H0, H1.
  reflexivity.
Qed.

Lemma QUBO_to_Ising_not_square Qm :
  1 <= shape0 Qm -> shape1 Qm <> shape0 Qm ->
  QUBO_to_Ising Qm = Raise (ValueError not_square_msg).
Proof.
  intros Hn Hne. unfold QUBO_to_Ising.
  rewrite getrow_ok by lia. simpl.
  rewrite length_map, length_seq.
  destruct (Nat.eqb_spec (shape1 Qm) (shape0 Qm)); [done|done].
Qed.

Lemma QUBO_to_Ising_no_rows Qm :
  shape0 Qm = 0 -> QUBO_to_Ising Qm = Raise IndexError.
Proof.
  intros H0. unfold QUBO_to_Ising. by rewrite getrow_empty.
Qed.

(** ** Counting and ordering the pairs *)

Lemma length_pairs_from n a k :
  a + k = n ->
  2 * length (flat_map (fun i => map (pair i) (seq (S i) (n - S i))) (seq a k))
  = k * (k - 1).
Proof.
  revert a. induction k as [|k IH]; intros a Hak; simpl; [done|].
  rewrite length_app, length_map, length_seq.
  specialize (IH (S a) ltac:(lia)).
  replace (n - S a) with k by lia.
  rewrite Nat.sub_0_r. nia.
Qed.

Lemma length_upper_pairs n : 2 * length (upper_pairs n) = n * (n - 1).
Proof. apply (length_pairs_from n 0 n). lia. Qed.

Lemma elem_of_upper_pairs n i j :
  (i, j) ∈ upper_pairs n <-> i < j < n.
Proof.
  unfold upper_pairs. rewrite list_elem_of_In, in_flat_map. split.
  - intros (a & Ha & Hin). apply in_map_iff in Hin as (b & Heq & Hb).
    apply in_seq in Ha, Hb. injection Heq as <- <-. lia.
  - intros Hij. exists i. split; [apply in_seq; lia|].
    apply in_map_iff. exists j. split; [done|]. apply in_seq. lia.
Qed.

Lemma pairs_row_sorted i js :
  StronglySorted lt js -> StronglySorted lex_lt (map (pair i) js).
Proof.
  induction 1 as [|j js Hs IH Hall]; simpl; constructor; [done|].
  apply Forall_forall. intros p Hp.
  apply list_elem_of_In, in_map_iff in Hp as (b & <- & Hb).
  right. simpl. split; [done|].
  rewrite Forall_forall in Hall. apply Hall. by apply list_elem_of_In.
Qed.

Lemma seq_sorted a k : StronglySorted lt (seq a k).
Proof.
  revert a. induction k as [|k IH]; intros a; simpl; constructor; [done|].
  apply Forall_forall. intros b Hb. apply list_elem_of_In, in_seq in Hb. lia.
Qed.

Lemma rows_sorted (row : nat -> list nat) a k :
  (forall i, StronglySorted lt (row i)) ->
  StronglySorted lex_lt (flat_map (fun i => map (pair i) (row i)) (seq a k)).
Proof.
  intros Hrow. revert a. induction k as [|k IH]; intros a; simpl; [constructor|].
  apply StronglySorted_app_2; [|apply pairs_row_sorted, Hrow|apply IH].
  intros p q Hp Hq.
  apply list_elem_of_In, in_map_iff in Hp as (b & <- & Hb).
  apply list_elem_of_In, in_flat_map in Hq as (c & Hc & Hq).
  apply in_map_iff in Hq as (d & <- & Hd).
  apply in_seq in Hc. left. simpl. lia.
Qed.

Lemma upper_pairs_sorted n : StronglySorted lex_lt (upper_pairs n).
Proof. apply (rows_sorted (fun i => seq (S i) (n - S i))). intros i. apply seq_sorted. Qed.

Lemma upper_incl_sorted n : StronglySorted lex_lt (upper_incl n).
Proof. apply (rows_sorted (fun i => seq i (n - i))). intros i. apply seq_sorted. Qed.

Lemma lex_sorted_NoDup (l : list (nat * nat)) :
  StronglySorted lex_lt l -> NoDup l.
Proof.
  induction 1 as [|p l Hs IH Hall]; [constructor|].
  apply NoDup_cons. split; [|done].
  intros Hin. rewrite Forall_forall in Hall.
  specialize (Hall p Hin). unfold lex_lt in Hall. lia.
Qed.

Lemma lookup_indicator n marked l :
  l < n -> indicator n marked !! l = Some (if marked l then 1%Q else 0%Q).
Proof.
  intros Hl. unfold indicator.
  by rewrite list_lookup_fmap, lookup_seq_lt by lia.
Qed.

Lemma length_Ising_terms n :
  1 <= n ->
  length (map (single_term n) (seq 0 n) ++ map (pair_term n) (upper_pairs n))
  = n * (n + 1) / 2.
Proof.
  intros Hn. rewrite length_app, !length_map, length_seq.
  pose proof (length_upper_pairs n) as HL.
  replace (n * (n + 1)) with ((n + length (upper_pairs n)) * 2) by nia.
  by rewrite Nat.div_mul.
Qed.

(** ** Sums of rationals *)

Lemma sumQ_app l1 l2 : (sumQ (l1 ++ l2) == sumQ l1 + sumQ l2)%Q.
Proof.
  induction l1 as [|x l1 IH]; simpl; [ring|]. rewrite IH. ring.
Qed.

Lemma sumQ_map_ext {A} (f g : A -> Q) (l : list A) :
  (forall a, In a l -> (f a == g a)%Q) ->
  (sumQ (map f l) == sumQ (map g l))%Q.
Proof.
  induction l as [|a l IH]; intros H; simpl; [reflexivity|].
  rewrite (H a) by (by left). rewrite IH; [reflexivity|].
  intros b Hb. apply H. by right.
Qed.

Lemma sumQ_map_zero {A} (f : A -> Q) (l : list A) :
  (forall a, In a l -> (f a == 0)%Q) -> (sumQ (map f l) == 0)%Q.
Proof.
  induction l as [|a l IH]; intros H; simpl; [reflexivity|].
  rewrite (H a) by (by left). rewrite IH; [ring|].
  intros b Hb. apply H. by right.
Qed.

Lemma sumQ_map_plus {A} (f g : A -> Q) (l : list A) :
  (sumQ (map (fun a => f a + g a) l) == sumQ (map f l) + sumQ (map g l))%Q.
Proof.
  induction l as [|a l IH]; simpl; [ring|]. rewrite IH. ring.
Qed.

Lemma sumQ_map_scale {A} (c : Q) (f : A -> Q) (l : list A) :
  (sumQ (map (fun a => c * f a) l) == c * sumQ (map f l))%Q.
Proof.
  induction l as [|a l IH]; simpl; [ring|]. rewrite IH. ring.
Qed.

Lemma sumQ_flat_map {A} (g : A -> list Q) (l : list A) :
  (sumQ (flat_map g l) == sumQ (map (fun a => sumQ (g a)) l))%Q.
Proof.
  induction l as [|a l IH]; simpl; [reflexivity|].
  rewrite sumQ_app, IH. reflexivity.
Qed.

(** A sum over [c <= j < n] written as a sum over [j < n] with a guard. *)
Lemma sumQ_guard_from (g : nat -> Q) (c n : nat) :
  c <= n ->
  (sumQ (map (fun j => if j <? c then 0 else g j) (seq 0 n))
   == sumQ (map g (seq c (n - c))))%Q.
Proof.
  intros Hc. replace n with (c + (n - c)) at 1 by lia.
  rewrite seq_app, map_app, sumQ_app. simpl.
  rewrite sumQ_map_zero.
  - rewrite Qplus_0_l. apply sumQ_map_ext. intros j Hj. apply in_seq in Hj.
    destruct (Nat.ltb_spec j c); [lia|reflexivity].
  - intros j Hj. apply in_seq in Hj.
    destruct (Nat.ltb_spec j c); [reflexivity|lia].
Qed.

(** Exchange of the two summation indices over a square. *)
Lemma sumQ_swap (F : nat -> nat -> Q) (n m : nat) :
  (sumQ (map (fun i => sumQ (map (fun j => F i j) (seq 0 m))) (seq 0 n))
   == sumQ (map (fun j => sumQ (map (fun i => F i j) (seq 0 n))) (seq 0 m)))%Q.
Proof.
  induction n as [|n IH].
  - simpl. symmetry. apply sumQ_map_zero. reflexivity.
  - rewrite seq_S, map_app, sumQ_app, IH. simpl.
    rewrite Qplus_0_r, <- sumQ_map_plus.
    apply sumQ_map_ext. intros j _.
    rewrite map_app, sumQ_app. simpl. ring.
Qed.

(** ** The offset is half the sum of the upper triangle with its diagonal *)

Lemma sum_triu_upper_incl Qm n :
  shape0 Qm = n -> shape1 Qm = n ->
  (sum_all (triu Qm) == sumQ (map (entry Qm) (upper_incl n)))%Q.
Proof.
  intros H0 H1. unfold sum_all, upper_incl. simpl. rewrite H0, H1.
  rewrite map_flat_map, sumQ_flat_map.
  apply sumQ_map_ext. intros i Hi. apply in_seq in Hi.
  rewrite map_map. unfold entry. simpl.
  apply (sumQ_guard_from (item Qm i) i n). lia.
Qed.

Lemma elem_of_upper_incl n i j :
  (i, j) ∈ upper_incl n <-> i <= j < n.
Proof.
  unfold upper_incl. rewrite list_elem_of_In, in_flat_map. split.
  - intros (a & Ha & Hin). apply in_map_iff in Hin as (b & Heq & Hb).
    apply in_seq in Ha, Hb. injection Heq as <- <-. lia.
  - intros Hij. exists i. split; [apply in_seq; lia|].
    apply in_map_iff. exists j. split; [done|]. apply in_seq. lia.
Qed.

(** ** Double sums *)

Lemma dsum_ext F G n :
  (forall i j, i < n -> j < n -> (F i j == G i j)%Q) ->
  (dsum F n == dsum G n)%Q.
Proof.
  intros H. unfold dsum. apply sumQ_map_ext. intros i Hi. apply in_seq in Hi.
  apply sumQ_map_ext. intros j Hj. apply in_seq in Hj. apply H; lia.
Qed.

Lemma dsum_plus F G n :
  (dsum (fun i j => F i j + G i j) n == dsum F n + dsum G n)%Q.
Proof.
  unfold dsum. rewrite <- sumQ_map_plus.
  apply sumQ_map_ext. intros i _. apply sumQ_map_plus.
Qed.

Lemma dsum_scale c F n :
  (dsum (fun i j => c * F i j) n == c * dsum F n)%Q.
Proof.
  unfold dsum. rewrite <- sumQ_map_scale.
  apply sumQ_map_ext. intros i _. apply sumQ_map_scale.
Qed.

Lemma dsum_swap F n : (dsum F n == dsum (fun i j => F j i) n)%Q.
Proof. unfold dsum. apply (sumQ_swap F n n). Qed.

(** Two double sums agree as soon as their symmetrised terms agree. *)
Lemma dsum_symmetrise F G n :
  (forall i j, i < n -> j < n -> (F i j + F j i == G i j + G j i)%Q) ->
  (dsum F n == dsum G n)%Q.
Proof.
  intros H.
  assert (H2 : (dsum F n + dsum F n == dsum G n + dsum G n)%Q).
  { rewrite (dsum_swap F n) at 2. rewrite (dsum_swap G n) at 2.
    rewrite <- !dsum_plus. by apply dsum_ext. }
  lra.
Qed.

(** ** The marked positions of the terms *)

Lemma fold_left_filter {A} (body : list A -> A -> list A) (P : A -> bool)
    (ls acc : list A) :
  (forall acc l, In l ls -> body acc l = if P l then acc ++ [l] else acc) ->
  fold_left body ls acc = acc ++ List.filter P ls.
Proof.
  revert acc. induction ls as [|l ls IH]; intros acc H; simpl.
  - by rewrite app_nil_r.
  - rewrite (H acc l) by (by left).
    rewrite IH by (intros; apply H; by right).
    destruct (P l); [by rewrite <- app_assoc|done].
Qed.

Lemma length_indicator n marked : length (indicator n marked) = n.
Proof. unfold indicator. by rewrite length_map, length_seq. Qed.

Lemma index_of_ones_indicator n marked :
  index_of_ones (indicator n marked) = List.filter marked (seq 0 n).
Proof.
  unfold index_of_ones. rewrite length_indicator.
  rewrite (fold_left_filter _ marked); [done|].
  intros acc l Hl. apply in_seq in Hl.
  unfold indicator. rewrite list_lookup_fmap, lookup_seq_lt by lia. simpl.
  by destruct (marked l).
Qed.

Lemma filter_nil_seq (f : nat -> bool) a k :
  (forall l, a <= l < a + k -> f l = false) -> List.filter f (seq a k) = [].
Proof.
  revert a. induction k as [|k IH]; intros a H; simpl; [done|].
  rewrite (H a) by lia. apply IH. intros l Hl. apply H. lia.
Qed.

Lemma filter_seq_first (f : nat -> bool) a k i :
  a <= i < a + k ->
  (forall l, a <= l < i -> f l = false) -> f i = true ->
  List.filter f (seq a k) = i :: List.filter f (seq (S i) (a + k - S i)).
Proof.
  intros Hi Hbefore Hhit.
  replace k with ((i - a) + S (a + k - S i)) at 1 by lia.
  rewrite seq_app, List.filter_app.
  rewrite filter_nil_seq by (intros l Hl; apply Hbefore; lia).
  replace (a + (i - a)) with i by lia.
  rewrite <- cons_seq. simpl. by rewrite Hhit.
Qed.

Lemma index_of_ones_single n i :
  i < n -> index_of_ones (single_term n i) = [i].
Proof.
  intros Hi. unfold single_term. rewrite index_of_ones_indicator.
  rewrite (filter_seq_first _ 0 n i).
  - rewrite filter_nil_seq; [done|]. intros l Hl. apply Nat.eqb_neq. lia.
  - lia.
  - intros l Hl. apply Nat.eqb_neq. lia.
  - apply Nat.eqb_refl.
Qed.

Lemma index_of_ones_pair n i j :
  i < j -> j < n -> index_of_ones (pair_term n (i, j)) = [i; j].
Proof.
  intros Hij Hj. unfold pair_term. rewrite index_of_ones_indicator.
  rewrite (filter_seq_first _ 0 n i).
  - rewrite (filter_seq_first _ (S i) _ j).
    + rewrite filter_nil_seq; [done|]. intros l Hl.
      apply orb_false_iff. split; apply Nat.eqb_neq; simpl; lia.
    + lia.
    + intros l Hl. apply orb_false_iff. split; apply Nat.eqb_neq; simpl; lia.
    + simpl. by rewrite Nat.eqb_refl, orb_true_r.
  - lia.
  - intros l Hl. apply orb_false_iff. split; apply Nat.eqb_neq; simpl; lia.
  - simpl. by rewrite Nat.eqb_refl.
Qed.

Lemma zprod_single n i z :
  i < n -> (zprod (single_term n i) z == nth i z 0)%Q.
Proof.
  intros Hi. unfold zprod. rewrite index_of_ones_single by done. simpl. ring.
Qed.

Lemma zprod_pair n i j z :
  i < j -> j < n -> (zprod (pair_term n (i, j)) z == nth i z 0 * nth j z 0)%Q.
Proof.
  intros Hij Hj. unfold zprod. rewrite index_of_ones_pair by done. simpl. ring.
Qed.

(** ** The reconstruction identity *)

(** The algebraic core: with [z = 1 - 2x] and [x] binary, the Ising form of a
    symmetric matrix equals the quadratic form, as double sums. *)
Lemma ising_identity (a : nat -> nat -> Q) (X : nat -> Q) (n : nat) :
  (forall i j, i < n -> j < n -> (a i j == a j i)%Q) ->
  (forall i, i < n -> (X i == 0)%Q \/ (X i == 1)%Q) ->
  (dsum (fun i j =>
           (1 # 2) * (if j <? i then 0 else a i j)
           + (- (1 # 2) * (1 - 2 * X i)) * a i j
           + (if j <? S i then 0
              else a i j / 2 * ((1 - 2 * X i) * (1 - 2 * X j)))) n
   == dsum (fun i j => X i * (a i j * X j)) n)%Q.
Proof.
  intros Hsym Hbin. apply dsum_symmetrise. intros i j Hi Hj.
  destruct (Nat.lt_trichotomy i j) as [Hlt|[->|Hgt]].
  - destruct (Nat.ltb_spec j i); [lia|]. destruct (Nat.ltb_spec j (S i)); [lia|].
    destruct (Nat.ltb_spec i j); [|lia]. destruct (Nat.ltb_spec i (S j)); [|lia].
    rewrite (Hsym j i) by lia. field.
  - destruct (Nat.ltb_spec j j); [lia|]. destruct (Nat.ltb_spec j (S j)); [|lia].
    destruct (Hbin j Hj) as [Hx|Hx]; rewrite Hx; ring.
  - destruct (Nat.ltb_spec j i); [|lia]. destruct (Nat.ltb_spec j (S i)); [|lia].
    destruct (Nat.ltb_spec i j); [lia|]. destruct (Nat.ltb_spec i (S j)); [lia|].
    rewrite (Hsym j i) by lia. field.
Qed.

Lemma zip_with_map_map {A B C D} (f : B -> C -> D) (g : A -> B) (h : A -> C)
    (l : list A) :
  zip_with f (map g l) (map h l) = map (fun a => f (g a) (h a)) l.
Proof. induction l as [|a l IH]; simpl; [done|]. by rewrite IH. Qed.

Lemma zip_with_seq {B C} (d : Q) (f : Q -> B -> C) (g : nat -> B)
    (x : list Q) (a : nat) :
  zip_with f x (map g (seq a (length x)))
  = map (fun i => f (nth (i - a) x d) (g i)) (seq a (length x)).
Proof.
  revert a. induction x as [|h t IH]; intros a; simpl; [done|].
  rewrite Nat.sub_diag. f_equal. rewrite IH.
  apply map_ext_in. intros i Hi. apply in_seq in Hi.
  by replace (i - a) with (S (i - S a)) by lia.
Qed.

Lemma nth_zval x i :
  i < length x -> nth i (map zval x) 0%Q = zval (nth i x 0%Q).
Proof.
  intros Hi. rewrite (nth_indep _ 0%Q (zval 0%Q)) by (by rewrite length_map).
  apply map_nth.
Qed.

Lemma nth_bit_binary bs i :
  (nth i (map bit bs) 0 == 0)%Q \/ (nth i (map bit bs) 0 == 1)%Q.
Proof.
  change 0%Q with (bit false) at 1 3. rewrite map_nth.
  destruct (nth i bs false); [by right|by left].
Qed.

Lemma quad_form_square Qm n x :
  shape0 Qm = n -> shape1 Qm = n -> length x = n ->
  exists v, quad_form Qm x = Ok v /\
            (v == dsum (fun i j => nth i x 0 * (item Qm i j * nth j x 0)) n)%Q.
Proof.
  intros H0 H1 Hx. rewrite <- Hx in H0, H1 |- *. clear Hx.
  unfold quad_form, dot_mv, dot_vv. rewrite H0, H1.
  rewrite Nat.eqb_refl. simpl.
  rewrite length_map, length_seq, Nat.eqb_refl.
  eexists. split; [done|].
  rewrite (zip_with_seq 0%Q).
  unfold dsum. apply sumQ_map_ext. intros i _.
  rewrite Nat.sub_0_r. by rewrite sumQ_map_scale.
Qed.

Lemma reconstruct_Ising_of Qm n z :
  shape0 Qm = n -> shape1 Qm = n ->
  (reconstruct (Ising_of Qm n).1.1 (Ising_of Qm n).1.2 (Ising_of Qm n).2 z ==
   dsum (fun i j =>
           (1 # 2) * (if j <? i then 0 else item Qm i j)
           + (- (1 # 2) * nth i z 0) * item Qm i j
           + (if j <? S i then 0
              else item Qm i j / 2 * (nth i z 0 * nth j z 0))) n)%Q.
Proof.
  intros H0 H1. unfold Ising_of, reconstruct. simpl fst. simpl snd.
  rewrite zip_with_app by (by rewrite !length_map).
  rewrite !zip_with_map_map, sumQ_app.
  rewrite !dsum_plus, dsum_scale.
  assert (Hoff : (sum_all (triu Qm) / 2
                  == (1 # 2) * dsum (fun i j => if j <? i then 0 else item Qm i j) n)%Q).
  { unfold sum_all, dsum. simpl. rewrite H0, H1. field. }
  assert (Hsingle :
    (sumQ (map (fun i => - row_sum Qm i / 2 * zprod (single_term n i) z) (seq 0 n))
     == dsum (fun i j => (- (1 # 2) * nth i z 0) * item Qm i j) n)%Q).
  { unfold dsum. apply sumQ_map_ext. intros i Hi. apply in_seq in Hi.
    rewrite sumQ_map_scale, zprod_single by lia.
    unfold row_sum. rewrite H1. field. }
  assert (Hpair :
    (sumQ (map (fun p => entry Qm p / 2 * zprod (pair_term n p) z) (upper_pairs n))
     == dsum (fun i j => if j <? S i then 0
                         else item Qm i j / 2 * (nth i z 0 * nth j z 0)) n)%Q).
  { unfold upper_pairs, dsum. rewrite map_flat_map, sumQ_flat_map.
    apply sumQ_map_ext. intros i Hi. apply in_seq in Hi.
    rewrite map_map.
    rewrite (sumQ_guard_from
               (fun j => item Qm i j / 2 * (nth i z 0 * nth j z 0))%Q (S i) n) by lia.
    apply sumQ_map_ext. intros j Hj. apply in_seq in Hj.
    unfold entry. simpl. rewrite zprod_pair by lia. reflexivity. }
  rewrite Hoff, Hsingle, Hpair. ring.
Qed.

(** C1.  For a symmetric n-by-n matrix and a binary vector x of length n,
    whatever QUBO_to_Ising returns satisfies the reconstruction identity:
    offset + sum_k weights[k] * prod of the Z-values (z = 1 - 2x) of the
    qubits marked in pauli_terms[k] equals x^T Q x, the value computed by
    np.dot(x, np.dot(Q, x)).  The call does return as soon as the matrix
    has a row. *)
Theorem QUBO_to_Ising_reconstruction (Qm : ndarray2) (n : nat) (bs : list bool) :
  shape0 Qm = n -> shape1 Qm = n -> symmetric Qm -> length bs = n ->
  (1 <= n -> exists out, QUBO_to_Ising Qm = Ok out) /\
  (forall pauli_terms weights offset,
     QUBO_to_Ising Qm = Ok (pauli_terms, weights, offset) ->
     exists cost,
       quad_form Qm (map bit bs) = Ok cost /\
       (reconstruct pauli_terms weights offset (map zval (map bit bs))
        == cost)%Q).
Proof.
  intros H0 H1 Hsym Hlen. split.
  - intros Hn. eexists. by apply (QUBO_to_Ising_square Qm n).
  - intros pt w off Hret.
    destruct (decide (n = 0)) as [->|Hn].
    { by rewrite QUBO_to_Ising_no_rows in Hret. }
    rewrite (QUBO_to_Ising_square Qm n) in Hret by (done || lia).
    injection Hret as <- <- <-.
    destruct (quad_form_square Qm n (map bit bs) H0 H1) as (v & Hv & Hveq).
    { by rewrite length_map. }
    exists v. split; [done|].
    rewrite Hveq.
    pose proof (reconstruct_Ising_of Qm n (map zval (map bit bs)) H0 H1) as Hrec.
    unfold Ising_of in Hrec. simpl fst in Hrec. simpl snd in Hrec.
    rewrite Hrec.
    rewrite <- (ising_identity (item Qm) (fun i => nth i (map bit bs) 0%Q) n).
    + apply dsum_ext. intros i j Hi Hj.
      rewrite !nth_zval by (rewrite length_map; lia).
      unfold zval. reflexivity.
    + intros i j Hi Hj. apply Hsym; lia.
    + intros i _. apply nth_bit_binary.
Qed.

Lemma QUBO_to_Ising_reconstruction_witness :
  (1 <= 2 -> exists out, QUBO_to_Ising Q_example = Ok out) /\
  (forall pauli_terms weights offset,
     QUBO_to_Ising Q_example = Ok (pauli_terms, weights, offset) ->
     exists cost,
       quad_form Q_example (map bit [true; false]) = Ok cost /\
       (reconstruct pauli_terms weights offset (map zval (map bit [true; false]))
        == cost)%Q).
Proof.
  apply (QUBO_to_Ising_reconstruction Q_example 2 [true; false]).
  - reflexivity.
  - reflexivity.
  - intros i j Hi Hj. simpl in Hi, Hj.
    destruct i as [|[|i]], j as [|[|j]]; try lia; reflexivity.
  - reflexivity.
Defined.

(** The worked example of the specification: for [[1,2],[2,3]] the state 00
    reconstructs the cost 0 and the state 11 the cost 8. *)
Example reconstruction_example :
  let '(pt, w, off) := Ising_of Q_example 2 in
  (reconstruct pt w off (map zval [0; 0]) == 0)%Q /\
  (reconstruct pt w off (map zval [1; 1]) == 8)%Q /\
  (off == 3)%Q /\ Forall2 Qeq w [- (3 # 2); - (5 # 2); 1]%Q.
Proof. vm_compute. repeat split; repeat constructor; done. Qed.

(** ** QUBO_to_Ising: terms, weights, offset and the shape check *)

(** C2, for a matrix with at least one row.  For a square n-by-n
    matrix with n >= 1, QUBO_to_Ising returns n*(n+1)/2 Pauli terms: first
    the n single-qubit indicator vectors in order, then the indicator vector
    of each pair (i, j), i < j, by increasing i then increasing j; the
    weights are aligned with the terms, -sum(Q[i,:])/2 for qubit i and
    Q[i][j]/2 for the pair (i, j); the offset is half the sum of the entries
    Q[i][j] with i <= j, each counted once. *)
Theorem QUBO_to_Ising_terms (Qm : ndarray2) (n : nat) :
  shape0 Qm = n -> shape1 Qm = n -> 1 <= n ->
  exists pauli_terms weights offset,
    QUBO_to_Ising Qm = Ok (pauli_terms, weights, offset) /\
    length pauli_terms = n * (n + 1) / 2 /\
    length weights = length pauli_terms /\
    pauli_terms
      = map (single_term n) (seq 0 n) ++ map (pair_term n) (upper_pairs n) /\
    weights
      = map (fun i => (- row_sum Qm i / 2)%Q) (seq 0 n)
        ++ map (fun p => (entry Qm p / 2)%Q) (upper_pairs n) /\
    (offset == sumQ (map (entry Qm) (upper_incl n)) / 2)%Q /\
    (forall i j, (i, j) ∈ upper_pairs n <-> i < j < n) /\
    StronglySorted lex_lt (upper_pairs n) /\
    (forall i j, (i, j) ∈ upper_incl n <-> i <= j < n) /\
    NoDup (upper_incl n).
Proof.
  intros H0 H1 Hn.
  eexists _, _, _. split; [by apply (QUBO_to_Ising_square Qm n)|].
  split; [by apply length_Ising_terms|].
  split; [by rewrite !length_app, !length_map|].
  split; [done|]. split; [done|].
  split; [by rewrite (sum_triu_upper_incl Qm n)|].
  split; [apply elem_of_upper_pairs|].
  split; [apply upper_pairs_sorted|].
  split; [apply elem_of_upper_incl|].
  apply lex_sorted_NoDup, upper_incl_sorted.
Qed.

Lemma QUBO_to_Ising_terms_witness :
  exists pauli_terms weights offset,
    QUBO_to_Ising Q_example = Ok (pauli_terms, weights, offset) /\
    length pauli_terms = 2 * (2 + 1) / 2 /\
    length weights = length pauli_terms /\
    pauli_terms
      = map (single_term 2) (seq 0 2) ++ map (pair_term 2) (upper_pairs 2) /\
    weights
      = map (fun i => (- row_sum Q_example i / 2)%Q) (seq 0 2)
        ++ map (fun p => (entry Q_example p / 2)%Q) (upper_pairs 2) /\
    (offset == sumQ (map (entry Q_example) (upper_incl 2)) / 2)%Q /\
    (forall i j, (i, j) ∈ upper_pairs 2 <-> i < j < 2) /\
    StronglySorted lex_lt (upper_pairs 2) /\
    (forall i j, (i, j) ∈ upper_incl 2 <-> i <= j < 2) /\
    NoDup (upper_incl 2).
Proof.
  apply (QUBO_to_Ising_terms Q_example 2); [reflexivity|reflexivity|lia].
Defined.

(** The empty matrix is square; row 0 is read for the shape check, so the
    call raises and returns no terms. *)
Lemma QUBO_to_Ising_empty_counterexample :
  shape0 Q_empty = 0 /\ shape1 Q_empty = 0 /\
  QUBO_to_Ising Q_empty = Raise IndexError /\
  ~ (exists pauli_terms weights offset,
       QUBO_to_Ising Q_empty = Ok (pauli_terms, weights, offset) /\
       length pauli_terms = 0 * (0 + 1) / 2).
Proof.
  repeat split. intros (pt & w & off & Hret & _). discriminate Hret.
Qed.

(** C8, stated with the case of a matrix without row.  On a matrix with at
    least one row QUBO_to_Ising raises ValueError exactly when the matrix is
    not square; on a matrix with no row, reading row 0 raises IndexError.
    The exception depends on the shape alone: every matrix of the same shape
    raises the same exception, whatever its entries, and a raised call
    carries no term, weight or offset. *)
Theorem QUBO_to_Ising_shape_check (Qm : ndarray2) :
  (1 <= shape0 Qm ->
   ((exists msg, QUBO_to_Ising Qm = Raise (ValueError msg))
    <-> shape1 Qm <> shape0 Qm)) /\
  (shape0 Qm = 0 -> QUBO_to_Ising Qm = Raise IndexError) /\
  (forall e, QUBO_to_Ising Qm = Raise e ->
     forall Qm', shape0 Qm' = shape0 Qm -> shape1 Qm' = shape1 Qm ->
                 QUBO_to_Ising Qm' = Raise e).
Proof.
  split; [|split].
  - intros Hn. split.
    + intros [msg Hraise] Heq.
      by rewrite (QUBO_to_Ising_square Qm (shape0 Qm)) in Hraise.
    + intros Hne. exists not_square_msg. by apply QUBO_to_Ising_not_square.
  - apply QUBO_to_Ising_no_rows.
  - intros e Hraise Qm' H0 H1.
    destruct (decide (shape0 Qm = 0)) as [Hz|Hz].
    { rewrite QUBO_to_Ising_no_rows in Hraise by done.
      rewrite QUBO_to_Ising_no_rows by congruence. done. }
    destruct (decide (shape1 Qm = shape0 Qm)) as [Hsq|Hsq].
    { rewrite (QUBO_to_Ising_square Qm (shape0 Qm)) in Hraise by (done || lia).
      discriminate. }
    rewrite QUBO_to_Ising_not_square in Hraise by (done || lia).
    rewrite QUBO_to_Ising_not_square by (congruence || lia). done.
Qed.

Lemma QUBO_to_Ising_shape_check_witness :
  ((exists msg, QUBO_to_Ising Q_2x3 = Raise (ValueError msg))
   <-> shape1 Q_2x3 <> shape0 Q_2x3) /\
  QUBO_to_Ising Q_2x3 = Raise (ValueError not_square_msg).
Proof.
  split.
  - apply (proj1 (QUBO_to_Ising_shape_check Q_2x3)). simpl. lia.
  - reflexivity.
Defined.

(** A 0-by-3 array is not square, and the call raises IndexError, not
    ValueError. *)
Lemma QUBO_to_Ising_no_rows_counterexample :
  shape1 Q_0x3 <> shape0 Q_0x3 /\
  QUBO_to_Ising Q_0x3 = Raise IndexError /\
  ~ ((exists msg, QUBO_to_Ising Q_0x3 = Raise (ValueError msg))
     <-> shape1 Q_0x3 <> shape0 Q_0x3).
Proof.
  split; [simpl; lia|]. split; [reflexivity|].
  intros [_ Hraise]. destruct Hraise as [msg Hmsg]; [simpl; lia|].
  discriminate Hmsg.
Qed.

(** ** Ising_loss *)

Lemma index_of_ones_marked term : index_of_ones term = marked_positions term.
Proof.
  unfold index_of_ones, marked_positions.
  rewrite (fold_left_filter _ (fun l => Qeq_bool (nth l term 0%Q) 1)); [done|].
  intros acc l Hl. apply in_seq in Hl.
  destruct (term !! l) as [t|] eqn:Hlook.
  - by rewrite (nth_lookup_Some _ _ 0%Q _ Hlook).
  - apply lookup_ge_None in Hlook. lia.
Qed.

Lemma getitem_raises {A} (l : list A) i e :
  getitem l i = Raise e -> e = IndexError.
Proof. unfold getitem. destruct (l !! i); [done|]. by intros [= <-]. Qed.

Lemma delta_loss_raises E c weights k term e :
  delta_loss E c weights k term = Raise e -> e = IndexError.
Proof.
  unfold delta_loss.
  destruct (length (index_of_ones term) =? 1);
    destruct (getitem weights k) eqn:Hw; simpl;
    try (intros [= <-]; by apply getitem_raises in Hw);
    destruct (getitem (index_of_ones term) 0) eqn:H0; simpl;
    try (intros [= <-]; by apply getitem_raises in H0); try done.
  destruct (getitem (index_of_ones term) 1) eqn:H1; simpl; [done|].
  intros [= <-]. by apply getitem_raises in H1.
Qed.

Lemma delta_loss_no_ones E c weights k term :
  marked_positions term = [] ->
  delta_loss E c weights k term = Raise IndexError.
Proof.
  intros Hnone. unfold delta_loss. rewrite index_of_ones_marked, Hnone. simpl.
  destruct (getitem weights k) eqn:Hw; simpl; [done|].
  by apply getitem_raises in Hw as ->.
Qed.

Lemma delta_loss_two E c weights k term w i0 i1 rest :
  marked_positions term = i0 :: i1 :: rest -> weights !! k = Some w ->
  delta_loss E c weights k term = Ok (cscale w (expectation_ps E c [i0; i1])).
Proof.
  intros Hm Hw. unfold delta_loss, getitem.
  rewrite index_of_ones_marked, Hm, Hw. by destruct rest.
Qed.

Lemma delta_loss_term_value E c weights k term w :
  marked_positions term <> [] -> weights !! k = Some w ->
  delta_loss E c weights k term = Ok (term_value E c w term).
Proof.
  intros Hm Hw. unfold delta_loss, term_value, getitem.
  rewrite index_of_ones_marked, Hw.
  destruct (marked_positions term) as [|i0 [|i1 rest]]; done.
Qed.

(** A loop raises IndexError as soon as one of its iterations always
    raises and no iteration raises anything else. *)
Lemma rfold_raises {X V} (xs : list X) (body : V -> X -> result V) (v : V) x :
  x ∈ xs ->
  (forall v y e, body v y = Raise e -> e = IndexError) ->
  (forall v, body v x = Raise IndexError) ->
  rfold xs body v = Raise IndexError.
Proof.
  intros Hx Honly Hfail. revert v.
  induction xs as [|y xs IH]; intros v; [by apply elem_of_nil in Hx|].
  simpl. destruct (body v y) as [v'|e] eqn:Hbody; simpl.
  - apply elem_of_cons in Hx as [->|Hx].
    + by rewrite Hfail in Hbody.
    + by apply IH.
  - by apply Honly in Hbody as ->.
Qed.

Lemma bind_Ok {A B} (a : A) (k : A -> result B) : (Ok a ≫= k) = k a.
Proof. reflexivity. Qed.

Lemma getitem_middle {A} (pre : list A) x post :
  getitem (pre ++ x :: post) (length pre) = Ok x.
Proof. unfold getitem. by rewrite list_lookup_middle. Qed.

Lemma loss_loop E c pre ts wpre ws v :
  length wpre = length pre -> length ts <= length ws ->
  Forall (fun t => marked_positions t <> []) ts ->
  rfold (seq (length pre) (length ts))
        (fun loss k =>
           term ← getitem (pre ++ ts) k;
           d ← delta_loss E c (wpre ++ ws) k term;
           mret (cadd loss d))
        v
  = Ok (fold_left cadd (zip_with (term_value E c) ws ts) v).
Proof.
  intros Hpre Hlen Hall. revert pre wpre ws v Hpre Hlen.
  induction Hall as [|t ts Ht Hall IH]; intros pre wpre ws v Hpre Hlen.
  - simpl. by destruct ws.
  - destruct ws as [|w ws]; [simpl in Hlen; lia|]. simpl.
    rewrite getitem_middle, bind_Ok.
    rewrite (delta_loss_term_value _ _ _ _ _ w); [|done|].
    2:{ rewrite <- Hpre. by apply list_lookup_middle. }
    rewrite !bind_Ok.
    specialize (IH (pre ++ [t]) (wpre ++ [w]) ws (cadd v (term_value E c w t))).
    rewrite !length_app, <- !app_assoc in IH. simpl in IH.
    replace (length pre + 1) with (S (length pre)) in IH by lia.
    apply IH; [lia|]. simpl in Hlen. lia.
Qed.

(** C10.  Ising_loss reads at most the first two marked positions of a
    term: a term with two or more 1-entries contributes its weight times the
    two-qubit correlator of the first two marked qubits, whatever the later
    1-entries are; when every term has a 1-entry and every term has a
    weight, the loss is the real part of the sum of these contributions; a
    term without 1-entry makes the call raise IndexError. *)
Theorem Ising_loss_first_two_marked (E : Engine) (c : Circuit) :
  (forall weights k term w i0 i1 rest,
     marked_positions term = i0 :: i1 :: rest -> weights !! k = Some w ->
     delta_loss E c weights k term
     = Ok (cscale w (expectation_ps E c [i0; i1]))) /\
  (forall pauli_terms weights,
     length pauli_terms <= length weights ->
     Forall (fun t => marked_positions t <> []) pauli_terms ->
     Ising_loss E c pauli_terms weights
     = Ok (re (fold_left cadd (zip_with (term_value E c) weights pauli_terms)
                         czero))) /\
  (forall pauli_terms weights term,
     term ∈ pauli_terms -> marked_positions term = [] ->
     Ising_loss E c pauli_terms weights = Raise IndexError).
Proof.
  split; [|split].
  - intros. by eapply delta_loss_two.
  - intros ts ws Hlen Hall. unfold Ising_loss.
    pose proof (loss_loop E c [] ts [] ws czero eq_refl Hlen Hall) as Hloop.
    simpl in Hloop. by rewrite Hloop.
  - intros ts ws term Hin Hnone. unfold Ising_loss.
    apply list_elem_of_lookup in Hin as [k Hk].
    rewrite (rfold_raises _ _ _ k); [done| | |].
    + apply list_elem_of_In, in_seq. apply lookup_lt_Some in Hk. lia.
    + intros v y e. destruct (getitem ts y) as [t|e'] eqn:Hget; simpl.
      * destruct (delta_loss E c ws y t) eqn:Hd; simpl; [done|].
        intros [= <-]. by apply delta_loss_raises in Hd.
      * intros [= <-]. by apply getitem_raises in Hget.
    + intros v. unfold getitem at 1. rewrite Hk. simpl.
      by rewrite delta_loss_no_ones.
Qed.

Lemma Ising_loss_first_two_marked_witness :
  delta_loss (toy_engine []) (circuit_of 3) [2%Q] 0 [1; 1; 1]%Q
  = Ok (cscale 2 (expectation_ps (toy_engine []) (circuit_of 3) [0; 1])) /\
  Ising_loss (toy_engine []) (circuit_of 3) [[1; 1; 1]; [0; 1; 0]]%Q [2; 3]%Q
  = Ok (re (fold_left cadd
              (zip_with (term_value (toy_engine []) (circuit_of 3))
                        [2; 3]%Q [[1; 1; 1]; [0; 1; 0]]%Q) czero)) /\
  Ising_loss (toy_engine []) (circuit_of 3) [[1; 0; 0]; [0; 0; 0]]%Q [2; 3]%Q
  = Raise IndexError.
Proof.
  pose proof (Ising_loss_first_two_marked (toy_engine []) (circuit_of 3))
    as (Htwo & Hsum & Hnone).
  split; [|split].
  - apply (Htwo [2%Q] 0 [1; 1; 1]%Q 2%Q 0 1 [2]); reflexivity.
  - apply Hsum; [simpl; lia|]. repeat constructor; discriminate.
  - apply (Hnone _ _ [0; 0; 0]%Q); [|reflexivity].
    apply elem_of_cons. right. apply elem_of_cons. by left.
Defined.

(** ** QAOA_block *)




Lemma ST_bind_eq {S A B} (m : ST S A) (k : A -> ST S B) (s : S) :
  (m ≫= k) s = match m s with
               | (s', Ok a) => k a s'
               | (s', Raise e) => (s', Raise e)
               end.
Proof. reflexivity. Qed.

Lemma ret_eq {S A} (a : A) (s : S) : (mret a : ST S A) s = (s, Ok a).
Proof. reflexivity. Qed.

Lemma for_fold_cons {S X V} (x : X) (xs : list X) (body : V -> X -> ST S V) v :
  for_fold (x :: xs) body v = (v' ← body v x; for_fold xs body v').
Proof. reflexivity. Qed.

Lemma tensor_getitem_avail p i :
  tensor_getitem p i = if i <? avail p then Ok (slice p i) else Raise IndexError.
Proof.
  unfold tensor_getitem, avail, slice.
  destruct (tshape p) as [|d ds]; [done|]. simpl.
  destruct (Z.ltb_spec (Z.of_nat i) d), (Nat.ltb_spec i (Z.to_nat d));
    (done || lia).
Qed.


(** *** The check of a gate *)

Lemma check_gate_one n a : a < n -> check_gate n [a] = Ok tt.
Proof.
  intros Ha. unfold check_gate. cbn [repeated existsb orb forallb andb].
  by destruct (Nat.ltb_spec a n); [|lia].
Qed.

Lemma check_gate_two n a b :
  a < n -> b < n -> a <> b -> check_gate n [a; b] = Ok tt.
Proof.
  intros Ha Hb Hab. unfold check_gate. cbn [repeated existsb orb forallb andb].
  destruct (Nat.eqb_spec a b); [done|]. cbn [orb].
  destruct (Nat.ltb_spec a n); [|lia]. by destruct (Nat.ltb_spec b n); [|lia].
Qed.

(** *** Loops that append gates

    The loops of the blocks, over any circuit type: [add] applies a gate
    that the circuit accepts, [ext] is the circuit followed by gates, and
    whether a gate is accepted depends on the size of the circuit alone. *)

Section gate_loops.
Context {St G : Type} (add : G -> ST St unit) (ext : St -> list G -> St)
        (size : St -> nat) (fit : nat -> G -> Prop).
Hypothesis add_eq : forall g s, fit (size s) g -> add g s = (ext s [g], Ok tt).
Hypothesis ext_nil : forall s, ext s [] = s.
Hypothesis ext_app : forall s gs1 gs2, ext (ext s gs1) gs2 = ext s (gs1 ++ gs2).
Hypothesis size_ext : forall s gs, size (ext s gs) = size s.

(** A loop that applies one gate per element. *)
Lemma each_loop {X} (f : X -> G) (xs : list X) (s : St) :
  (forall x, x ∈ xs -> fit (size s) (f x)) ->
  for_each xs (fun x => add (f x)) s = (ext s (map f xs), Ok tt).
Proof.
  unfold for_each. revert s. induction xs as [|x xs IH]; intros s Hfit.
  - simpl. by rewrite ret_eq, ext_nil.
  - rewrite for_fold_cons, ST_bind_eq, add_eq by (apply Hfit; by left).
    rewrite IH, ext_app; [done|].
    intros y Hy. rewrite size_ext. apply Hfit. by right.
Qed.

(** A loop that reads a value for each element and applies a gate, when
    every read succeeds. *)
Lemma read_loop {X V} (r : X -> result V) (v : X -> V) (f : X -> V -> G)
    (xs : list X) (s : St) :
  (forall x, x ∈ xs -> r x = Ok (v x)) ->
  (forall x, x ∈ xs -> fit (size s) (f x (v x))) ->
  for_each xs (fun x => theta ← lift (r x); add (f x theta)) s
  = (ext s (map (fun x => f x (v x)) xs), Ok tt).
Proof.
  unfold for_each. revert s. induction xs as [|x xs IH]; intros s Hr Hfit.
  - simpl. by rewrite ret_eq, ext_nil.
  - rewrite for_fold_cons, ST_bind_eq, ST_bind_eq. unfold lift.
    rewrite (Hr x) by (by left). rewrite add_eq by (apply Hfit; by left).
    rewrite IH.
    + by rewrite ext_app.
    + intros y Hy. apply Hr. by right.
    + intros y Hy. rewrite size_ext. apply Hfit. by right.
Qed.


(** A loop whose body applies a list of gates. *)
Lemma multi_loop {X} (body : X -> ST St unit) (gs : X -> list G)
    (xs : list X) (s : St) :
  (forall x s', x ∈ xs -> size s' = size s ->
                body x s' = (ext s' (gs x), Ok tt)) ->
  for_each xs body s = (ext s (flat_map gs xs), Ok tt).
Proof.
  unfold for_each. revert s. induction xs as [|x xs IH]; intros s Hbody.
  - simpl. by rewrite ret_eq, ext_nil.
  - rewrite for_fold_cons, ST_bind_eq, Hbody by (done || by left).
    rewrite IH.
    + by rewrite ext_app.
    + intros y t Hy Ht. apply Hbody; [by right|]. by rewrite Ht, size_ext.
Qed.

(** A loop whose body raises at some element: the gates of the elements
    before it, and those the failing body applied, stay. *)
Lemma multi_loop_fail {X} (body : X -> ST St unit) (gs : X -> list G)
    (xs : list X) (y : X) (zs : list X) (gy : list G) (e : exn) (s : St) :
  (forall x s', x ∈ xs -> size s' = size s ->
                body x s' = (ext s' (gs x), Ok tt)) ->
  (forall s', size s' = size s -> body y s' = (ext s' gy, Raise e)) ->
  for_each (xs ++ y :: zs) body s = (ext s (flat_map gs xs ++ gy), Raise e).
Proof.
  unfold for_each. revert s. induction xs as [|x xs IH]; intros s Hbody Hy.
  - cbn [app flat_map]. by rewrite for_fold_cons, ST_bind_eq, Hy.
  - cbn [app flat_map].
    rewrite for_fold_cons, ST_bind_eq, Hbody by (done || by left).
    rewrite IH.
    + by rewrite ext_app, app_assoc.
    + intros z t Hz Ht. apply Hbody; [by right|]. by rewrite Ht, size_ext.
    + intros t Ht. apply Hy. by rewrite Ht, size_ext.
Qed.

(** A reading loop whose first read raises applies nothing. *)
Lemma read_loop_fail {X V} (r : X -> result V) (f : X -> V -> G)
    (x : X) (xs : list X) (e : exn) (s : St) :
  r x = Raise e ->
  for_each (x :: xs) (fun x => theta ← lift (r x); add (f x theta)) s
  = (s, Raise e).
Proof.
  intros Hr. unfold for_each.
  rewrite for_fold_cons, ST_bind_eq, ST_bind_eq. unfold lift. by rewrite Hr.
Qed.

End gate_loops.

(** *** The two phases of QAOA_block *)












(** ** QUBO_QAOA *)

Lemma emit_eq e tr : emit e tr = (tr ++ [e], Ok tt).
Proof. reflexivity. Qed.

Lemma steps_app tr1 tr2 : steps (tr1 ++ tr2) = steps tr1 ++ steps tr2.
Proof. apply List.filter_app. Qed.

Lemma prints_app tr1 tr2 : prints (tr1 ++ tr2) = prints tr1 ++ prints tr2.
Proof. apply List.filter_app. Qed.

(** The progress report of a loss that is a tensor, and of one that is a
    pair. *)
Lemma report_progress_loss B i t tr :
  report_progress B i (Loss t) tr
  = (tr ++ (if i mod 100 =? 0 then [Print (Value (numpy B t))] else []),
     Ok tt).
Proof.
  unfold report_progress. destruct (i mod 100 =? 0).
  - by rewrite ST_bind_eq.
  - by rewrite ret_eq, app_nil_r.
Qed.

Lemma report_progress_pair B i value grads tr :
  report_progress B i (LossPair value grads) tr
  = (tr, if i mod 100 =? 0 then Raise (AttributeError "numpy") else Ok tt).
Proof.
  unfold report_progress. destruct (i mod 100 =? 0); [|done].
  by rewrite ST_bind_eq.
Qed.

Lemma opt_step_loss B lvg params opt i tr t :
  (lvg params).1 = Loss t ->
  opt_step B lvg (params, opt) i tr
  = (tr ++ [LossGradEval; OptUpdate]
        ++ (if i mod 100 =? 0 then [Print (Value (numpy B t))] else []),
     Ok ((update B opt (lvg params).2 params).2,
         (update B opt (lvg params).2 params).1)).
Proof.
  intros Hloss. unfold opt_step. rewrite ST_bind_eq, emit_eq.
  destruct (lvg params) as [loss grads]. simpl in Hloss. subst loss.
  rewrite ST_bind_eq, emit_eq. simpl snd.
  destruct (update B opt grads params) as [opt1 params1].
  rewrite ST_bind_eq, report_progress_loss, ret_eq.
  by rewrite <- !app_assoc.
Qed.

Lemma opt_step_pair B lvg params opt i tr value grads :
  (lvg params).1 = LossPair value grads -> i mod 100 = 0 ->
  opt_step B lvg (params, opt) i tr
  = (tr ++ [LossGradEval; OptUpdate], Raise (AttributeError "numpy")).
Proof.
  intros Hloss Hi. unfold opt_step. rewrite ST_bind_eq, emit_eq.
  destruct (lvg params) as [loss g]. simpl in Hloss. subst loss.
  rewrite ST_bind_eq, emit_eq.
  destruct (update B opt g params) as [opt1 params1].
  rewrite ST_bind_eq, report_progress_pair, Hi.
  by rewrite <- !app_assoc.
Qed.

(** The loop of a function whose losses are tensors runs its body once per
    element of the range. *)
Lemma opt_loop (B : Backend) (lvg : tensor -> loss_value * tensor)
    (is_ : list nat) (params : tensor) (opt : OptState B) (tr : trace) :
  (forall p, exists t, (lvg p).1 = Loss t) ->
  (forall st grads p, tshape (update B st grads p).2 = tshape p) ->
  exists tr' final,
    for_fold is_ (opt_step B lvg) (params, opt) tr = (tr ++ tr', Ok final) /\
    steps tr' = concat (replicate (length is_) [LossGradEval; OptUpdate]) /\
    tshape final.1 = tshape params.
Proof.
  intros Hloss Hupd. revert params opt tr.
  induction is_ as [|i is_ IH]; intros params opt tr.
  - exists [], (params, opt). simpl. by rewrite ret_eq, app_nil_r.
  - rewrite for_fold_cons, ST_bind_eq.
    destruct (Hloss params) as [t Ht]. rewrite (opt_step_loss _ _ _ _ _ _ t Ht).
    match goal with
    | |- context [for_fold is_ _ (?p, ?o) ?t'] =>
        destruct (IH p o t') as (tr' & final & -> & Hsteps & Hshape)
    end.
    eexists _, final. split; [by rewrite <- !app_assoc|]. split.
    + rewrite !steps_app, Hsteps. by destruct (i mod 100 =? 0).
    + by rewrite Hshape, Hupd.
Qed.

(** The lines that the loop prints: one for every index that is a multiple
    of 100. *)
Lemma opt_loop_prints (B : Backend) (lvg : tensor -> loss_value * tensor)
    (is_ : list nat) (params : tensor) (opt : OptState B) (tr : trace) :
  (forall p, exists t, (lvg p).1 = Loss t) ->
  exists tr' final,
    for_fold is_ (opt_step B lvg) (params, opt) tr = (tr ++ tr', Ok final) /\
    length (prints tr')
    = length (List.filter (fun i => i mod 100 =? 0) is_) /\
    (is_ = [] -> tr' = [] /\ final = (params, opt)).
Proof.
  intros Hloss. revert params opt tr.
  induction is_ as [|i is_ IH]; intros params opt tr.
  - exists [], (params, opt). simpl. by rewrite ret_eq, app_nil_r.
  - rewrite for_fold_cons, ST_bind_eq.
    destruct (Hloss params) as [t Ht]. rewrite (opt_step_loss _ _ _ _ _ _ t Ht).
    match goal with
    | |- context [for_fold is_ _ (?p, ?o) ?t'] =>
        destruct (IH p o t') as (tr' & final & -> & Hcount & _)
    end.
    eexists _, final. split; [by rewrite <- !app_assoc|]. split; [|done].
    rewrite !prints_app, !length_app, Hcount. cbn [List.filter].
    destruct (i mod 100 =? 0); reflexivity.
Qed.

(** The loop of a function whose losses are pairs stops in its first
    iteration, at the progress report. *)
Lemma opt_loop_pair (B : Backend) (lvg : tensor -> loss_value * tensor)
    (m : nat) (params : tensor) (opt : OptState B) (tr : trace) :
  (forall p, exists value grads, (lvg p).1 = LossPair value grads) ->
  for_fold (seq 0 (S m)) (opt_step B lvg) (params, opt) tr
  = (tr ++ [LossGradEval; OptUpdate], Raise (AttributeError "numpy")).
Proof.
  intros Hloss. rewrite <- cons_seq, for_fold_cons, ST_bind_eq.
  destruct (Hloss params) as (value & grads & Hp).
  by rewrite (opt_step_pair _ _ _ _ _ _ value grads Hp).
Qed.

(** The run of QUBO_QAOA without vvag, up to its loop. *)
Lemma QUBO_QAOA_scalar (B : Backend) (Qm : ndarray2) (n : nat)
    (ansatz : Z -> list (list Q) -> list Q -> tensor -> tensor)
    (nlayers iterations : Z) (ncircuits : Z) (tr : trace) :
  shape0 Qm = n -> shape1 Qm = n -> 1 <= n ->
  exists lvg,
    (forall p, exists t, (lvg p).1 = Loss t) /\
    QUBO_QAOA (Some B) Qm ansatz nlayers iterations false ncircuits tr
    = match for_fold (seq 0 (Z.to_nat iterations)) (opt_step B lvg)
                     (implicit_randn B [2 * nlayers]%Z (1 # 2),
                      optimizer B learning_rate)
                     (tr ++ [IsingConversion; ParamInit [2 * nlayers]%Z (1 # 2)])
      with
      | (tr', Ok final) => (tr', Ok final.1)
      | (tr', Raise e) => (tr', Raise e)
      end.
Proof.
  intros H0 H1 Hn. unfold QUBO_QAOA, try_K, get_K, lift.
  rewrite (QUBO_to_Ising_square Qm n) by done. unfold Ising_of.
  rewrite ST_bind_eq, ret_eq, ST_bind_eq, emit_eq, ST_bind_eq.
  rewrite ST_bind_eq, ret_eq, ST_bind_eq, emit_eq, ST_bind_eq.
  rewrite ret_eq, ST_bind_eq.
  match goal with |- context [opt_step B ?f] => exists f end.
  split.
  { intros p. cbv beta.
    match goal with
    | |- context [value_and_grad B ?f p] =>
        destruct (value_and_grad B f p) as [loss g]
    end.
    by exists loss. }
  rewrite <- !app_assoc. cbn [app].
  match goal with
  | |- context [for_fold ?r ?body ?st ?t] => destruct (for_fold r body st t) as [tr' [final|e]]
  end; done.
Qed.

(** The run of QUBO_QAOA with vvag, up to its loop. *)
Lemma QUBO_QAOA_vvag (B : Backend) (Qm : ndarray2) (n : nat)
    (ansatz : Z -> list (list Q) -> list Q -> tensor -> tensor)
    (nlayers iterations : Z) (ncircuits : Z) (tr : trace) :
  shape0 Qm = n -> shape1 Qm = n -> 1 <= n ->
  exists lvg,
    (forall p, exists value grads, (lvg p).1 = LossPair value grads) /\
    QUBO_QAOA (Some B) Qm ansatz nlayers iterations true ncircuits tr
    = match for_fold (seq 0 (Z.to_nat iterations)) (opt_step B lvg)
                     (implicit_randn B [ncircuits; 2 * nlayers]%Z (1 # 10),
                      optimizer B learning_rate)
                     (tr ++ [IsingConversion; ParamInit [2 * nlayers]%Z (1 # 2);
                             ParamInit [ncircuits; 2 * nlayers]%Z (1 # 10)])
      with
      | (tr', Ok final) => (tr', Ok final.1)
      | (tr', Raise e) => (tr', Raise e)
      end.
Proof.
  intros H0 H1 Hn. unfold QUBO_QAOA, try_K, get_K, lift.
  rewrite (QUBO_to_Ising_square Qm n) by done. unfold Ising_of.
  rewrite ST_bind_eq, ret_eq, ST_bind_eq, emit_eq, ST_bind_eq.
  rewrite ST_bind_eq, ret_eq, ST_bind_eq, emit_eq, ST_bind_eq.
  rewrite ST_bind_eq, emit_eq, ret_eq, ST_bind_eq.
  match goal with |- context [opt_step B ?f] => exists f end.
  split.
  { intros p. cbv beta.
    match goal with
    | |- context [vvag B ?f p] => destruct (vvag B f p) as [[value grads] g]
    end.
    by exists value, grads. }
  rewrite <- !app_assoc. cbn [app].
  match goal with
  | |- context [for_fold ?r ?body ?st ?t] => destruct (for_fold r body st t) as [tr' [final|e]]
  end; done.
Qed.

(** C6, with a backend selected, a matrix that has at least one row and
    the vvag flag off.  For a square matrix with at least one row,
    nlayers >= 1 and iterations >= 0, on a backend whose [implicit_randn]
    and optimiser keep shapes, QUBO_QAOA returns; the evaluations and
    updates it performs are exactly [iterations] repetitions of one
    loss-and-gradient evaluation followed by one optimiser update, whatever
    the losses are; the returned parameters have shape [2*nlayers]. *)
Theorem QUBO_QAOA_iterations (B : Backend) (Qm : ndarray2) (n : nat)
    (ansatz : Z -> list (list Q) -> list Q -> tensor -> tensor)
    (nlayers iterations : Z) (ncircuits : Z) (tr : trace) :
  shape0 Qm = n -> shape1 Qm = n -> 1 <= n ->
  (1 <= nlayers)%Z -> (0 <= iterations)%Z ->
  shape_preserving B ->
  exists tr' params k,
    QUBO_QAOA (Some B) Qm ansatz nlayers iterations false ncircuits tr
    = (tr ++ tr', Ok params) /\
    Z.of_nat k = iterations /\
    steps tr' = concat (replicate k [LossGradEval; OptUpdate]) /\
    tshape params = [2 * nlayers]%Z.
Proof.
  intros H0 H1 Hn _ Hit [Hrandn Hupd].
  destruct (QUBO_QAOA_scalar B Qm n ansatz nlayers iterations ncircuits tr
              H0 H1 Hn) as (lvg & Hloss & ->).
  match goal with
  | |- context [for_fold ?r _ (?p, ?o) ?t] =>
      destruct (opt_loop B lvg r p o t Hloss Hupd)
        as (tr' & final & -> & Hsteps & Hshape)
  end.
  eexists _, final.1, (Z.to_nat iterations).
  split; [by rewrite <- app_assoc|]. split; [lia|]. split.
  - by rewrite steps_app, Hsteps, length_seq.
  - by rewrite Hshape, Hrandn.
Qed.

Lemma QUBO_QAOA_iterations_witness :
  exists tr' params k,
    QUBO_QAOA (Some toy_backend) Q_example (fun _ _ _ p => p) 1 3 false 10 []
    = ([] ++ tr', Ok params) /\
    Z.of_nat k = 3%Z /\
    steps tr' = concat (replicate k [LossGradEval; OptUpdate]) /\
    tshape params = [2 * 1]%Z.
Proof.
  apply (QUBO_QAOA_iterations toy_backend Q_example 2 (fun _ _ _ p => p)
           1 3 10 []); try reflexivity; try lia.
  split; reflexivity.
Defined.

(** Two calls on which the claim fails.  On the empty matrix the conversion
    raises before the loop is reached: one iteration is asked for and no
    evaluation is performed.  With the vvag flag the loss of the loop is a
    pair: the first progress report raises, after one evaluation and one
    update, and nothing is returned. *)
Lemma QUBO_QAOA_empty_counterexample :
  shape0 Q_empty = shape1 Q_empty /\
  QUBO_QAOA (Some toy_backend) Q_empty (fun _ _ _ p => p) 1 1 false 10 []
  = ([IsingConversion], Raise IndexError) /\
  ~ (exists tr' params,
       QUBO_QAOA (Some toy_backend) Q_empty (fun _ _ _ p => p) 1 1 false 10 []
       = (tr', Ok params)) /\
  QUBO_QAOA (Some toy_backend) Q_example (fun _ _ _ p => p) 1 3 true 10 []
  = ([IsingConversion; ParamInit [2]%Z (1 # 2); ParamInit [10; 2]%Z (1 # 10);
      LossGradEval; OptUpdate],
     Raise (AttributeError "numpy")).
Proof.
  split; [reflexivity|]. split; [reflexivity|]. split; [|reflexivity].
  intros (tr' & params & Hrun). discriminate Hrun.
Qed.

(** C3: the behaviour when the name K is unbound.  Both functions print the
    message and go on: QUBO_QAOA runs the Ising conversion and then raises
    (the NameError of the first use of K when the conversion succeeds),
    print_result_prob raises the NameError of K before the probabilities
    are queried.  Neither call returns. *)
Theorem backend_unbound (Qm : ndarray2)
    (ansatz : Z -> list (list Q) -> list Q -> tensor -> tensor)
    (nlayers iterations : Z) (vvag_flag : bool) (ncircuits : Z)
    (E : Engine) (c : Circuit) (wrap reverse : bool) (tr : trace) :
  QUBO_QAOA None Qm ansatz nlayers iterations vvag_flag ncircuits tr
  = (tr ++ [Print (Text backend_msg)] ++ [IsingConversion],
     Raise (match QUBO_to_Ising Qm with
            | Ok _ => NameError "K"
            | Raise e => e
            end)) /\
  print_result_prob None E c wrap reverse tr
  = (tr ++ [Print (Text backend_msg)], Raise (NameError "K")).
Proof.
  split.
  - unfold QUBO_QAOA, try_K, get_K, lift, print.
    rewrite ST_bind_eq, emit_eq, ST_bind_eq, emit_eq, ST_bind_eq.
    rewrite <- app_assoc.
    destruct (QUBO_to_Ising Qm) as [[[pt w] off]|e]; done.
  - reflexivity.
Qed.

(** The failing call of C3: the worked matrix, no backend. *)
Example QUBO_QAOA_without_backend :
  QUBO_QAOA None Q_example (fun _ _ _ p => p) 1 1 false 10 []
  = ([Print (Text backend_msg); IsingConversion], Raise (NameError "K")).
Proof. reflexivity. Qed.

(** ** Sorting: permutation, order and stability *)

Lemma before_cons {A} (l : list A) a x y : before l x y -> before (a :: l) x y.
Proof. intros (l1 & l2 & l3 & ->). by exists (a :: l1), l2, l3. Qed.

Lemma before_head {A} (l : list A) x y : y ∈ l -> before (x :: l) x y.
Proof.
  intros Hy. apply list_elem_of_split in Hy as (l2 & l3 & ->).
  by exists [], l2, l3.
Qed.

Lemma before_inv {A} (l : list A) a x y :
  before (a :: l) x y -> (x = a /\ y ∈ l) \/ before l x y.
Proof.
  intros (l1 & l2 & l3 & Heq). destruct l1 as [|b l1]; simpl in Heq.
  - injection Heq as -> ->. left. split; [done|].
    apply elem_of_app. right. by left.
  - injection Heq as -> ->. right. by exists l1, l2, l3.
Qed.

Lemma before_rev {A} (l : list A) x y : before l x y -> before (rev l) y x.
Proof.
  intros (l1 & l2 & l3 & ->). exists (rev l3), (rev l2), (rev l1).
  rewrite rev_app_distr. simpl. rewrite rev_app_distr. simpl.
  by rewrite <- !app_assoc.
Qed.

Lemma before_map {A B} (f : A -> B) (l : list A) x y :
  before l x y -> before (map f l) (f x) (f y).
Proof.
  intros (l1 & l2 & l3 & ->). exists (map f l1), (map f l2), (map f l3).
  rewrite map_app. simpl. by rewrite map_app.
Qed.

Section sorting_facts.
Context {A : Type} (key : A -> Q).

Lemma insert_by_perm x l : Permutation (insert_by key x l) (x :: l).
Proof.
  induction l as [|y l IH]; simpl; [done|].
  destruct (Qle_bool (key x) (key y)); [done|].
  rewrite IH. apply perm_swap.
Qed.

Lemma sort_by_perm l : Permutation (sort_by key l) l.
Proof.
  induction l as [|x l IH]; simpl; [done|].
  by rewrite insert_by_perm, IH.
Qed.

Lemma insert_by_sorted x l :
  StronglySorted (fun a b => key a <= key b)%Q l ->
  StronglySorted (fun a b => key a <= key b)%Q (insert_by key x l).
Proof.
  induction 1 as [|y l Hs IH Hall]; simpl; [repeat constructor|].
  destruct (Qle_bool (key x) (key y)) eqn:Hle.
  - apply Qle_bool_iff in Hle. constructor; [by constructor|].
    constructor; [done|].
    eapply Forall_impl; [exact Hall|]. intros z Hz. simpl in Hz.
    by apply Qle_trans with (key y).
  - constructor; [done|].
    rewrite (insert_by_perm x l). constructor; [|done].
    apply Qlt_le_weak, Qnot_le_lt. intros Hxy.
    apply Qle_bool_iff in Hxy. congruence.
Qed.

Lemma sort_by_sorted l :
  StronglySorted (fun a b => key a <= key b)%Q (sort_by key l).
Proof.
  induction l as [|x l IH]; simpl; [constructor|]. by apply insert_by_sorted.
Qed.

Lemma insert_by_before_old a l x y :
  before l x y -> before (insert_by key a l) x y.
Proof.
  induction l as [|z l IH]; simpl; intros Hb.
  - destruct Hb as (l1 & l2 & l3 & Heq). by destruct l1.
  - destruct (Qle_bool (key a) (key z)); [by apply before_cons|].
    apply before_inv in Hb as [[-> Hy]|Hb].
    + apply before_head. rewrite (insert_by_perm a l). by right.
    + by apply before_cons, IH.
Qed.

Lemma insert_by_before_new a l y :
  y ∈ l -> (key a <= key y)%Q -> before (insert_by key a l) a y.
Proof.
  induction l as [|z l IH]; simpl; intros Hy Hle; [by apply elem_of_nil in Hy|].
  destruct (Qle_bool (key a) (key z)) eqn:Hz; [by apply before_head|].
  apply elem_of_cons in Hy as [->|Hy].
  - apply Qle_bool_iff in Hle. congruence.
  - by apply before_cons, IH.
Qed.

(** The sort is stable: an element stays before the later elements whose
    key is not smaller. *)
Lemma sort_by_stable l x y :
  before l x y -> (key x <= key y)%Q -> before (sort_by key l) x y.
Proof.
  induction l as [|a l IH]; intros Hb Hle; simpl.
  - destruct Hb as (l1 & l2 & l3 & Heq). by destruct l1.
  - apply before_inv in Hb as [[-> Hy]|Hb].
    + apply insert_by_before_new; [|done]. by rewrite (sort_by_perm l).
    + by apply insert_by_before_old, IH.
Qed.

(** Python's sorted keeps elements of equal key in their original order,
    for both values of [reverse]. *)
Lemma py_sorted_stable reverse l x y :
  before l x y -> (key x == key y)%Q -> before (py_sorted key reverse l) x y.
Proof.
  intros Hb Heq. unfold py_sorted. destruct reverse.
  - apply before_rev, sort_by_stable; [by apply before_rev|].
    rewrite Heq. apply Qle_refl.
  - apply sort_by_stable; [done|]. rewrite Heq. apply Qle_refl.
Qed.

Lemma py_sorted_perm reverse l : Permutation (py_sorted key reverse l) l.
Proof.
  unfold py_sorted. destruct reverse; [|apply sort_by_perm].
  by rewrite <- Permutation_rev, sort_by_perm, <- Permutation_rev.
Qed.

End sorting_facts.

(** ** Basis states *)

Lemma length_append_str s1 s2 :
  String.length (s1 ++ s2) = String.length s1 + String.length s2.
Proof. induction s1 as [|b s1 IH]; simpl; [done|]. by rewrite IH. Qed.

Lemma length_list_ascii s : length (list_ascii_of_string s) = String.length s.
Proof. induction s as [|b s IH]; simpl; [done|]. by rewrite IH. Qed.

Lemma length_zero_string k : String.length (zero_string k) = k.
Proof. induction k as [|k IH]; simpl; [done|]. by rewrite IH. Qed.

Lemma parse_bin_app acc s1 s2 :
  parse_bin acc (s1 ++ s2) = parse_bin (parse_bin acc s1) s2.
Proof. revert acc. induction s1 as [|b s1 IH]; intros acc; simpl; [done|]. apply IH. Qed.

Lemma parse_bin_pos p : parse_bin 0 (bin_pos p) = Pos.to_nat p.
Proof.
  induction p as [p IH|p IH|]; simpl; [| |done].
  - rewrite parse_bin_app, IH. simpl. rewrite Pos2Nat.inj_xI. lia.
  - rewrite parse_bin_app, IH. simpl. rewrite Pos2Nat.inj_xO. lia.
Qed.

Lemma parse_bin_bin i : parse_bin 0 (bin i) = i.
Proof.
  unfold bin. destruct (N.of_nat i) as [|p] eqn:Hi.
  - simpl. lia.
  - rewrite parse_bin_pos. lia.
Qed.

Lemma parse_bin_zeros k : parse_bin 0 (zero_string k) = 0.
Proof. induction k as [|k IH]; simpl; [done|]. apply IH. Qed.

(** A state string reads back as its index: the enumeration is injective. *)
Lemma parse_state_string n i : parse_bin 0 (state_string n i) = i.
Proof.
  unfold state_string, pad_zeros.
  by rewrite parse_bin_app, parse_bin_zeros, parse_bin_bin.
Qed.

Lemma length_bin_pos p n :
  Pos.to_nat p < 2 ^ n -> String.length (bin_pos p) <= n.
Proof.
  revert n. induction p as [p IH|p IH|]; intros n Hp; simpl.
  - destruct n as [|n]; simpl in Hp; [lia|].
    rewrite length_append_str. simpl. rewrite Pos2Nat.inj_xI in Hp.
    specialize (IH n ltac:(lia)). lia.
  - destruct n as [|n]; simpl in Hp.
    + pose proof (Pos2Nat.is_pos p~0). lia.
    + rewrite length_append_str. simpl. rewrite Pos2Nat.inj_xO in Hp.
      specialize (IH n ltac:(lia)). lia.
  - destruct n as [|n]; simpl in Hp; [lia|]. lia.
Qed.

Lemma length_state_string n i :
  1 <= n -> i < 2 ^ n -> String.length (state_string n i) = n.
Proof.
  intros Hn Hi. unfold state_string, pad_zeros.
  rewrite length_append_str, length_zero_string.
  assert (String.length (bin i) <= n); [|lia].
  unfold bin. destruct (N.of_nat i) as [|p] eqn:HN; [simpl; lia|].
  apply length_bin_pos. lia.
Qed.

Lemma enumerate_states_map n :
  enumerate_states n = map (state_string n) (seq 0 (2 ^ n)).
Proof. unfold enumerate_states. by rewrite fold_left_snoc. Qed.

Lemma enumerate_states_Q_eq n : enumerate_states_Q n = enumerate_states n.
Proof. reflexivity. Qed.

Lemma NoDup_map_inj {A B} (f : A -> B) (g : B -> A) (l : list A) :
  (forall a, g (f a) = a) -> NoDup l -> NoDup (map f l).
Proof.
  intros Hgf. induction 1 as [|a l Ha Hnd IH]; simpl; constructor; [|done].
  intros Hin. apply list_elem_of_In, in_map_iff in Hin as (b & Hb & Hbl).
  apply (f_equal g) in Hb. rewrite !Hgf in Hb. subst b.
  by apply Ha, list_elem_of_In.
Qed.

Lemma NoDup_enumerate_states n : NoDup (enumerate_states n).
Proof.
  rewrite enumerate_states_map.
  apply (NoDup_map_inj _ (parse_bin 0)); [apply parse_state_string|].
  apply NoDup_ListNoDup, seq_NoDup.
Qed.

(** ** The cost report *)

(** C9.  print_result_cost reads its circuit only through the number of
    qubits: two circuits with the same number of qubits give the same
    output, and when that number is the dimension len(Q) of the matrix the
    output (what is printed, and the exception if one is raised) is that of
    print_Q_cost on the same matrix and flags. *)
Theorem print_result_cost_as_print_Q_cost (c : Circuit) (Qm : ndarray2)
    (wrap reverse : bool) (tr : trace) :
  nqubits c = shape0 Qm ->
  print_result_cost c Qm wrap reverse tr = print_Q_cost Qm wrap reverse tr /\
  (forall c', nqubits c' = nqubits c ->
     print_result_cost c' Qm wrap reverse tr
     = print_result_cost c Qm wrap reverse tr).
Proof.
  intros Hn. split.
  - unfold print_result_cost, print_Q_cost.
    rewrite Hn. reflexivity.
  - intros c' Hc'. unfold print_result_cost. by rewrite Hc'.
Qed.

Lemma print_result_cost_as_print_Q_cost_witness :
  print_result_cost (with_ops (circuit_of 2) [rx 0 scalar_angle])
                    Q_example true false []
  = print_Q_cost Q_example true false [] /\
  (forall c', nqubits c' = nqubits (with_ops (circuit_of 2) [rx 0 scalar_angle]) ->
     print_result_cost c' Q_example true false []
     = print_result_cost (with_ops (circuit_of 2) [rx 0 scalar_angle])
                         Q_example true false []).
Proof.
  apply (print_result_cost_as_print_Q_cost
           (with_ops (circuit_of 2) [rx 0 scalar_angle]) Q_example true false []).
  reflexivity.
Defined.

Lemma dict_set_fresh d k v :
  k ∉ map fst d -> dict_set d k v = d ++ [(k, v)].
Proof.
  induction d as [|[k' v'] d IH]; simpl; intros Hk; [done|].
  apply not_elem_of_cons in Hk as [Hne Hk].
  destruct (String.eqb_spec k' k) as [->|_]; [done|]. by rewrite IH.
Qed.

Lemma dict_of_items_acc items acc :
  NoDup (map fst (acc ++ items)) ->
  fold_left (fun d kv => dict_set d kv.1 kv.2) items acc = acc ++ items.
Proof.
  revert acc. induction items as [|[k v] items IH]; intros acc Hnd; simpl.
  - by rewrite app_nil_r.
  - rewrite dict_set_fresh.
    + rewrite IH; rewrite <- app_assoc; done.
    + rewrite map_app in Hnd. simpl in Hnd.
      apply NoDup_app in Hnd as (_ & Hdisj & _).
      intros Hin. apply (Hdisj k Hin). by left.
Qed.

Lemma dict_of_items_NoDup items :
  NoDup (map fst items) -> dict_of_items items = items.
Proof. intros Hnd. unfold dict_of_items. by rewrite dict_of_items_acc. Qed.

Lemma fill_cost_dict_acc Qm states acc :
  NoDup (map fst acc ++ states) ->
  (forall s, s ∈ states -> exists v, quad_form Qm (bits_of s) = Ok v) ->
  rfold states
        (fun cost_dict selection =>
           let x := bits_of selection in
           v ← quad_form Qm x;
           mret (dict_set cost_dict selection v))
        acc
  = Ok (acc ++ map (fun s => (s, cost_of Qm s)) states).
Proof.
  revert acc. induction states as [|s states IH]; intros acc Hnd Hok; simpl.
  - by rewrite app_nil_r.
  - destruct (Hok s) as [v Hv]; [by left|].
    unfold cost_of. rewrite Hv, bind_Ok.
    rewrite dict_set_fresh.
    2:{ apply NoDup_app in Hnd as (_ & Hdisj & _).
        intros Hin. apply (Hdisj s Hin). by left. }
    unfold mret, result_ret. rewrite bind_Ok.
    rewrite IH.
    + by rewrite <- app_assoc.
    + rewrite map_app. simpl. by rewrite <- app_assoc.
    + intros s' Hs'. apply Hok. by right.
Qed.

(** The rows printed by the loop with its break: all the items, or the
    first eight in wrap mode. *)
Lemma print_cost_rows_nowrap items num tr :
  print_cost_rows items num false tr
  = (tr ++ map (fun kv => Print (CostRow kv.1 kv.2)) items, Ok tt).
Proof.
  revert num tr. induction items as [|kv items IH]; intros num tr.
  - cbn [print_cost_rows map]. by rewrite ret_eq, app_nil_r.
  - cbn [print_cost_rows map]. rewrite ST_bind_eq. unfold print.
    rewrite emit_eq, andb_false_r, IH. by rewrite <- app_assoc.
Qed.

Lemma print_cost_rows_wrap items num tr :
  num < 8 ->
  print_cost_rows items num true tr
  = (tr ++ map (fun kv => Print (CostRow kv.1 kv.2)) (take (8 - num) items),
     Ok tt).
Proof.
  revert num tr. induction items as [|kv items IH]; intros num tr Hnum.
  - cbn [print_cost_rows]. by rewrite ret_eq, take_nil, app_nil_r.
  - cbn [print_cost_rows]. rewrite ST_bind_eq. unfold print.
    rewrite emit_eq, andb_true_r.
    destruct (Nat.leb_spec 8 (num + 1)) as [Hbreak|Hgo].
    + rewrite ret_eq. replace (8 - num) with 1 by lia.
      cbn [take map]. by rewrite take_0.
    + rewrite IH by lia. replace (8 - num) with (S (8 - (num + 1))) by lia.
      cbn [take map]. by rewrite <- app_assoc.
Qed.

Lemma print_cost_rows_eq items wrap tr :
  print_cost_rows items 0 wrap tr
  = (tr ++ map (fun kv => Print (CostRow kv.1 kv.2))
               (if wrap then take 8 items else items),
     Ok tt).
Proof.
  destruct wrap.
  - by rewrite print_cost_rows_wrap by lia.
  - apply print_cost_rows_nowrap.
Qed.

Lemma quad_form_state Qm n i :
  shape0 Qm = n -> shape1 Qm = n -> 1 <= n -> i < 2 ^ n ->
  exists v, quad_form Qm (bits_of (state_string n i)) = Ok v.
Proof.
  intros H0 H1 Hn Hi.
  destruct (quad_form_square Qm n (bits_of (state_string n i)) H0 H1)
    as (v & Hv & _); [|by exists v].
  unfold bits_of. by rewrite length_map, length_list_ascii, length_state_string.
Qed.

Lemma fst_cost_items Qm n : map fst (cost_items Qm n) = enumerate_states n.
Proof.
  unfold cost_items. rewrite map_map. simpl. apply map_id.
Qed.

Lemma print_result_cost_eq c Qm n wrap reverse tr :
  nqubits c = n -> shape0 Qm = n -> shape1 Qm = n -> 1 <= n ->
  print_result_cost c Qm wrap reverse tr
  = (tr ++ [Print (Text (newline ++ rule)); Print (Text cost_header);
            Print (Text rule)]
        ++ map (fun kv => Print (CostRow kv.1 kv.2))
               (if wrap then take 8 (py_sorted snd reverse (cost_items Qm n))
                else py_sorted snd reverse (cost_items Qm n))
        ++ [Print (Text rule)],
     Ok tt).
Proof.
  intros Hc H0 H1 Hn.
  assert (Hfill : fill_cost_dict Qm (enumerate_states n) = Ok (cost_items Qm n)).
  { unfold fill_cost_dict.
    apply (fill_cost_dict_acc Qm (enumerate_states n) []).
    - simpl. apply NoDup_enumerate_states.
    - intros s Hs. rewrite enumerate_states_map in Hs.
      apply list_elem_of_In, in_map_iff in Hs as (i & <- & Hi).
      apply in_seq in Hi. apply (quad_form_state Qm n); (done || lia). }
  unfold print_result_cost. cbv zeta. rewrite Hc, Hfill.
  unfold lift. rewrite ST_bind_eq.
  assert (Hdict : (if reverse
                   then dict_of_items (py_sorted snd true (cost_items Qm n))
                   else dict_of_items (py_sorted snd false (cost_items Qm n)))
                  = py_sorted snd reverse (cost_items Qm n)).
  { destruct reverse; apply dict_of_items_NoDup;
      rewrite (py_sorted_perm snd _ (cost_items Qm n)), fst_cost_items;
      apply NoDup_enumerate_states. }
  rewrite Hdict.
  unfold print. do 3 rewrite ST_bind_eq, emit_eq.
  rewrite ST_bind_eq, print_cost_rows_eq, emit_eq.
  by rewrite <- !app_assoc.
Qed.

(** ** The probability report *)

Lemma pyindex_nonneg {A} (l : list A) k : pyindex l (Z.of_nat k) = getitem l k.
Proof.
  unfold pyindex. destruct (Z.leb_spec 0 (Z.of_nat k)); [|lia].
  by rewrite Nat2Z.id.
Qed.

Lemma range_from_zero L : range 0 (Z.of_nat L) = map Z.of_nat (seq 0 L).
Proof.
  unfold range. rewrite Z.sub_0_r, Nat2Z.id. by apply map_ext.
Qed.

Lemma take_indices_ok {A} (d : A) (l : list A) (indices : list nat) :
  Forall (fun i => i < length l) indices ->
  take_indices l indices = Ok (map (fun i => nth i l d) indices).
Proof.
  unfold take_indices. induction 1 as [|i indices Hi Hall IH]; [done|].
  cbn [mapM map]. rewrite IH. unfold getitem.
  destruct (l !! i) as [a|] eqn:Hlook.
  - by rewrite (nth_lookup_Some _ _ d _ Hlook).
  - apply lookup_ge_None in Hlook. lia.
Qed.

Lemma prob_rows_loop ss ps pre_s pre_p tr :
  length pre_s = length pre_p -> length ss = length ps ->
  for_each (map Z.of_nat (seq (length pre_s) (length ss)))
           (print_prob_row (pre_s ++ ss) (pre_p ++ ps)) tr
  = (tr ++ map Print (zip_with ProbRow ss ps), Ok tt).
Proof.
  unfold for_each.
  revert ps pre_s pre_p tr. induction ss as [|s ss IH];
    intros ps pre_s pre_p tr Hpre Hlen; destruct ps as [|p ps]; try done.
  - simpl. by rewrite ret_eq, app_nil_r.
  - cbn [length seq map]. rewrite for_fold_cons, ST_bind_eq.
    unfold print_prob_row at 1. rewrite !pyindex_nonneg.
    rewrite getitem_middle. rewrite Hpre, getitem_middle.
    unfold lift. rewrite !ST_bind_eq. unfold print. rewrite emit_eq.
    specialize (IH ps (pre_s ++ [s]) (pre_p ++ [p]) (tr ++ [Print (ProbRow s p)])).
    rewrite !length_app, <- !app_assoc in IH. simpl in IH.
    rewrite Hpre in IH.
    replace (length pre_p + 1) with (S (length pre_p)) in IH by lia.
    rewrite IH; [|lia|simpl in Hlen; lia].
    reflexivity.
Qed.

Lemma zip_seq_map (v : list Q) :
  zip (seq 0 (length v)) v = map (fun i => (i, nth i v 0%Q)) (seq 0 (length v)).
Proof.
  assert (H : forall a, zip (seq a (length v)) v
                        = map (fun i => (i, nth (i - a) v 0%Q)) (seq a (length v))).
  { induction v as [|x v IH]; intros a; simpl; [done|].
    rewrite Nat.sub_diag. f_equal. rewrite IH.
    apply map_ext_in. intros i Hi. apply in_seq in Hi.
    by replace (i - a) with (S (i - S a)) by lia. }
  rewrite H. apply map_ext. intros i. by rewrite Nat.sub_0_r.
Qed.

Lemma before_seq a n i j : a <= i -> i < j -> j < a + n -> before (seq a n) i j.
Proof.
  intros Ha Hij Hj.
  exists (seq a (i - a)), (seq (S i) (j - S i)), (seq (S j) (a + n - S j)).
  replace n with ((i - a) + (S (j - S i) + S (a + n - S j))) at 1 by lia.
  rewrite seq_app. f_equal.
  replace (a + (i - a)) with i by lia.
  cbn [Nat.add seq]. f_equal.
  rewrite seq_app. f_equal.
  replace (S i + (j - S i)) with j by lia.
  reflexivity.
Qed.

Lemma argsort_perm v : Permutation (argsort v) (seq 0 (length v)).
Proof.
  unfold argsort. rewrite (sort_by_perm snd).
  change (map fst (zip (seq 0 (length v)) v)) with ((zip (seq 0 (length v)) v).*1).
  rewrite fst_zip; [done|]. by rewrite length_seq.
Qed.

(** Equal values keep the order of their indices. *)
Lemma argsort_stable v i j :
  i < j -> j < length v -> (nth i v 0 == nth j v 0)%Q ->
  before (argsort v) i j.
Proof.
  intros Hij Hj Heq. unfold argsort.
  apply (before_map fst _ (i, nth i v 0%Q) (j, nth j v 0%Q)).
  apply sort_by_stable.
  - rewrite zip_seq_map.
    apply (before_map (fun i => (i, nth i v 0%Q))).
    apply before_seq; lia.
  - simpl. rewrite Heq. apply Qle_refl.
Qed.

Lemma prob_order_lt sorter probs reverse :
  index_sorter sorter ->
  Forall (fun i => i < length probs) (prob_order sorter probs reverse).
Proof.
  intros Hperm. apply Forall_forall. intros i Hi.
  assert (Hin : i ∈ seq 0 (length probs)).
  { unfold prob_order in Hi. destruct reverse.
    - by rewrite <- (Hperm probs).
    - rewrite <- (Hperm probs).
      apply list_elem_of_In. apply list_elem_of_In in Hi. by apply in_rev. }
  apply list_elem_of_In, in_seq in Hin. lia.
Qed.

Lemma length_prob_order sorter probs reverse :
  index_sorter sorter ->
  length (prob_order sorter probs reverse) = length probs.
Proof.
  intros Hperm. unfold prob_order. destruct reverse; rewrite ?length_rev;
    by rewrite (Permutation_length (Hperm probs)), length_seq.
Qed.

Lemma print_result_prob_with_eq sorter B E c reverse tr :
  index_sorter sorter ->
  length (rounded_probs B E c) = length (enumerate_states (nqubits c)) ->
  print_result_prob_with sorter (Some B) E c false reverse tr
  = (tr ++ [ProbabilityQuery; Print (Text (newline ++ rule));
            Print (Text prob_header); Print (Text rule)]
        ++ map (fun i => Print (ProbRow (nth i (enumerate_states (nqubits c)) ""%string)
                                        (nth i (rounded_probs B E c) 0%Q)))
               (prob_order sorter (rounded_probs B E c) reverse)
        ++ [Print (Text rule)],
     Ok tt).
Proof.
  intros Hperm Hlen. unfold print_result_prob_with, try_K, get_K. cbv zeta.
  rewrite ST_bind_eq, ret_eq, ST_bind_eq, ret_eq, ST_bind_eq, emit_eq.
  change (map round4 (tdata (numpy B (probability E c))))
    with (rounded_probs B E c).
  assert (Horder : (if reverse then rev (rev (sorter (rounded_probs B E c)))
                    else rev (sorter (rounded_probs B E c)))
                   = prob_order sorter (rounded_probs B E c) reverse).
  { unfold prob_order. destruct reverse; [apply rev_involutive|done]. }
  rewrite Horder.
  rewrite (take_indices_ok ""%string)
    by (rewrite <- Hlen; by apply prob_order_lt).
  rewrite (take_indices_ok 0%Q) by (by apply prob_order_lt).
  unfold lift. rewrite !ST_bind_eq.
  unfold print. do 3 rewrite emit_eq, ST_bind_eq.
  rewrite range_from_zero.
  match goal with
  | |- context [for_each _ (print_prob_row ?ss ?ps) ?t] =>
      pose proof (prob_rows_loop ss ps [] [] t eq_refl) as Hloop
  end.
  rewrite !length_map, length_prob_order, Hlen in Hloop by done.
  cbn [length app] in Hloop. rewrite Hloop by done.
  rewrite emit_eq, zip_with_map_map, map_map.
  by rewrite <- !app_assoc.
Qed.

(** ** The order of the rows *)

Lemma rows_app tr1 tr2 : rows (tr1 ++ tr2) = rows tr1 ++ rows tr2.
Proof. apply omap_app. Qed.

Lemma rows_cost l :
  rows (map (fun kv => Print (CostRow kv.1 kv.2)) l) = l.
Proof.
  induction l as [|[k v] l IH]; [done|].
  cbn [map]. change (rows (?e :: ?t)) with (omap row_of (e :: t)).
  cbn [omap list_omap row_of fst snd]. f_equal. exact IH.
Qed.

Lemma rows_prob {X} (f : X -> string) (g : X -> Q) l :
  rows (map (fun i => Print (ProbRow (f i) (g i))) l)
  = map (fun i => (f i, g i)) l.
Proof.
  induction l as [|i l IH]; [done|].
  cbn [map]. change (rows (?e :: ?t)) with (omap row_of (e :: t)).
  cbn [omap list_omap row_of]. f_equal. exact IH.
Qed.

(** In a list without repetition, an element that precedes a member of a
    prefix precedes it in the prefix. *)
Lemma before_take {A} (l : list A) m x y :
  NoDup l -> before l x y -> y ∈ take m l -> before (take m l) x y.
Proof.
  intros Hnd (l1 & l2 & l3 & ->) Hy.
  destruct (decide (length (l1 ++ x :: l2) < m)) as [Hlt|Hge].
  - exists l1, l2, (take (m - S (length (l1 ++ x :: l2))) l3).
    replace (l1 ++ x :: l2 ++ y :: l3) with ((l1 ++ x :: l2) ++ y :: l3)
      by (by rewrite <- app_assoc).
    rewrite take_app_ge by lia.
    replace (m - length (l1 ++ x :: l2))
      with (S (m - S (length (l1 ++ x :: l2)))) by lia.
    cbn [take]. by rewrite <- app_assoc.
  - exfalso.
    replace (l1 ++ x :: l2 ++ y :: l3) with ((l1 ++ x :: l2) ++ y :: l3) in *
      by (by rewrite <- app_assoc).
    rewrite take_app_le in Hy by lia.
    apply NoDup_app in Hnd as (_ & Hdisj & _).
    apply (Hdisj y).
    + by apply (subseteq_take m (l1 ++ x :: l2)).
    + by left.
Qed.

Lemma length_enumerate_states n : length (enumerate_states n) = 2 ^ n.
Proof. by rewrite enumerate_states_map, length_map, length_seq. Qed.

Lemma nth_enumerate_states n i :
  i < 2 ^ n -> nth i (enumerate_states n) ""%string = state_string n i.
Proof.
  intros Hi. rewrite enumerate_states_map.
  rewrite (nth_indep _ ""%string (state_string n 0))
    by (by rewrite length_map, length_seq).
  rewrite map_nth, seq_nth by done. done.
Qed.

Lemma cost_items_map Qm n :
  cost_items Qm n = map (cost_item Qm n) (seq 0 (2 ^ n)).
Proof. unfold cost_items. by rewrite enumerate_states_map, map_map. Qed.

Lemma rows_print_result_cost c Qm n wrap reverse :
  nqubits c = n -> shape0 Qm = n -> shape1 Qm = n -> 1 <= n ->
  rows (print_result_cost c Qm wrap reverse []).1
  = if wrap then take 8 (py_sorted snd reverse (cost_items Qm n))
    else py_sorted snd reverse (cost_items Qm n).
Proof.
  intros Hc H0 H1 Hn.
  rewrite (print_result_cost_eq c Qm n) by done. cbn [fst].
  rewrite !rows_app, rows_cost. by rewrite app_nil_r.
Qed.

Lemma rows_print_result_prob_with sorter B E c reverse :
  index_sorter sorter ->
  length (rounded_probs B E c) = 2 ^ nqubits c ->
  rows (print_result_prob_with sorter (Some B) E c false reverse []).1
  = map (fun i => (nth i (enumerate_states (nqubits c)) ""%string,
                   nth i (rounded_probs B E c) 0%Q))
        (prob_order sorter (rounded_probs B E c) reverse).
Proof.
  intros Hperm Hlen.
  rewrite print_result_prob_with_eq
    by (done || by rewrite length_enumerate_states).
  cbn [fst]. rewrite !rows_app, rows_prob. by rewrite app_nil_r.
Qed.

Lemma rows_print_result_prob B E c reverse :
  length (rounded_probs B E c) = 2 ^ nqubits c ->
  rows (print_result_prob (Some B) E c false reverse []).1
  = map (fun i => (nth i (enumerate_states (nqubits c)) ""%string,
                   nth i (rounded_probs B E c) 0%Q))
        (prob_order argsort (rounded_probs B E c) reverse).
Proof. apply rows_print_result_prob_with. exact argsort_perm. Qed.

(** Whatever the argsort does with equal values, the rows printed with
    reverse=False are those printed with reverse=True in the opposite
    order. *)
Lemma prob_rows_reversal sorter B E c :
  index_sorter sorter ->
  length (rounded_probs B E c) = 2 ^ nqubits c ->
  rows (print_result_prob_with sorter (Some B) E c false false []).1
  = rev (rows (print_result_prob_with sorter (Some B) E c false true []).1).
Proof.
  intros Hperm Hlen. rewrite !rows_print_result_prob_with by done.
  unfold prob_order. by rewrite map_rev.
Qed.

Lemma NoDup_py_sorted_cost_items Qm n reverse :
  NoDup (py_sorted snd reverse (cost_items Qm n)).
Proof.
  rewrite (py_sorted_perm snd reverse (cost_items Qm n)).
  apply (NoDup_fmap_1 fst). 
  change (fst <$> cost_items Qm n) with (map fst (cost_items Qm n)).
  rewrite fst_cost_items. apply NoDup_enumerate_states.
Qed.

Lemma before_lookup {A} (l : list A) x y :
  before l x y -> exists i j, i < j /\ l !! i = Some x /\ l !! j = Some y.
Proof.
  intros (l1 & l2 & l3 & ->).
  exists (length l1), (length (l1 ++ x :: l2)).
  split; [rewrite length_app; simpl; lia|]. split.
  - apply list_lookup_middle. done.
  - replace (l1 ++ x :: l2 ++ y :: l3) with ((l1 ++ x :: l2) ++ y :: l3)
      by (by rewrite <- app_assoc).
    by apply list_lookup_middle.
Qed.

Lemma before_asym {A} (l : list A) x y :
  NoDup l -> before l x y -> before l y x -> False.
Proof.
  intros Hnd Hxy Hyx.
  apply before_lookup in Hxy as (i & j & Hij & Hi & Hj).
  apply before_lookup in Hyx as (j' & i' & Hji & Hj' & Hi').
  pose proof (NoDup_lookup l i i' x Hnd Hi Hi').
  pose proof (NoDup_lookup l j j' y Hnd Hj Hj'). lia.
Qed.

(** For every argsort, two states cannot be printed in the order of the
    enumeration for both values of the flag. *)
Lemma prob_ties_one_flag sorter B E c i j :
  index_sorter sorter ->
  length (rounded_probs B E c) = 2 ^ nqubits c ->
  i < j -> j < 2 ^ nqubits c ->
  ~ (before (rows (print_result_prob_with sorter (Some B) E c false true []).1)
            (prob_item (rounded_probs B E c) (nqubits c) i)
            (prob_item (rounded_probs B E c) (nqubits c) j)
     /\ before (rows (print_result_prob_with sorter (Some B) E c false false []).1)
               (prob_item (rounded_probs B E c) (nqubits c) i)
               (prob_item (rounded_probs B E c) (nqubits c) j)).
Proof.
  intros Hperm Hlen Hij Hj [Htrue Hfalse].
  rewrite (prob_rows_reversal sorter) in Hfalse by done.
  apply before_rev in Hfalse. rewrite rev_involutive in Hfalse.
  eapply before_asym; [|exact Htrue|exact Hfalse].
  rewrite rows_print_result_prob_with by done. unfold prob_order.
  apply NoDup_fmap_2_strong.
  - intros a b Ha Hb Hab.
    assert (Hlt : forall k, k ∈ sorter (rounded_probs B E c) -> k < 2 ^ nqubits c).
    { intros k Hk. rewrite (Hperm _) in Hk.
      apply list_elem_of_In, in_seq in Hk. lia. }
    injection Hab as Hst _.
    rewrite !nth_enumerate_states in Hst by (by apply Hlt).
    apply (f_equal (parse_bin 0)) in Hst.
    by rewrite !parse_state_string in Hst.
  - rewrite (Hperm _). apply NoDup_ListNoDup, seq_NoDup.
Qed.

(** C5, with the order of ties that each report has.  In the cost report,
    for both values of reverse and in both modes, two states of equal cost
    are printed in the order of the enumeration (as soon as the later one
    is printed), and without wrap every state is printed.  In the probability
    report the descending order is the reversal of the ascending argsort:
    for every argsort that keeps equal values in index order, two states of
    equal rounded probability are printed in the order of the enumeration
    when reverse=True and in the opposite order when reverse=False.  For
    every argsort, whatever it does with equal values, the rows for
    reverse=False are those for reverse=True in the opposite order. *)
Theorem report_tie_order :
  (forall (c : Circuit) (Qm : ndarray2) (n : nat) (wrap reverse : bool) (i j : nat),
     nqubits c = n -> shape0 Qm = n -> shape1 Qm = n -> 1 <= n ->
     i < j -> j < 2 ^ n ->
     (cost_of Qm (state_string n i) == cost_of Qm (state_string n j))%Q ->
     cost_item Qm n j ∈ rows (print_result_cost c Qm wrap reverse []).1 ->
     before (rows (print_result_cost c Qm wrap reverse []).1)
            (cost_item Qm n i) (cost_item Qm n j)) /\
  (forall (c : Circuit) (Qm : ndarray2) (n : nat) (reverse : bool),
     nqubits c = n -> shape0 Qm = n -> shape1 Qm = n -> 1 <= n ->
     Permutation (rows (print_result_cost c Qm false reverse []).1)
                 (map (cost_item Qm n) (seq 0 (2 ^ n)))) /\
  (forall (sorter : list Q -> list nat) (B : Backend) (E : Engine)
          (c : Circuit) (reverse : bool) (i j : nat),
     index_sorter sorter -> stable_sorter sorter ->
     length (rounded_probs B E c) = 2 ^ nqubits c ->
     i < j -> j < 2 ^ nqubits c ->
     (nth i (rounded_probs B E c) 0 == nth j (rounded_probs B E c) 0)%Q ->
     if reverse
     then before (rows (print_result_prob_with sorter (Some B) E c
                                               false reverse []).1)
                 (prob_item (rounded_probs B E c) (nqubits c) i)
                 (prob_item (rounded_probs B E c) (nqubits c) j)
     else before (rows (print_result_prob_with sorter (Some B) E c
                                               false reverse []).1)
                 (prob_item (rounded_probs B E c) (nqubits c) j)
                 (prob_item (rounded_probs B E c) (nqubits c) i)) /\
  (forall (sorter : list Q -> list nat) (B : Backend) (E : Engine) (c : Circuit),
     index_sorter sorter ->
     length (rounded_probs B E c) = 2 ^ nqubits c ->
     rows (print_result_prob_with sorter (Some B) E c false false []).1
     = rev (rows (print_result_prob_with sorter (Some B) E c false true []).1)).
Proof.
  split; [|split; [|split]]; [| | |apply prob_rows_reversal].
  - intros c Qm n wrap reverse i j Hc H0 H1 Hn Hij Hj Heq Hin.
    rewrite (rows_print_result_cost c Qm n) in Hin |- * by done.
    assert (Hsorted : before (py_sorted snd reverse (cost_items Qm n))
                             (cost_item Qm n i) (cost_item Qm n j)).
    { apply py_sorted_stable; [|done].
      rewrite cost_items_map. apply before_map, before_seq; lia. }
    destruct wrap; [|done].
    apply before_take; [apply NoDup_py_sorted_cost_items|done|done].
  - intros c Qm n reverse Hc H0 H1 Hn.
    rewrite (rows_print_result_cost c Qm n) by done.
    by rewrite (py_sorted_perm snd), cost_items_map.
  - intros sorter B E c reverse i j Hperm Hstable Hlen Hij Hj Heq.
    rewrite rows_print_result_prob_with by done.
    assert (Hasc : before (sorter (rounded_probs B E c)) i j).
    { apply Hstable; [done| |done]. by rewrite Hlen. }
    unfold prob_item.
    rewrite <- (nth_enumerate_states (nqubits c) i) by lia.
    rewrite <- (nth_enumerate_states (nqubits c) j) by lia.
    unfold prob_order. destruct reverse.
    + by apply (before_map
                  (fun i => (nth i (enumerate_states (nqubits c)) ""%string,
                             nth i (rounded_probs B E c) 0%Q))).
    + apply (before_map
               (fun i => (nth i (enumerate_states (nqubits c)) ""%string,
                          nth i (rounded_probs B E c) 0%Q))).
      by apply before_rev.
Qed.

Lemma report_tie_order_witness :
  before (rows (print_result_cost (circuit_of 2) Q_zero true true []).1)
         (cost_item Q_zero 2 0) (cost_item Q_zero 2 1) /\
  before (rows (print_result_prob_with argsort (Some toy_backend)
                  (toy_engine coin) (circuit_of 1) false false []).1)
         (prob_item (rounded_probs toy_backend (toy_engine coin) (circuit_of 1)) 1 1)
         (prob_item (rounded_probs toy_backend (toy_engine coin) (circuit_of 1)) 1 0).
Proof.
  destruct report_tie_order as (Hcost & _ & Hprob & _). split.
  - apply (Hcost (circuit_of 2) Q_zero 2 true true 0 1);
      try reflexivity; try (simpl; lia).
    vm_compute. apply elem_of_cons. right. apply elem_of_cons. by left.
  - apply (Hprob argsort toy_backend (toy_engine coin) (circuit_of 1) false 0 1);
      [exact argsort_perm|exact argsort_stable|reflexivity|lia|simpl; lia
      |reflexivity].
Defined.

(** Two states of probability one half: whatever the argsort does with
    the two equal values, the states 0 and 1 are not printed in the order
    of the enumeration for both values of reverse. *)
Lemma print_result_prob_tie_counterexample :
  (nth 0 (rounded_probs toy_backend (toy_engine coin) (circuit_of 1)) 0
   == nth 1 (rounded_probs toy_backend (toy_engine coin) (circuit_of 1)) 0)%Q /\
  (forall sorter : list Q -> list nat,
     index_sorter sorter ->
     ~ (before (rows (print_result_prob_with sorter (Some toy_backend)
                        (toy_engine coin) (circuit_of 1) false true []).1)
               (prob_item (rounded_probs toy_backend (toy_engine coin)
                                         (circuit_of 1)) 1 0)
               (prob_item (rounded_probs toy_backend (toy_engine coin)
                                         (circuit_of 1)) 1 1)
        /\ before (rows (print_result_prob_with sorter (Some toy_backend)
                           (toy_engine coin) (circuit_of 1) false false []).1)
                  (prob_item (rounded_probs toy_backend (toy_engine coin)
                                            (circuit_of 1)) 1 0)
                  (prob_item (rounded_probs toy_backend (toy_engine coin)
                                            (circuit_of 1)) 1 1))).
Proof.
  split; [reflexivity|].
  intros sorter Hperm.
  apply (prob_ties_one_flag sorter toy_backend (toy_engine coin) (circuit_of 1)
           0 1); [done|reflexivity|lia|simpl; lia].
Qed.

(** ** Wrap mode *)

(** The cost report in wrap mode prints at most eight rows. *)
Lemma print_result_cost_wrap_rows c Qm n reverse :
  nqubits c = n -> shape0 Qm = n -> shape1 Qm = n -> 1 <= n ->
  length (rows (print_result_cost c Qm true reverse []).1) <= 8.
Proof.
  intros Hc H0 H1 Hn. rewrite (rows_print_result_cost c Qm n) by done.
  rewrite length_take. lia.
Qed.

Lemma pyindex_ok {A} (l : list A) z :
  (- Z.of_nat (length l) <= z < Z.of_nat (length l))%Z ->
  exists a, pyindex l z = Ok a.
Proof.
  intros Hz. unfold pyindex, getitem.
  destruct (Z.leb_spec 0 z).
  - destruct (lookup_lt_is_Some_2 l (Z.to_nat z)) as [a Ha]; [lia|].
    rewrite Ha. eauto.
  - destruct (Z.leb_spec (- Z.of_nat (length l)) z); [|lia].
    destruct (lookup_lt_is_Some_2 l (Z.to_nat (Z.of_nat (length l) + z)))
      as [a Ha]; [lia|].
    rewrite Ha. eauto.
Qed.

Lemma prob_rows_count zs ss ps tr :
  length ss = length ps ->
  Forall (fun z => (- Z.of_nat (length ss) <= z < Z.of_nat (length ss))%Z) zs ->
  exists out,
    for_each zs (print_prob_row ss ps) tr = (tr ++ out, Ok tt) /\
    length (rows out) = length zs.
Proof.
  intros Hlen Hall. unfold for_each. revert tr.
  induction Hall as [|z zs Hz Hall IH]; intros tr.
  - exists []. simpl. by rewrite ret_eq, app_nil_r.
  - rewrite for_fold_cons, ST_bind_eq. unfold print_prob_row at 1.
    destruct (pyindex_ok ss z Hz) as [s Hs].
    destruct (pyindex_ok ps z) as [p Hp]; [by rewrite <- Hlen|].
    rewrite Hs, Hp. unfold lift. rewrite !ST_bind_eq. unfold print.
    rewrite emit_eq.
    destruct (IH (tr ++ [Print (ProbRow s p)])) as (out & -> & Hout).
    exists (Print (ProbRow s p) :: out). split.
    + by rewrite <- app_assoc.
    + change (rows (?e :: ?t)) with (omap row_of (e :: t)).
      cbn [omap list_omap row_of length]. f_equal. exact Hout.
Qed.

(** In wrap mode the probability report prints seven rows, for every
    circuit with at least two qubits and every argsort. *)
Lemma print_result_prob_wrap_rows sorter B E c reverse tr :
  index_sorter sorter ->
  length (rounded_probs B E c) = 2 ^ nqubits c ->
  2 <= nqubits c ->
  exists out,
    print_result_prob_with sorter (Some B) E c true reverse tr
    = (tr ++ out, Ok tt) /\
    length (rows out) = 7.
Proof.
  intros Hperm Hlen Hn.
  assert (H4 : 4 <= 2 ^ nqubits c).
  { change 4 with (2 ^ 2). apply Nat.pow_le_mono_r; lia. }
  unfold print_result_prob_with, try_K, get_K. cbv zeta.
  rewrite ST_bind_eq, ret_eq, ST_bind_eq, ret_eq, ST_bind_eq, emit_eq.
  change (map round4 (tdata (numpy B (probability E c))))
    with (rounded_probs B E c).
  assert (Horder : (if reverse then rev (rev (sorter (rounded_probs B E c)))
                    else rev (sorter (rounded_probs B E c)))
                   = prob_order sorter (rounded_probs B E c) reverse).
  { unfold prob_order. destruct reverse; [apply rev_involutive|done]. }
  rewrite Horder.
  rewrite (take_indices_ok ""%string)
    by (rewrite length_enumerate_states, <- Hlen; by apply prob_order_lt).
  rewrite (take_indices_ok 0%Q) by (by apply prob_order_lt).
  unfold lift. rewrite !ST_bind_eq.
  unfold print. do 3 rewrite emit_eq, ST_bind_eq.
  rewrite ST_bind_eq.
  match goal with
  | |- context [for_each (range 0 4) (print_prob_row ?ss ?ps) ?t] =>
      destruct (prob_rows_count (range 0 4) ss ps t) as (top & -> & Htop)
  end.
  { by rewrite !length_map. }
  { rewrite length_map, length_prob_order, Hlen by done.
    repeat constructor; lia. }
  rewrite ST_bind_eq, emit_eq.
  match goal with
  | |- context [for_each (range (-4) (-1)) (print_prob_row ?ss ?ps) ?t] =>
      destruct (prob_rows_count (range (-4) (-1)) ss ps t) as (bottom & -> & Hbot)
  end.
  { by rewrite !length_map. }
  { rewrite length_map, length_prob_order, Hlen by done.
    repeat constructor; lia. }
  rewrite emit_eq.
  eexists. split; [by rewrite <- !app_assoc|].
  rewrite !rows_app, !length_app, Htop, Hbot. reflexivity.
Qed.

Lemma pyindex_nth {A} (d : A) (l : list A) (z : Z) :
  (- Z.of_nat (length l) <= z < Z.of_nat (length l))%Z ->
  pyindex l z = Ok (nth (pypos (length l) z) l d).
Proof.
  intros Hz. unfold pyindex, pypos, getitem.
  destruct (Z.leb_spec 0 z).
  - destruct (lookup_lt_is_Some_2 l (Z.to_nat z)) as [a Ha]; [lia|].
    by rewrite Ha, (nth_lookup_Some _ _ d _ Ha).
  - destruct (Z.leb_spec (- Z.of_nat (length l)) z); [|lia].
    destruct (lookup_lt_is_Some_2 l (Z.to_nat (Z.of_nat (length l) + z)))
      as [a Ha]; [lia|].
    by rewrite Ha, (nth_lookup_Some _ _ d _ Ha).
Qed.

Lemma prob_rows_at zs ss ps tr :
  length ss = length ps ->
  Forall (fun z => (- Z.of_nat (length ss) <= z < Z.of_nat (length ss))%Z) zs ->
  for_each zs (print_prob_row ss ps) tr
  = (tr ++ map (fun z => Print (ProbRow (nth (pypos (length ss) z) ss ""%string)
                                        (nth (pypos (length ss) z) ps 0%Q)))
               zs,
     Ok tt).
Proof.
  intros Hlen Hall. unfold for_each. revert tr.
  induction Hall as [|z zs Hz Hall IH]; intros tr.
  - simpl. by rewrite ret_eq, app_nil_r.
  - rewrite for_fold_cons, ST_bind_eq. unfold print_prob_row at 1.
    rewrite (pyindex_nth ""%string ss z Hz).
    rewrite (pyindex_nth 0%Q ps z) by (by rewrite <- Hlen).
    unfold lift. rewrite !ST_bind_eq. unfold print.
    rewrite emit_eq, IH. cbn [map]. by rewrite <- app_assoc, Hlen.
Qed.

Lemma take_drop_nth {A} (d : A) (l : list A) (k m : nat) :
  k + m <= length l ->
  take m (drop k l) = map (fun i => nth i l d) (seq k m).
Proof.
  revert k. induction m as [|m IH]; intros k Hk; [by rewrite take_0|].
  destruct (lookup_lt_is_Some_2 l k) as [a Ha]; [lia|].
  rewrite (drop_S l a k Ha). cbn [take seq map].
  rewrite (nth_lookup_Some _ _ d _ Ha). f_equal. apply IH. lia.
Qed.

Lemma take_nth {A} (d : A) (l : list A) (m : nat) :
  m <= length l -> take m l = map (fun i => nth i l d) (seq 0 m).
Proof. intros Hm. by apply (take_drop_nth d l 0 m). Qed.

Lemma nth_map_in {A B} (f : A -> B) (l : list A) (d : A) (d' : B) (k : nat) :
  k < length l -> nth k (map f l) d' = f (nth k l d).
Proof.
  intros Hk. rewrite (nth_indep _ d' (f d)) by (by rewrite length_map).
  apply map_nth.
Qed.

(** The rows of the probability report in wrap mode, for every argsort:
    the rows 0, 1, 2, 3 of the full report, then its rows -4, -3 and -2. *)
Lemma prob_wrap_rows_at (sorter : list Q -> list nat)
    (B : Backend) (E : Engine) (c : Circuit) (reverse : bool) :
  index_sorter sorter ->
  length (rounded_probs B E c) = 2 ^ nqubits c ->
  2 <= nqubits c ->
  (print_result_prob_with sorter (Some B) E c true reverse []).2 = Ok tt /\
  rows (print_result_prob_with sorter (Some B) E c true reverse []).1
  = map (fun k =>
           nth k (rows (print_result_prob_with sorter (Some B) E c
                                               false reverse []).1)
               (""%string, 0%Q))
        ([0; 1; 2; 3] ++ seq (2 ^ nqubits c - 4) 3).
Proof.
  intros Hperm Hlen Hn.
  assert (H4 : 4 <= 2 ^ nqubits c).
  { change 4 with (2 ^ 2). apply Nat.pow_le_mono_r; lia. }
  rewrite rows_print_result_prob_with by done.
  set (probs := rounded_probs B E c) in *.
  set (states := enumerate_states (nqubits c)).
  set (order := prob_order sorter probs reverse).
  assert (Hord : length order = 2 ^ nqubits c).
  { unfold order. by rewrite length_prob_order. }
  unfold print_result_prob_with, try_K, get_K. cbv zeta.
  rewrite ST_bind_eq, ret_eq, ST_bind_eq, ret_eq, ST_bind_eq, emit_eq.
  change (map round4 (tdata (numpy B (probability E c)))) with probs.
  assert (Horder : (if reverse then rev (rev (sorter probs))
                    else rev (sorter probs)) = order).
  { unfold order, prob_order. destruct reverse; [apply rev_involutive|done]. }
  rewrite Horder. fold states.
  rewrite (take_indices_ok ""%string)
    by (unfold states; rewrite length_enumerate_states, <- Hlen;
        by apply prob_order_lt).
  rewrite (take_indices_ok 0%Q) by (by apply prob_order_lt).
  unfold lift. rewrite !ST_bind_eq.
  unfold print. do 3 rewrite emit_eq, ST_bind_eq.
  rewrite ST_bind_eq.
  rewrite prob_rows_at.
  2:{ by rewrite !length_map. }
  2:{ rewrite length_map, Hord. repeat constructor; lia. }
  rewrite ST_bind_eq, emit_eq.
  rewrite prob_rows_at.
  2:{ by rewrite !length_map. }
  2:{ rewrite length_map, Hord. repeat constructor; lia. }
  rewrite emit_eq. cbn [fst snd]. split; [done|].
  rewrite !rows_app.
  rewrite (rows_prob
             (fun z => nth (pypos (length (map (fun i => nth i states ""%string) order)) z)
                           (map (fun i => nth i states ""%string) order) ""%string)
             (fun z => nth (pypos (length (map (fun i => nth i states ""%string) order)) z)
                           (map (fun i => nth i probs 0%Q) order) 0%Q)).
  rewrite (rows_prob
             (fun z => nth (pypos (length (map (fun i => nth i states ""%string) order)) z)
                           (map (fun i => nth i states ""%string) order) ""%string)
             (fun z => nth (pypos (length (map (fun i => nth i states ""%string) order)) z)
                           (map (fun i => nth i probs 0%Q) order) 0%Q)).
  cbn [rows omap list_omap row_of app]. rewrite app_nil_r.
  rewrite length_map, Hord.
  assert (Hrow : forall z k,
             pypos (2 ^ nqubits c) z = k -> k < 2 ^ nqubits c ->
             (nth (pypos (2 ^ nqubits c) z)
                  (map (fun i => nth i states ""%string) order) ""%string,
              nth (pypos (2 ^ nqubits c) z)
                  (map (fun i => nth i probs 0%Q) order) 0%Q)
             = nth k (map (fun i => (nth i states ""%string, nth i probs 0%Q))
                          order) (""%string, 0%Q)).
  { intros z k -> Hk.
    rewrite !(nth_map_in _ order 0) by lia. done. }
  assert (Hnn : forall z, (0 <= z)%Z -> pypos (2 ^ nqubits c) z = Z.to_nat z).
  { intros z Hz. unfold pypos. by destruct (Z.leb_spec 0 z); [|lia]. }
  assert (Hneg : forall z, (z < 0)%Z ->
                 pypos (2 ^ nqubits c) z
                 = Z.to_nat (Z.of_nat (2 ^ nqubits c) + z)).
  { intros z Hz. unfold pypos. by destruct (Z.leb_spec 0 z); [lia|]. }
  change (range 0 4) with [0; 1; 2; 3]%Z.
  change (range (-4) (-1)) with [-4; -3; -2]%Z.
  cbn [map seq app].
  rewrite (Hrow 0%Z 0), (Hrow 1%Z 1), (Hrow 2%Z 2), (Hrow 3%Z 3)
    by (rewrite ?Hnn by lia; lia).
  rewrite (Hrow (-4)%Z (2 ^ nqubits c - 4)),
    (Hrow (-3)%Z (S (2 ^ nqubits c - 4))),
    (Hrow (-2)%Z (S (S (2 ^ nqubits c - 4))))
    by (rewrite ?Hneg by lia; lia).
  reflexivity.
Qed.


(** The rows of the full probability report name different states. *)
Lemma NoDup_prob_rows sorter B E c reverse :
  index_sorter sorter ->
  length (rounded_probs B E c) = 2 ^ nqubits c ->
  NoDup (rows (print_result_prob_with sorter (Some B) E c false reverse []).1).
Proof.
  intros Hperm Hlen. rewrite rows_print_result_prob_with by done.
  assert (Hlt : forall k, k ∈ prob_order sorter (rounded_probs B E c) reverse ->
                          k < 2 ^ nqubits c).
  { intros k Hk. rewrite <- Hlen.
    pose proof (prob_order_lt sorter (rounded_probs B E c) reverse Hperm) as Hall.
    rewrite Forall_forall in Hall. by apply Hall. }
  apply NoDup_fmap_2_strong.
  - intros a b Ha Hb Hab. injection Hab as Hst _.
    rewrite !nth_enumerate_states in Hst by (by apply Hlt).
    apply (f_equal (parse_bin 0)) in Hst.
    by rewrite !parse_state_string in Hst.
  - unfold prob_order. destruct reverse.
    + rewrite (Hperm _). apply NoDup_ListNoDup, seq_NoDup.
    + apply NoDup_ListNoDup, NoDup_rev, NoDup_ListNoDup.
      rewrite (Hperm _). apply NoDup_ListNoDup, seq_NoDup.
Qed.

Lemma length_prob_rows sorter B E c reverse :
  index_sorter sorter ->
  length (rounded_probs B E c) = 2 ^ nqubits c ->
  length (rows (print_result_prob_with sorter (Some B) E c false reverse []).1)
  = 2 ^ nqubits c.
Proof.
  intros Hperm Hlen. rewrite rows_print_result_prob_with by done.
  by rewrite length_map, length_prob_order.
Qed.

(** C4: the probability report in wrap mode, for every argsort and every
    circuit with at least two qubits whose simulator returns one
    probability per basis state.  The loop of the lowest entries is
    range(-4, -1): the report prints the first four rows of the sorted
    order and then its rows -4, -3 and -2, seven rows in all and not
    eight; with three or more qubits the last row of the order, the one
    that a report of the four lowest would end with, is not printed. *)
Theorem print_result_prob_wrap_seven (sorter : list Q -> list nat)
    (B : Backend) (E : Engine) (c : Circuit) (reverse : bool) :
  index_sorter sorter ->
  length (rounded_probs B E c) = 2 ^ nqubits c ->
  2 <= nqubits c ->
  (print_result_prob_with sorter (Some B) E c true reverse []).2 = Ok tt /\
  length (rows (print_result_prob_with sorter (Some B) E c true reverse []).1)
  = 7 /\
  rows (print_result_prob_with sorter (Some B) E c true reverse []).1
  = map (fun k =>
           nth k (rows (print_result_prob_with sorter (Some B) E c
                                               false reverse []).1)
               (""%string, 0%Q))
        [0; 1; 2; 3; 2 ^ nqubits c - 4; 2 ^ nqubits c - 3; 2 ^ nqubits c - 2] /\
  (3 <= nqubits c ->
   forall r,
     last (rows (print_result_prob_with sorter (Some B) E c false reverse []).1)
     = Some r ->
     r ∉ rows (print_result_prob_with sorter (Some B) E c true reverse []).1).
Proof.
  intros Hperm Hlen Hn.
  assert (H4 : 4 <= 2 ^ nqubits c).
  { change 4 with (2 ^ 2). apply Nat.pow_le_mono_r; lia. }
  destruct (prob_wrap_rows_at sorter B E c reverse Hperm Hlen Hn) as [Hok Hrows].
  pose proof (length_prob_rows sorter B E c reverse Hperm Hlen) as Hfull.
  pose proof (NoDup_prob_rows sorter B E c reverse Hperm Hlen) as Hnd.
  cbn [app seq] in Hrows.
  replace (S (2 ^ nqubits c - 4)) with (2 ^ nqubits c - 3) in Hrows by lia.
  replace (S (2 ^ nqubits c - 3)) with (2 ^ nqubits c - 2) in Hrows by lia.
  split; [done|]. split; [|split; [done|]].
  - by rewrite Hrows, length_map.
  - intros H3 r Hlast Hin.
    assert (H8 : 8 <= 2 ^ nqubits c).
    { change 8 with (2 ^ 3). apply Nat.pow_le_mono_r; lia. }
    rewrite last_lookup, Hfull in Hlast.
    rewrite Hrows in Hin.
    apply list_elem_of_In, in_map_iff in Hin as (k & Hk & Hin).
    assert (Hlt : k < 2 ^ nqubits c - 1).
    { simpl in Hin. destruct Hin as [<-|[<-|[<-|[<-|[<-|[<-|[<-|[]]]]]]]]; lia. }
    assert (Hlook : rows (print_result_prob_with sorter (Some B) E c
                                                 false reverse []).1 !! k
                    = Some r).
    { rewrite <- Hk.
      destruct (nth_lookup_or_length
                  (rows (print_result_prob_with sorter (Some B) E c
                                                false reverse []).1)
                  k (""%string, 0%Q)) as [Hsome|Hlen']; [done|lia]. }
    pose proof (NoDup_lookup _ _ _ _ Hnd Hlook Hlast). lia.
Qed.

Lemma print_result_prob_wrap_seven_witness :
  (print_result_prob_with argsort (Some toy_backend) (toy_engine probs8_distinct)
                          (circuit_of 3) true false []).2 = Ok tt /\
  length (rows (print_result_prob_with argsort (Some toy_backend)
                  (toy_engine probs8_distinct) (circuit_of 3) true false []).1)
  = 7 /\
  rows (print_result_prob_with argsort (Some toy_backend)
          (toy_engine probs8_distinct) (circuit_of 3) true false []).1
  = map (fun k =>
           nth k (rows (print_result_prob_with argsort (Some toy_backend)
                          (toy_engine probs8_distinct) (circuit_of 3)
                          false false []).1)
               (""%string, 0%Q))
        [0; 1; 2; 3; 2 ^ nqubits (circuit_of 3) - 4;
         2 ^ nqubits (circuit_of 3) - 3; 2 ^ nqubits (circuit_of 3) - 2] /\
  (3 <= nqubits (circuit_of 3) ->
   forall r,
     last (rows (print_result_prob_with argsort (Some toy_backend)
                   (toy_engine probs8_distinct) (circuit_of 3) false false []).1)
     = Some r ->
     r ∉ rows (print_result_prob_with argsort (Some toy_backend)
                 (toy_engine probs8_distinct) (circuit_of 3) true false []).1).
Proof.
  apply (print_result_prob_wrap_seven argsort toy_backend
           (toy_engine probs8_distinct) (circuit_of 3) false);
    [exact argsort_perm|reflexivity|simpl; lia].
Defined.

(** The failing call of C4: eight different probabilities, so that the
    order is the same for every argsort.  The state 010, of the lowest
    probability, is the one that is not printed. *)
Example print_result_prob_wrap_example :
  rows (print_result_prob (Some toy_backend) (toy_engine probs8_distinct)
                          (circuit_of 3) true false []).1
  = map (fun kv => (kv.1, round4 kv.2))
        [("011"%string, 30 # 100); ("001"%string, 25 # 100);
         ("101"%string, 15 # 100); ("000"%string, 10 # 100);
         ("110"%string, 8 # 100); ("100"%string, 6 # 100);
         ("111"%string, 4 # 100)]%Q /\
  rows (print_result_prob (Some toy_backend) (toy_engine probs8_distinct)
                          (circuit_of 3) false false []).1 !! 7
  = Some ("010"%string, round4 (2 # 100)).
Proof. split; reflexivity. Qed.

(** * Further properties of the modelled code *)

(** ** Bell_pair_block, Grid2D_entangling and example_block *)

Lemma blocks_apply_op g c :
  Blocks.accepted (Blocks.nqubits c) g ->
  Blocks.apply_op g c = (Blocks.with_ops c [g], Ok tt).
Proof. unfold Blocks.accepted, Blocks.apply_op. by intros ->. Qed.

Lemma blocks_with_ops_nil c : Blocks.with_ops c [] = c.
Proof. destruct c. unfold Blocks.with_ops. simpl. by rewrite app_nil_r. Qed.

Lemma blocks_with_ops_app c gs1 gs2 :
  Blocks.with_ops (Blocks.with_ops c gs1) gs2 = Blocks.with_ops c (gs1 ++ gs2).
Proof. unfold Blocks.with_ops. simpl. by rewrite app_assoc. Qed.

Lemma blocks_nqubits_with_ops c gs :
  Blocks.nqubits (Blocks.with_ops c gs) = Blocks.nqubits c.
Proof. reflexivity. Qed.

Lemma default_links_pairs n :
  Blocks.default_links n = map (fun k => (2 * k, 2 * k + 1)) (seq 0 (n / 2)).
Proof.
  unfold Blocks.default_links, Blocks.range3. rewrite map_map.
  replace (Z.of_nat n - 1 - 0 + 2 - 1)%Z with (Z.of_nat n) by lia.
  replace (Z.of_nat n / 2)%Z with (Z.of_nat (n / 2))
    by (by rewrite Nat2Z.inj_div).
  rewrite Nat2Z.id.
  apply map_ext. intros k. f_equal; lia.
Qed.

(** The default links join different qubits of the circuit. *)
Lemma default_links_fit n : pairs_fit n (Blocks.default_links n).
Proof.
  rewrite default_links_pairs. unfold pairs_fit.
  apply Forall_forall. intros ab Hab.
  apply list_elem_of_In, in_map_iff in Hab as (k & <- & Hk).
  apply in_seq in Hk. pose proof (Nat.Div0.mul_div_le n 2). simpl. lia.
Qed.

Lemma bell_pair_body ab c :
  ab.1 < Blocks.nqubits c -> ab.2 < Blocks.nqubits c -> ab.1 <> ab.2 ->
  (Blocks.apply_op (Blocks.X ab.1);;
   Blocks.apply_op (Blocks.H ab.1);;
   Blocks.apply_op (Blocks.cnot ab.1 ab.2);;
   Blocks.apply_op (Blocks.X ab.2)) c
  = (Blocks.with_ops c (Blocks.bell_gates ab), Ok tt).
Proof.
  intros H1 H2 Hne.
  rewrite ST_bind_eq, blocks_apply_op by (by apply check_gate_one).
  rewrite ST_bind_eq, blocks_apply_op by (by apply check_gate_one).
  rewrite ST_bind_eq, blocks_apply_op by (by apply check_gate_two).
  rewrite blocks_apply_op by (by apply check_gate_one).
  by rewrite !blocks_with_ops_app.
Qed.

Lemma Bell_pair_block_links (c : Blocks.circuit) (links : list (nat * nat)) :
  pairs_fit (Blocks.nqubits c) links ->
  Blocks.Bell_pair_block (Some links) c
  = (Blocks.with_ops c (flat_map Blocks.bell_gates links), Ok tt).
Proof.
  intros Hfit. unfold Blocks.Bell_pair_block.
  apply (multi_loop Blocks.with_ops Blocks.nqubits blocks_with_ops_nil
           blocks_with_ops_app blocks_nqubits_with_ops).
  intros ab s Hab Hs. unfold pairs_fit in Hfit. rewrite Forall_forall in Hfit.
  destruct (Hfit ab Hab) as (H1 & H2 & Hne).
  apply bell_pair_body; by rewrite ?Hs.
Qed.

(** X1.  On links that join different qubits of the circuit, Bell_pair_block
    appends the four gates of each link, in the order of the links.
    Without links it pairs the qubits (0,1), (2,3), ...: it appends
    4 * (n / 2) gates, all on qubits below 2 * (n / 2), so that the last
    qubit of a circuit with an odd number of qubits is left alone and a
    circuit of fewer than two qubits is returned unchanged. *)
Theorem Bell_pair_block_pairs (c : Blocks.circuit) :
  (forall links,
     pairs_fit (Blocks.nqubits c) links ->
     Blocks.Bell_pair_block (Some links) c
     = (Blocks.with_ops c (flat_map Blocks.bell_gates links), Ok tt)) /\
  Blocks.Bell_pair_block None c
  = (Blocks.with_ops c
       (flat_map (fun k => Blocks.bell_gates (2 * k, 2 * k + 1))
                 (seq 0 (Blocks.nqubits c / 2))),
     Ok tt) /\
  length (flat_map (fun k => Blocks.bell_gates (2 * k, 2 * k + 1))
                   (seq 0 (Blocks.nqubits c / 2)))
  = 4 * (Blocks.nqubits c / 2) /\
  (forall g q,
     g ∈ flat_map (fun k => Blocks.bell_gates (2 * k, 2 * k + 1))
                  (seq 0 (Blocks.nqubits c / 2)) ->
     q ∈ Blocks.qubits_of g -> q < 2 * (Blocks.nqubits c / 2)) /\
  (Blocks.nqubits c < 2 -> Blocks.Bell_pair_block None c = (c, Ok tt)).
Proof.
  assert (Hnone : Blocks.Bell_pair_block None c
                  = (Blocks.with_ops c
                       (flat_map (fun k => Blocks.bell_gates (2 * k, 2 * k + 1))
                                 (seq 0 (Blocks.nqubits c / 2))),
                     Ok tt)).
  { change (Blocks.Bell_pair_block None c)
      with (Blocks.Bell_pair_block (Some (Blocks.default_links (Blocks.nqubits c))) c).
    rewrite Bell_pair_block_links by apply default_links_fit.
    rewrite default_links_pairs. do 2 f_equal.
    generalize (seq 0 (Blocks.nqubits c / 2)). intros l.
    induction l as [|k l IH]; [done|].
    cbn [flat_map map]. by rewrite IH. }
  split; [intros links; apply Bell_pair_block_links|].
  split; [exact Hnone|]. split; [|split].
  - generalize (Blocks.nqubits c / 2). intros m.
    induction m as [|m IH]; [done|].
    rewrite seq_S, flat_map_app, length_app, IH. simpl. lia.
  - intros g q Hg Hq.
    apply list_elem_of_In, in_flat_map in Hg as (k & Hk & Hg).
    apply in_seq in Hk. unfold Blocks.bell_gates in Hg. simpl in Hg.
    destruct Hg as [<-|[<-|[<-|[<-|[]]]]]; simpl in Hq;
      repeat (apply elem_of_cons in Hq as [->|Hq]); try lia;
      by apply elem_of_nil in Hq.
  - intros Hn. rewrite Hnone.
    replace (Blocks.nqubits c / 2) with 0 by (symmetry; apply Nat.div_small; lia).
    simpl. by rewrite blocks_with_ops_nil.
Qed.

Lemma Bell_pair_block_pairs_witness :
  Blocks.Bell_pair_block (Some [(2, 0)]) (Blocks.mk_circuit 3 [])
  = (Blocks.with_ops (Blocks.mk_circuit 3 []) (flat_map Blocks.bell_gates [(2, 0)]),
     Ok tt) /\
  Blocks.Bell_pair_block None {| Blocks.nqubits := 1; Blocks.ops := [Blocks.H 0] |}
  = ({| Blocks.nqubits := 1; Blocks.ops := [Blocks.H 0] |}, Ok tt).
Proof.
  split.
  - apply (proj1 (Bell_pair_block_pairs (Blocks.mk_circuit 3 []))).
    repeat constructor; simpl; lia.
  - apply (Bell_pair_block_pairs
             {| Blocks.nqubits := 1; Blocks.ops := [Blocks.H 0] |}).
    simpl. lia.
Defined.



Lemma tensor_getitem2_ok (p : tensor) (r cdim : Z) (rest : list Z) (a b : nat) :
  tshape p = r :: cdim :: rest ->
  (Z.of_nat a < r)%Z -> (Z.of_nat b < cdim)%Z ->
  Blocks.tensor_getitem2 p a b = Ok (slice2 p a b).
Proof.
  intros Hshape Ha Hb. unfold Blocks.tensor_getitem2, slice2.
  rewrite tensor_getitem_avail.
  assert (Hav : a < avail p) by (unfold avail; rewrite Hshape; lia).
  destruct (Nat.ltb_spec a (avail p)); [|lia]. rewrite bind_Ok.
  rewrite tensor_getitem_avail.
  assert (Hav2 : b < avail (slice p a)).
  { unfold avail, slice. simpl. rewrite Hshape. simpl. lia. }
  destruct (Nat.ltb_spec b (avail (slice p a))); [done|lia].
Qed.

Lemma tensor_getitem2_row_fail (p : tensor) (a b : nat) :
  avail p <= a -> Blocks.tensor_getitem2 p a b = Raise IndexError.
Proof.
  intros Ha. unfold Blocks.tensor_getitem2. rewrite tensor_getitem_avail.
  destruct (Nat.ltb_spec a (avail p)); [lia|done].
Qed.

(** The three loops of example_block on a circuit of [n] qubits: the gates
    they apply act on qubits below [n]. *)
Lemma example_H_loop (s : Blocks.circuit) :
  for_each (seq 0 (Blocks.nqubits s)) (fun i => Blocks.apply_op (Blocks.H i)) s
  = (Blocks.with_ops s (map Blocks.H (seq 0 (Blocks.nqubits s))), Ok tt).
Proof.
  apply (each_loop Blocks.apply_op Blocks.with_ops Blocks.nqubits
           Blocks.accepted blocks_apply_op
           blocks_with_ops_nil blocks_with_ops_app blocks_nqubits_with_ops).
  intros i Hi. apply list_elem_of_In, in_seq in Hi.
  apply check_gate_one. lia.
Qed.

Lemma example_zz_loop (param : tensor) (row : nat) (s : Blocks.circuit) :
  (forall i, i < Blocks.nqubits s - 1 ->
             Blocks.tensor_getitem2 param row i = Ok (slice2 param row i)) ->
  for_each (seq 0 (Blocks.nqubits s - 1)) (fun i =>
    theta ← lift (Blocks.tensor_getitem2 param row i);
    Blocks.apply_op (Blocks.exp1 i (i + 1) Blocks.G_zz_matrix theta [])) s
  = (Blocks.with_ops s
       (map (fun i => Blocks.exp1 i (i + 1) Blocks.G_zz_matrix
                                  (slice2 param row i) [])
            (seq 0 (Blocks.nqubits s - 1))),
     Ok tt).
Proof.
  intros Hread.
  apply (read_loop Blocks.apply_op Blocks.with_ops Blocks.nqubits
           Blocks.accepted blocks_apply_op
           blocks_with_ops_nil blocks_with_ops_app blocks_nqubits_with_ops
           _ (fun i => slice2 param row i)
           (fun i theta => Blocks.exp1 i (i + 1) Blocks.G_zz_matrix theta [])).
  - intros i Hi. apply list_elem_of_In, in_seq in Hi. apply Hread. lia.
  - intros i Hi. apply list_elem_of_In, in_seq in Hi.
    apply check_gate_two; lia.
Qed.

Lemma example_rx_loop (param : tensor) (row n : nat) (s : Blocks.circuit) :
  Blocks.nqubits s = n ->
  (forall i, i < n ->
             Blocks.tensor_getitem2 param row i = Ok (slice2 param row i)) ->
  for_each (seq 0 n) (fun i =>
    theta ← lift (Blocks.tensor_getitem2 param row i);
    Blocks.apply_op (Blocks.rx i theta)) s
  = (Blocks.with_ops s
       (map (fun i => Blocks.rx i (slice2 param row i)) (seq 0 n)),
     Ok tt).
Proof.
  intros Hn Hread.
  apply (read_loop Blocks.apply_op Blocks.with_ops Blocks.nqubits
           Blocks.accepted blocks_apply_op
           blocks_with_ops_nil blocks_with_ops_app blocks_nqubits_with_ops
           _ (fun i => slice2 param row i)
           (fun i theta => Blocks.rx i theta)).
  - intros i Hi. apply list_elem_of_In, in_seq in Hi. apply Hread. lia.
  - intros i Hi. apply list_elem_of_In, in_seq in Hi.
    apply check_gate_one. lia.
Qed.

(** One layer whose two rows are there. *)
Lemma example_layer_body (param : tensor) (r cdim : Z) (rest : list Z)
    (n j : nat) (s : Blocks.circuit) :
  tshape param = r :: cdim :: rest ->
  (Z.of_nat (2 * j + 1) < r)%Z -> (Z.of_nat n <= cdim)%Z ->
  Blocks.nqubits s = n ->
  (for_each (seq 0 (n - 1)) (fun i =>
     theta ← lift (Blocks.tensor_getitem2 param (2 * j) i);
     Blocks.apply_op (Blocks.exp1 i (i + 1) Blocks.G_zz_matrix theta []));;
   for_each (seq 0 n) (fun i =>
     theta ← lift (Blocks.tensor_getitem2 param (2 * j + 1) i);
     Blocks.apply_op (Blocks.rx i theta))) s
  = (Blocks.with_ops s (example_layer param n j), Ok tt).
Proof.
  intros Hshape Hj Hcols Hn. subst n. rewrite ST_bind_eq.
  rewrite example_zz_loop
    by (intros i Hi; apply (tensor_getitem2_ok param r cdim rest); (done || lia)).
  rewrite (example_rx_loop param (2 * j + 1) (Blocks.nqubits s))
    by (done || intros i Hi;
        apply (tensor_getitem2_ok param r cdim rest); (done || lia)).
  by rewrite blocks_with_ops_app.
Qed.

(** X3.  With a parameter tensor of at least 2*nlayers rows and n columns,
    example_block appends a Hadamard on every qubit and then, for each
    layer j, the ZZ rotations of the pairs (i, i+1) with the angles of row
    2j followed by the X rotations with the angles of row 2j+1:
    n + nlayers * (2n - 1) gates for n >= 1. *)
Theorem example_block_layers (param : tensor) (nlayers : Z)
    (c : Blocks.circuit) (r cdim : Z) (rest : list Z) :
  tshape param = r :: cdim :: rest ->
  (2 * nlayers <= r)%Z -> (Z.of_nat (Blocks.nqubits c) <= cdim)%Z ->
  Blocks.example_block param nlayers c
  = (Blocks.with_ops c
       (map Blocks.H (seq 0 (Blocks.nqubits c))
        ++ flat_map (example_layer param (Blocks.nqubits c))
                    (seq 0 (Z.to_nat nlayers))),
     Ok tt) /\
  length (map Blocks.H (seq 0 (Blocks.nqubits c))
          ++ flat_map (example_layer param (Blocks.nqubits c))
                      (seq 0 (Z.to_nat nlayers)))
  = Blocks.nqubits c
    + Z.to_nat nlayers * ((Blocks.nqubits c - 1) + Blocks.nqubits c).
Proof.
  intros Hshape Hrows Hcols. split.
  - unfold Blocks.example_block. rewrite ST_bind_eq, example_H_loop.
    rewrite (multi_loop Blocks.with_ops Blocks.nqubits blocks_with_ops_nil
               blocks_with_ops_app blocks_nqubits_with_ops
               _ (example_layer param (Blocks.nqubits c))).
    + by rewrite blocks_with_ops_app.
    + intros j s Hj Hs. apply list_elem_of_In, in_seq in Hj.
      apply (example_layer_body param r cdim rest); (done || lia).
  - rewrite length_app, length_map, length_seq. f_equal.
    generalize (Z.to_nat nlayers). intros m.
    induction m as [|m IH]; [done|].
    rewrite seq_S, flat_map_app, length_app, IH. simpl.
    unfold example_layer. rewrite app_nil_r, length_app, !length_map, !length_seq.
    lia.
Qed.

Lemma example_block_layers_witness :
  Blocks.example_block (mk_tensor [2; 2]%Z [1; 2; 3; 4]%Q) 1
                       (Blocks.mk_circuit 2 [])
  = (Blocks.with_ops (Blocks.mk_circuit 2 [])
       (map Blocks.H (seq 0 2)
        ++ flat_map (example_layer (mk_tensor [2; 2]%Z [1; 2; 3; 4]%Q) 2)
                    (seq 0 (Z.to_nat 1))),
     Ok tt) /\
  length (map Blocks.H (seq 0 2)
          ++ flat_map (example_layer (mk_tensor [2; 2]%Z [1; 2; 3; 4]%Q) 2)
                      (seq 0 (Z.to_nat 1)))
  = 2 + Z.to_nat 1 * ((2 - 1) + 2).
Proof.
  apply (example_block_layers (mk_tensor [2; 2]%Z [1; 2; 3; 4]%Q) 1
           (Blocks.mk_circuit 2 []) 2 2 []); [reflexivity|lia|simpl; lia].
Defined.

(** ** QAOA_block: what is applied when an entry is missing *)



(** X5.  When the parameter tensor has fewer than 2*nlayers rows, example_block
    raises IndexError on a circuit with at least one qubit, and the circuit
    has been changed by then: the Hadamards and the layers that found both
    their rows are applied, and, when the number of rows is odd, the ZZ
    rotations of the layer whose second row is missing. *)
Theorem example_block_short_param (param : tensor) (nlayers : Z)
    (c : Blocks.circuit) (r cdim : Z) (rest : list Z) :
  tshape param = r :: cdim :: rest ->
  (0 <= r < 2 * nlayers)%Z ->
  1 <= Blocks.nqubits c -> (Z.of_nat (Blocks.nqubits c) <= cdim)%Z ->
  Blocks.example_block param nlayers c
  = (Blocks.with_ops c
       (map Blocks.H (seq 0 (Blocks.nqubits c))
        ++ flat_map (example_layer param (Blocks.nqubits c))
                    (seq 0 (Z.to_nat (r / 2)))
        ++ (if Z.odd r
            then map (fun i => Blocks.exp1 i (i + 1) Blocks.G_zz_matrix
                                  (slice2 param (2 * Z.to_nat (r / 2)) i) [])
                     (seq 0 (Blocks.nqubits c - 1))
            else [])),
     Raise IndexError).
Proof.
  intros Hshape Hr Hn Hcols.
  set (m := Z.to_nat (r / 2)).
  assert (Hav : avail param = Z.to_nat r) by (unfold avail; by rewrite Hshape).
  assert (Hm : (r = 2 * Z.of_nat m + (if Z.odd r then 1 else 0))%Z).
  { unfold m. rewrite Z2Nat.id by (apply Z.div_pos; lia).
    rewrite (Z.div_mod r 2) at 1 by lia. rewrite Zmod_odd. done. }
  assert (Hsplit : seq 0 (Z.to_nat nlayers)
                   = seq 0 m ++ m :: seq (S m) (Z.to_nat nlayers - S m)).
  { replace (Z.to_nat nlayers) with (m + S (Z.to_nat nlayers - S m)) at 1
      by (destruct (Z.odd r); lia).
    by rewrite seq_app. }
  unfold Blocks.example_block. rewrite ST_bind_eq, example_H_loop.
  rewrite Hsplit.
  rewrite (multi_loop_fail Blocks.with_ops Blocks.nqubits blocks_with_ops_app
             blocks_nqubits_with_ops
             _ (example_layer param (Blocks.nqubits c)) _ _ _
             (if Z.odd r
              then map (fun i => Blocks.exp1 i (i + 1) Blocks.G_zz_matrix
                                    (slice2 param (2 * m) i) [])
                       (seq 0 (Blocks.nqubits c - 1))
              else []) IndexError).
  - by rewrite blocks_with_ops_app.
  - intros j s Hj Hs. apply list_elem_of_In, in_seq in Hj.
    apply (example_layer_body param r cdim rest); [done| |done|done].
    destruct (Z.odd r); lia.
  - intros s Hs. rewrite blocks_nqubits_with_ops in Hs. rewrite ST_bind_eq.
    destruct (Z.odd r) eqn:Hodd.
    + rewrite <- Hs at 1.
      rewrite example_zz_loop
        by (intros i Hi; apply (tensor_getitem2_ok param r cdim rest);
            (done || lia)).
      rewrite Hs.
      destruct (Blocks.nqubits c) as [|n'] eqn:Hnq; [lia|].
      rewrite <- cons_seq.
      apply (read_loop_fail Blocks.apply_op).
      apply tensor_getitem2_row_fail. lia.
    + destruct (Blocks.nqubits c) as [|[|n']] eqn:Hnq; [lia| |].
      * cbn [Nat.sub seq]. unfold for_each at 1. cbn [for_fold].
        rewrite ret_eq.
        rewrite (read_loop_fail Blocks.apply_op _ _ _ _ IndexError).
        -- by rewrite blocks_with_ops_nil.
        -- apply tensor_getitem2_row_fail. lia.
      * replace (S (S n') - 1) with (S n') by lia. rewrite <- cons_seq.
        rewrite (read_loop_fail Blocks.apply_op _ _ _ _ IndexError).
        -- by rewrite blocks_with_ops_nil.
        -- apply tensor_getitem2_row_fail. lia.
Qed.

Lemma example_block_short_param_witness :
  Blocks.example_block (mk_tensor [3; 2]%Z [1; 2; 3; 4; 5; 6]%Q) 2
                       (Blocks.mk_circuit 2 [])
  = (Blocks.with_ops (Blocks.mk_circuit 2 [])
       (map Blocks.H (seq 0 2)
        ++ flat_map (example_layer (mk_tensor [3; 2]%Z [1; 2; 3; 4; 5; 6]%Q) 2)
                    (seq 0 (Z.to_nat (3 / 2)))
        ++ (if Z.odd 3
            then map (fun i => Blocks.exp1 i (i + 1) Blocks.G_zz_matrix
                                  (slice2 (mk_tensor [3; 2]%Z [1; 2; 3; 4; 5; 6]%Q)
                                          (2 * Z.to_nat (3 / 2)) i) [])
                     (seq 0 (2 - 1))
            else [])),
     Raise IndexError).
Proof.
  apply (example_block_short_param (mk_tensor [3; 2]%Z [1; 2; 3; 4; 5; 6]%Q) 2
           (Blocks.mk_circuit 2 []) 3 2 []);
    [reflexivity|lia|simpl; lia|simpl; lia].
Defined.

(** ** Ising_loss and QAOA_loss on the output of QUBO_to_Ising *)

Lemma Ising_loss_sum E c ts ws :
  length ts <= length ws ->
  Forall (fun t => marked_positions t <> []) ts ->
  Ising_loss E c ts ws
  = Ok (re (fold_left cadd (zip_with (term_value E c) ws ts) czero)).
Proof.
  intros Hlen Hall. unfold Ising_loss.
  pose proof (loss_loop E c [] ts [] ws czero eq_refl Hlen Hall) as Hloop.
  simpl in Hloop. by rewrite Hloop.
Qed.

Lemma term_value_single E c w n i :
  i < n ->
  term_value E c w (single_term n i) = cscale w (expectation_ps E c [i]).
Proof.
  intros Hi. unfold term_value.
  by rewrite <- index_of_ones_marked, index_of_ones_single.
Qed.

Lemma term_value_pair E c w n p :
  p.1 < p.2 -> p.2 < n ->
  term_value E c w (pair_term n p) = cscale w (expectation_ps E c [p.1; p.2]).
Proof.
  destruct p as [i j]. intros Hij Hj. unfold term_value.
  by rewrite <- index_of_ones_marked, index_of_ones_pair.
Qed.

(** X6.  The terms and weights that QUBO_to_Ising returns are always accepted by
    Ising_loss: on a square matrix with at least one row the composition
    raises nothing, and the loss is the real part of the sum of
    -sum(Q[i,:])/2 times the expectation of Z_i over the qubits and of
    Q[i][j]/2 times the expectation of Z_i Z_j over the pairs i < j.
    QAOA_loss is this loss on the circuit of the ansatz, and raises
    NameError when the name QAOA_ansatz_for_Ising is unbound. *)
Theorem Ising_loss_of_QUBO (E : Engine) (Qm : ndarray2) (n : nat) :
  shape0 Qm = n -> shape1 Qm = n -> 1 <= n ->
  exists pauli_terms weights offset,
    QUBO_to_Ising Qm = Ok (pauli_terms, weights, offset) /\
    (forall c,
       Ising_loss E c pauli_terms weights
       = Ok (re (fold_left cadd
                   (map (fun i => cscale (- row_sum Qm i / 2)
                                         (expectation_ps E c [i]))
                        (seq 0 n)
                    ++ map (fun p => cscale (entry Qm p / 2)
                                            (expectation_ps E c [p.1; p.2]))
                           (upper_pairs n))
                   czero))) /\
    (forall ansatz nlayers params,
       QAOA_loss (Some ansatz) E nlayers pauli_terms weights params
       = Ising_loss E (ansatz params nlayers pauli_terms weights)
                    pauli_terms weights) /\
    (forall nlayers params,
       QAOA_loss None E nlayers pauli_terms weights params
       = Raise (NameError "QAOA_ansatz_for_Ising")).
Proof.
  intros H0 H1 Hn.
  eexists _, _, _. split; [by apply QUBO_to_Ising_square|].
  split; [|by split].
  intros c. rewrite Ising_loss_sum.
  - rewrite zip_with_app by (by rewrite !length_map).
    rewrite !zip_with_map_map. do 3 f_equal. f_equal.
    + apply map_ext_in. intros i Hi. apply in_seq in Hi.
      apply term_value_single. lia.
    + apply map_ext_in. intros [i j] Hp.
      apply list_elem_of_In, elem_of_upper_pairs in Hp.
      apply term_value_pair; simpl; lia.
  - by rewrite !length_app, !length_map.
  - apply Forall_app. split; apply Forall_forall; intros t Ht;
      apply list_elem_of_In, in_map_iff in Ht as (x & <- & Hx);
      rewrite <- index_of_ones_marked.
    + apply in_seq in Hx. by rewrite index_of_ones_single by lia.
    + destruct x as [i j]. apply list_elem_of_In, elem_of_upper_pairs in Hx.
      by rewrite index_of_ones_pair by lia.
Qed.

Lemma Ising_loss_of_QUBO_witness :
  exists pauli_terms weights offset,
    QUBO_to_Ising Q_example = Ok (pauli_terms, weights, offset) /\
    (forall c,
       Ising_loss (toy_engine []) c pauli_terms weights
       = Ok (re (fold_left cadd
                   (map (fun i => cscale (- row_sum Q_example i / 2)
                                         (expectation_ps (toy_engine []) c [i]))
                        (seq 0 (shape0 Q_example))
                    ++ map (fun p => cscale (entry Q_example p / 2)
                                            (expectation_ps (toy_engine []) c
                                                            [p.1; p.2]))
                           (upper_pairs (shape0 Q_example)))
                   czero))) /\
    (forall ansatz nlayers params,
       QAOA_loss (Some ansatz) (toy_engine []) nlayers pauli_terms weights params
       = Ising_loss (toy_engine []) (ansatz params nlayers pauli_terms weights)
                    pauli_terms weights) /\
    (forall nlayers params,
       QAOA_loss None (toy_engine []) nlayers pauli_terms weights params
       = Raise (NameError "QAOA_ansatz_for_Ising")).
Proof.
  apply (Ising_loss_of_QUBO (toy_engine []) Q_example (shape0 Q_example));
    [reflexivity|reflexivity|simpl; lia].
Defined.

(** ** Ising_loss: the weights and the order of the terms *)

Lemma rfold_ext {X V} (xs : list X) (body1 body2 : V -> X -> result V) (v : V) :
  (forall v x, x ∈ xs -> body1 v x = body2 v x) ->
  rfold xs body1 v = rfold xs body2 v.
Proof.
  revert v. induction xs as [|x xs IH]; intros v Hext; [done|].
  simpl. rewrite Hext by (by left).
  destruct (body2 v x) as [v'|e]; [|done]. simpl.
  apply IH. intros w y Hy. apply Hext. by right.
Qed.

Lemma delta_loss_weight E c ws1 ws2 k term :
  getitem ws1 k = getitem ws2 k ->
  delta_loss E c ws1 k term = delta_loss E c ws2 k term.
Proof. intros Hw. unfold delta_loss. by rewrite Hw. Qed.

(** X7.  Ising_loss reads weights[k] for every term k: with fewer weights than
    terms it raises IndexError whatever the terms are, and weights beyond
    the number of terms are never read. *)
Theorem Ising_loss_weight_bounds (E : Engine) (c : Circuit)
    (pauli_terms : list (list Q)) (weights : list Q) :
  (length weights < length pauli_terms ->
   Ising_loss E c pauli_terms weights = Raise IndexError) /\
  (length pauli_terms <= length weights ->
   forall extra,
     Ising_loss E c pauli_terms (weights ++ extra)
     = Ising_loss E c pauli_terms weights).
Proof.
  split.
  - intros Hlen. unfold Ising_loss.
    rewrite (rfold_raises _ _ _ (length weights)); [done| | |].
    + apply list_elem_of_In, in_seq. lia.
    + intros v y e. destruct (getitem pauli_terms y) as [t|e'] eqn:Hget; simpl.
      * destruct (delta_loss E c weights y t) eqn:Hd; simpl; [done|].
        intros [= <-]. by apply delta_loss_raises in Hd.
      * intros [= <-]. by apply getitem_raises in Hget.
    + intros v.
      destruct (lookup_lt_is_Some_2 pauli_terms (length weights) Hlen)
        as [t Ht].
      unfold getitem at 1. rewrite Ht. simpl.
      unfold delta_loss, getitem.
      rewrite (proj2 (lookup_ge_None weights (length weights))) by lia.
      by destruct (length (index_of_ones t) =? 1).
  - intros Hlen extra. unfold Ising_loss. f_equal.
    apply rfold_ext. intros v k Hk. apply list_elem_of_In, in_seq in Hk.
    destruct (getitem pauli_terms k) as [t|e]; [|done]. simpl.
    rewrite (delta_loss_weight E c (weights ++ extra) weights); [done|].
    unfold getitem. rewrite lookup_app_l by lia. done.
Qed.

Lemma Ising_loss_weight_bounds_witness :
  Ising_loss (toy_engine []) (circuit_of 2) [[1; 0]; [0; 1]]%Q [2%Q]
  = Raise IndexError /\
  Ising_loss (toy_engine []) (circuit_of 2) [[1; 0]]%Q ([2%Q] ++ [5%Q])
  = Ising_loss (toy_engine []) (circuit_of 2) [[1; 0]]%Q [2%Q].
Proof.
  split.
  - apply (proj1 (Ising_loss_weight_bounds (toy_engine []) (circuit_of 2)
                    [[1; 0]; [0; 1]]%Q [2%Q])). simpl. lia.
  - apply (proj2 (Ising_loss_weight_bounds (toy_engine []) (circuit_of 2)
                    [[1; 0]]%Q [2%Q])). simpl. lia.
Defined.

Lemma re_fold_cadd (l : list complex) (z : complex) :
  (re (fold_left cadd l z) == re z + sumQ (map re l))%Q.
Proof.
  revert z. induction l as [|a l IH]; intros z; simpl; [ring|].
  rewrite IH. simpl. ring.
Qed.

Lemma sumQ_perm (l1 l2 : list Q) :
  Permutation l1 l2 -> (sumQ l1 == sumQ l2)%Q.
Proof.
  induction 1 as [|x l1 l2 _ IH|x y l|l1 l2 l3 _ IH1 _ IH2]; simpl.
  - reflexivity.
  - by rewrite IH.
  - ring.
  - by rewrite IH1.
Qed.

(** X8.  In exact arithmetic the loss does not depend on the order of the terms:
    two lists of weighted terms that are permutations of one another, each
    term with a 1-entry, give the same loss. *)
Theorem Ising_loss_order_invariant (E : Engine) (c : Circuit)
    (wts1 wts2 : list (Q * list Q)) :
  Permutation wts1 wts2 ->
  Forall (fun wt => marked_positions wt.2 <> []) wts1 ->
  exists v1 v2,
    Ising_loss E c (map snd wts1) (map fst wts1) = Ok v1 /\
    Ising_loss E c (map snd wts2) (map fst wts2) = Ok v2 /\
    (v1 == v2)%Q.
Proof.
  intros Hperm Hall.
  assert (Hall2 : Forall (fun wt => marked_positions wt.2 <> []) wts2)
    by (by rewrite <- Hperm).
  eexists _, _. split; [|split].
  - apply Ising_loss_sum; [by rewrite !length_map|].
    by apply Forall_map.
  - apply Ising_loss_sum; [by rewrite !length_map|].
    by apply Forall_map.
  - rewrite !zip_with_map_map, !re_fold_cadd, !map_map.
    apply Qplus_comp; [reflexivity|].
    apply sumQ_perm. by apply Permutation_map.
Qed.

Lemma Ising_loss_order_invariant_witness :
  exists v1 v2,
    Ising_loss (toy_engine []) (circuit_of 2)
               (map snd [(2, [1; 0]); (3, [1; 1])]%Q)
               (map fst [(2, [1; 0]); (3, [1; 1])]%Q) = Ok v1 /\
    Ising_loss (toy_engine []) (circuit_of 2)
               (map snd [(3, [1; 1]); (2, [1; 0])]%Q)
               (map fst [(3, [1; 1]); (2, [1; 0])]%Q) = Ok v2 /\
    (v1 == v2)%Q.
Proof.
  apply (Ising_loss_order_invariant (toy_engine []) (circuit_of 2)
           [(2, [1; 0]); (3, [1; 1])]%Q [(3, [1; 1]); (2, [1; 0])]%Q).
  - apply perm_swap.
  - repeat constructor; discriminate.
Defined.

(** ** QUBO_QAOA: rejected inputs and progress reports *)

(** X9.  A matrix that QUBO_to_Ising rejects makes QUBO_QAOA raise the same
    exception before the backend is used: nothing is drawn and no step is
    run.  With the name K unbound the message has been printed by then. *)
Theorem QUBO_QAOA_input_error (K : option Backend) (Qm : ndarray2)
    (ansatz : Z -> list (list Q) -> list Q -> tensor -> tensor)
    (nlayers iterations : Z) (vvag_flag : bool) (ncircuits : Z) (tr : trace) :
  shape0 Qm = 0 \/ shape1 Qm <> shape0 Qm ->
  QUBO_QAOA K Qm ansatz nlayers iterations vvag_flag ncircuits tr
  = (tr ++ match K with
           | None => [Print (Text backend_msg)]
           | Some _ => []
           end ++ [IsingConversion],
     Raise (if shape0 Qm =? 0 then IndexError
            else ValueError not_square_msg)).
Proof.
  intros Hbad.
  assert (Hconv : QUBO_to_Ising Qm
                  = Raise (if shape0 Qm =? 0 then IndexError
                           else ValueError not_square_msg)).
  { destruct (Nat.eqb_spec (shape0 Qm) 0) as [Hz|Hnz].
    - by apply QUBO_to_Ising_no_rows.
    - apply QUBO_to_Ising_not_square; [lia|]. by destruct Hbad. }
  unfold QUBO_QAOA, try_K, lift. rewrite Hconv.
  destruct K as [B|].
  - rewrite ST_bind_eq, ret_eq, ST_bind_eq, emit_eq, ST_bind_eq. done.
  - unfold print. rewrite ST_bind_eq, emit_eq, ST_bind_eq, emit_eq, ST_bind_eq.
    by rewrite <- app_assoc.
Qed.

Lemma QUBO_QAOA_input_error_witness :
  QUBO_QAOA (Some toy_backend) Q_2x3 (fun _ _ _ t => t) 1 10 false 10 []
  = ([] ++ [] ++ [IsingConversion],
     Raise (if shape0 Q_2x3 =? 0 then IndexError
            else ValueError not_square_msg)).
Proof.
  apply (QUBO_QAOA_input_error (Some toy_backend) Q_2x3 (fun _ _ _ t => t)
           1 10 false 10 []).
  right. simpl. lia.
Defined.

Lemma count_hundreds m :
  length (List.filter (fun i => i mod 100 =? 0) (seq 0 m)) = (m + 99) / 100.
Proof.
  assert (Hdiv : forall k q r, r < 100 -> k = 100 * q + r -> k / 100 = q).
  { intros k q r Hr Hk. symmetry. by apply (Nat.div_unique k 100 q r). }
  induction m as [|m IH]; [done|].
  rewrite seq_S, List.filter_app, length_app, IH. cbn [List.filter Nat.add].
  pose proof (Nat.div_mod_eq m 100) as Hm.
  pose proof (Nat.mod_upper_bound m 100) as Hlt.
  destruct (Nat.eqb_spec (m mod 100) 0) as [Hz|Hnz]; cbn [length].
  - rewrite (Hdiv (m + 99) (m / 100) 99) by lia.
    rewrite (Hdiv (S (m + 99)) (m / 100 + 1) 0) by lia. done.
  - rewrite (Hdiv (m + 99) (m / 100 + 1) (m mod 100 - 1)) by lia.
    rewrite (Hdiv (S (m + 99)) (m / 100 + 1) (m mod 100)) by lia. lia.
Qed.

(** X10.  With a backend selected and a square matrix with at least one
    row.  Without vvag QUBO_QAOA raises nothing: it draws the parameters of
    shape [2*nlayers] before its loop, the loop prints the loss at its
    iterations 0, 100, 200, ..., that is ceil(iterations/100) times, and
    with iterations <= 0 the loop does nothing and the value returned is
    the tensor that was drawn.  With vvag it draws a second tensor, of
    shape [ncircuits, 2*nlayers], and returns it when iterations <= 0; with
    iterations >= 1 the loss of the loop is a pair, and the first progress
    report raises AttributeError after one evaluation and one update, with
    nothing printed. *)
Theorem QUBO_QAOA_progress (B : Backend) (Qm : ndarray2) (n : nat)
    (ansatz : Z -> list (list Q) -> list Q -> tensor -> tensor)
    (nlayers iterations : Z) (ncircuits : Z) (tr : trace) :
  shape0 Qm = n -> shape1 Qm = n -> 1 <= n ->
  (exists loop_tr params,
     QUBO_QAOA (Some B) Qm ansatz nlayers iterations false ncircuits tr
     = (tr ++ [IsingConversion; ParamInit [2 * nlayers]%Z (1 # 2)] ++ loop_tr,
        Ok params) /\
     length (prints loop_tr) = (Z.to_nat iterations + 99) / 100 /\
     ((iterations <= 0)%Z ->
      loop_tr = [] /\ params = implicit_randn B [2 * nlayers]%Z (1 # 2))) /\
  QUBO_QAOA (Some B) Qm ansatz nlayers iterations true ncircuits tr
  = (tr ++ [IsingConversion; ParamInit [2 * nlayers]%Z (1 # 2);
            ParamInit [ncircuits; 2 * nlayers]%Z (1 # 10)]
        ++ (if (0 <? iterations)%Z then [LossGradEval; OptUpdate] else []),
     if (0 <? iterations)%Z then Raise (AttributeError "numpy")
     else Ok (implicit_randn B [ncircuits; 2 * nlayers]%Z (1 # 10))).
Proof.
  intros H0 H1 Hn. split.
  - destruct (QUBO_QAOA_scalar B Qm n ansatz nlayers iterations ncircuits tr
                H0 H1 Hn) as (lvg & Hloss & ->).
    match goal with
    | |- context [for_fold ?r _ (?p, ?o) ?t] =>
        destruct (opt_loop_prints B lvg r p o t Hloss)
          as (tr' & final & -> & Hcount & Hnil)
    end.
    exists tr', final.1. split; [by rewrite <- app_assoc|].
    split; [by rewrite Hcount, count_hundreds|].
    intros Hle. replace (Z.to_nat iterations) with 0 in Hnil by lia.
    by destruct (Hnil eq_refl) as [-> ->].
  - destruct (QUBO_QAOA_vvag B Qm n ansatz nlayers iterations ncircuits tr
                H0 H1 Hn) as (lvg & Hloss & ->).
    destruct (Z.ltb_spec 0 iterations) as [Hpos|Hle].
    + replace (Z.to_nat iterations) with (S (Z.to_nat iterations - 1)) by lia.
      rewrite opt_loop_pair by done. by rewrite <- app_assoc.
    + replace (Z.to_nat iterations) with 0 by lia.
      cbn [seq for_fold]. rewrite ret_eq. by rewrite app_nil_r.
Qed.

Lemma QUBO_QAOA_progress_witness :
  (exists loop_tr params,
     QUBO_QAOA (Some toy_backend) Q_example (fun _ _ _ t => t) 1 250 false 10 []
     = ([] ++ [IsingConversion; ParamInit [2 * 1]%Z (1 # 2)] ++ loop_tr,
        Ok params) /\
     length (prints loop_tr) = (Z.to_nat 250 + 99) / 100 /\
     ((250 <= 0)%Z ->
      loop_tr = [] /\ params = implicit_randn toy_backend [2 * 1]%Z (1 # 2))) /\
  QUBO_QAOA (Some toy_backend) Q_example (fun _ _ _ t => t) 1 250 true 10 []
  = ([] ++ [IsingConversion; ParamInit [2 * 1]%Z (1 # 2);
            ParamInit [10; 2 * 1]%Z (1 # 10)]
        ++ (if (0 <? 250)%Z then [LossGradEval; OptUpdate] else []),
     if (0 <? 250)%Z then Raise (AttributeError "numpy")
     else Ok (implicit_randn toy_backend [10; 2 * 1]%Z (1 # 10))).
Proof.
  apply (QUBO_QAOA_progress toy_backend Q_example (shape0 Q_example)
           (fun _ _ _ t => t) 1 250 10 []);
    [reflexivity|reflexivity|simpl; lia].
Defined.

(** ** The enumeration of the basis states *)

Lemma bits_value_acc (s : string) (q : Q) (acc : nat) :
  (q == inject_Z (Z.of_nat acc))%Q ->
  (fold_left (fun a b => 2 * a + b) (bits_of s) q
   == inject_Z (Z.of_nat (parse_bin acc s)))%Q.
Proof.
  revert q acc. induction s as [|b s IH]; intros q acc Hq; [done|].
  unfold bits_of. cbn [list_ascii_of_string map fold_left parse_bin].
  apply IH. rewrite Hq. unfold int_of_bit.
  rewrite Nat2Z.inj_add, Nat2Z.inj_mul, inject_Z_plus, inject_Z_mult.
  destruct (Ascii.eqb b "1"); reflexivity.
Qed.

(** X11.  The loop that lists the basis states of n qubits yields 2^n pairwise
    distinct strings, the i-th being i written in binary, most significant
    bit first, padded with zeros to n characters; the bit vector read from
    it for the cost is this same binary expansion of i.  For n = 0 the one
    state is the string 0, of length 1. *)
Theorem enumerate_states_binary (n : nat) :
  length (enumerate_states n) = 2 ^ n /\
  NoDup (enumerate_states n) /\
  (forall i, i < 2 ^ n ->
     nth i (enumerate_states n) ""%string = state_string n i /\
     String.length (state_string n i) = Nat.max 1 n /\
     parse_bin 0 (state_string n i) = i /\
     (bits_value (bits_of (state_string n i)) == inject_Z (Z.of_nat i))%Q /\
     Forall (fun b => b = 0%Q \/ b = 1%Q) (bits_of (state_string n i))) /\
  enumerate_states 0 = ["0"%string].
Proof.
  split; [apply length_enumerate_states|].
  split; [apply NoDup_enumerate_states|].
  split; [|done].
  intros i Hi. split; [by apply nth_enumerate_states|].
  split; [|split; [apply parse_state_string|split]].
  - destruct n as [|n].
    + simpl in Hi. by replace i with 0 by lia.
    + rewrite length_state_string by (done || lia). lia.
  - unfold bits_value. rewrite (bits_value_acc _ 0%Q 0) by done.
    by rewrite parse_state_string.
  - unfold bits_of. apply Forall_forall. intros b Hb.
    apply list_elem_of_In, in_map_iff in Hb as (a & <- & _).
    unfold int_of_bit. destruct (Ascii.eqb a "1"); auto.
Qed.

(** ** The cost report: shapes, order and wrap mode *)

Lemma enumerate_states_first n :
  enumerate_states n
  = state_string n 0 :: map (state_string n) (seq 1 (2 ^ n - 1)).
Proof.
  rewrite enumerate_states_map.
  assert (H : 2 ^ n = S (2 ^ n - 1)).
  { pose proof (Nat.pow_nonzero 2 n). lia. }
  rewrite H at 1. done.
Qed.

Lemma length_first_state n :
  length (bits_of (state_string n 0)) = Nat.max 1 n.
Proof.
  unfold bits_of. rewrite length_map, length_list_ascii.
  destruct n as [|n]; [done|].
  rewrite length_state_string; [lia|lia|].
  pose proof (Nat.pow_nonzero 2 (S n)). lia.
Qed.

Lemma quad_form_shape_error Qm x :
  shape1 Qm <> length x \/ shape0 Qm <> length x ->
  quad_form Qm x = Raise (ValueError shapes_msg).
Proof.
  intros Hbad. unfold quad_form, dot_mv.
  destruct (Nat.eqb_spec (shape1 Qm) (length x)) as [H1|H1]; [|done].
  rewrite bind_Ok. unfold dot_vv. rewrite length_map, length_seq.
  destruct (Nat.eqb_spec (length x) (shape0 Qm)) as [H0|H0]; [|done].
  destruct Hbad; congruence.
Qed.

Lemma fill_cost_dict_shape_error Qm n :
  shape1 Qm <> Nat.max 1 n \/ shape0 Qm <> Nat.max 1 n ->
  fill_cost_dict Qm (enumerate_states n) = Raise (ValueError shapes_msg).
Proof.
  intros Hbad. unfold fill_cost_dict. rewrite enumerate_states_first.
  cbn [rfold]. cbv zeta.
  rewrite quad_form_shape_error; [done|]. by rewrite length_first_state.
Qed.

(** X12.  The cost reports need a square matrix whose side is the length of the
    state strings, which is the number of qubits, and 1 for a circuit
    without qubit.  With any other shape print_result_cost raises the
    ValueError of numpy's dot at the first state, before the header is
    printed; print_Q_cost, which takes the number of qubits from the number
    of rows, raises it for every matrix that is not square and for every
    matrix without row. *)
Theorem print_cost_shape_error (c : Circuit) (Qm : ndarray2)
    (wrap reverse : bool) (tr : trace) :
  (shape1 Qm <> Nat.max 1 (nqubits c) \/ shape0 Qm <> Nat.max 1 (nqubits c) ->
   print_result_cost c Qm wrap reverse tr
   = (tr, Raise (ValueError shapes_msg))) /\
  (shape1 Qm <> shape0 Qm \/ shape0 Qm = 0 ->
   print_Q_cost Qm wrap reverse tr = (tr, Raise (ValueError shapes_msg))).
Proof.
  split.
  - intros Hbad. unfold print_result_cost. cbv zeta.
    rewrite fill_cost_dict_shape_error by done.
    unfold lift. by rewrite ST_bind_eq.
  - intros Hbad. unfold print_Q_cost. cbv zeta.
    rewrite enumerate_states_Q_eq.
    rewrite fill_cost_dict_shape_error by lia.
    unfold lift. by rewrite ST_bind_eq.
Qed.

Lemma print_cost_shape_error_witness :
  print_result_cost (circuit_of 3) Q_2x3 true false []
  = ([], Raise (ValueError shapes_msg)) /\
  print_Q_cost Q_empty false false [] = ([], Raise (ValueError shapes_msg)).
Proof.
  split.
  - apply (proj1 (print_cost_shape_error (circuit_of 3) Q_2x3 true false [])).
    right. simpl. lia.
  - apply (proj2 (print_cost_shape_error (circuit_of 3) Q_empty false false [])).
    right. reflexivity.
Defined.

Lemma StronglySorted_rev {A} (R : A -> A -> Prop) (l : list A) :
  StronglySorted R l -> StronglySorted (fun a b => R b a) (rev l).
Proof.
  induction 1 as [|x l Hs IH Hall]; [constructor|].
  cbn [rev]. apply StronglySorted_app_2; [|done|repeat constructor].
  intros a b Ha Hb. apply list_elem_of_singleton in Hb as ->.
  rewrite Forall_forall in Hall. apply Hall.
  apply list_elem_of_In, in_rev. by apply list_elem_of_In.
Qed.

Lemma py_sorted_sorted {A} (key : A -> Q) (reverse : bool) (l : list A) :
  StronglySorted (fun a b => if reverse then (key b <= key a)%Q
                             else (key a <= key b)%Q)
                 (py_sorted key reverse l).
Proof.
  unfold py_sorted. destruct reverse.
  - apply (StronglySorted_rev (fun a b => (key a <= key b)%Q)).
    apply sort_by_sorted.
  - apply sort_by_sorted.
Qed.

(** X13.  On a square matrix whose side is the number of qubits, the cost report
    lists every basis state once with its cost x^T Q x, by nondecreasing
    cost, and by nonincreasing cost with reverse set; in wrap mode it
    prints the first 8 of these rows, all of them when there are fewer. *)
Theorem print_result_cost_sorted (c : Circuit) (Qm : ndarray2) (n : nat)
    (reverse : bool) :
  nqubits c = n -> shape0 Qm = n -> shape1 Qm = n -> 1 <= n ->
  Permutation (rows (print_result_cost c Qm false reverse []).1)
              (map (cost_item Qm n) (seq 0 (2 ^ n))) /\
  (forall i, i < 2 ^ n ->
     (cost_of Qm (state_string n i)
      == dsum (fun a b => nth a (bits_of (state_string n i)) 0
                          * (item Qm a b * nth b (bits_of (state_string n i)) 0))
              n)%Q) /\
  StronglySorted (fun r1 r2 => if reverse then (r2.2 <= r1.2)%Q
                               else (r1.2 <= r2.2)%Q)
                 (rows (print_result_cost c Qm false reverse []).1) /\
  rows (print_result_cost c Qm true reverse []).1
  = take 8 (rows (print_result_cost c Qm false reverse []).1) /\
  length (rows (print_result_cost c Qm true reverse []).1) = Nat.min 8 (2 ^ n).
Proof.
  intros Hc H0 H1 Hn.
  rewrite !(rows_print_result_cost c Qm n) by done.
  split; [|split; [|split; [|split]]].
  - by rewrite (py_sorted_perm snd reverse (cost_items Qm n)), cost_items_map.
  - intros i Hi. unfold cost_of.
    destruct (quad_form_square Qm n (bits_of (state_string n i)) H0 H1)
      as (v & -> & Hv); [|done].
    unfold bits_of. by rewrite length_map, length_list_ascii, length_state_string.
  - apply (py_sorted_sorted snd).
  - done.
  - rewrite length_take.
    rewrite (Permutation_length (py_sorted_perm snd reverse (cost_items Qm n))).
    unfold cost_items. by rewrite length_map, length_enumerate_states.
Qed.

Lemma print_result_cost_sorted_witness :
  Permutation (rows (print_result_cost (circuit_of 2) Q_zero false true []).1)
              (map (cost_item Q_zero 2) (seq 0 (2 ^ 2))) /\
  (forall i, i < 2 ^ 2 ->
     (cost_of Q_zero (state_string 2 i)
      == dsum (fun a b => nth a (bits_of (state_string 2 i)) 0
                          * (item Q_zero a b
                             * nth b (bits_of (state_string 2 i)) 0))
              2)%Q) /\
  StronglySorted (fun r1 r2 => (r2.2 <= r1.2)%Q)
                 (rows (print_result_cost (circuit_of 2) Q_zero false true []).1) /\
  rows (print_result_cost (circuit_of 2) Q_zero true true []).1
  = take 8 (rows (print_result_cost (circuit_of 2) Q_zero false true []).1) /\
  length (rows (print_result_cost (circuit_of 2) Q_zero true true []).1)
  = Nat.min 8 (2 ^ 2).
Proof.
  apply (print_result_cost_sorted (circuit_of 2) Q_zero 2 true);
    [reflexivity|reflexivity|reflexivity|lia].
Defined.

(** ** The probability report: order and wrap mode *)

Lemma StronglySorted_map_in {A B} (R1 : A -> A -> Prop) (R2 : B -> B -> Prop)
    (f : A -> B) (l : list A) :
  (forall x y, x ∈ l -> y ∈ l -> R1 x y -> R2 (f x) (f y)) ->
  StronglySorted R1 l -> StronglySorted R2 (map f l).
Proof.
  intros Hmono Hs. induction Hs as [|x l Hs IH Hall]; [constructor|].
  cbn [map]. constructor.
  - apply IH. intros a b Ha Hb. apply Hmono; by right.
  - apply Forall_map, Forall_forall. intros y Hy.
    rewrite Forall_forall in Hall.
    apply Hmono; [by left|by right|by apply Hall].
Qed.

(** The indices that argsort returns are in nondecreasing order of value. *)
Lemma argsort_sorted v :
  StronglySorted (fun i j => (nth i v 0 <= nth j v 0)%Q) (argsort v).
Proof.
  unfold argsort.
  apply (StronglySorted_map_in (fun a b : nat * Q => (a.2 <= b.2)%Q));
    [|apply sort_by_sorted].
  assert (Hval : forall a : nat * Q,
             a ∈ sort_by snd (zip (seq 0 (length v)) v) ->
             a.2 = nth a.1 v 0%Q).
  { intros a Ha. rewrite (sort_by_perm snd) in Ha. rewrite zip_seq_map in Ha.
    by apply list_elem_of_In, in_map_iff in Ha as (i & <- & _). }
  intros a b Ha Hb Hab. by rewrite <- !Hval.
Qed.

Lemma prob_order_sorted (probs : list Q) (reverse : bool) :
  StronglySorted (fun i j => if reverse then (nth i probs 0 <= nth j probs 0)%Q
                             else (nth j probs 0 <= nth i probs 0)%Q)
                 (prob_order argsort probs reverse).
Proof.
  unfold prob_order. destruct reverse; [apply argsort_sorted|].
  apply (StronglySorted_rev (fun i j => (nth i probs 0 <= nth j probs 0)%Q)).
  apply argsort_sorted.
Qed.

(** X14.  When the simulator returns one probability per basis state, the
    probability report lists every basis state once with its probability
    rounded to four decimals, by nonincreasing rounded probability, and by
    nondecreasing rounded probability with reverse set. *)
Theorem print_result_prob_sorted (B : Backend) (E : Engine) (c : Circuit)
    (reverse : bool) :
  length (rounded_probs B E c) = 2 ^ nqubits c ->
  (print_result_prob (Some B) E c false reverse []).2 = Ok tt /\
  Permutation (rows (print_result_prob (Some B) E c false reverse []).1)
              (map (prob_item (rounded_probs B E c) (nqubits c))
                   (seq 0 (2 ^ nqubits c))) /\
  StronglySorted (fun r1 r2 => if reverse then (r1.2 <= r2.2)%Q
                               else (r2.2 <= r1.2)%Q)
                 (rows (print_result_prob (Some B) E c false reverse []).1).
Proof.
  intros Hlen. split; [|split].
  - unfold print_result_prob.
    rewrite print_result_prob_with_eq;
      [done|exact argsort_perm|by rewrite length_enumerate_states].
  - rewrite rows_print_result_prob by done.
    assert (Hperm : Permutation (prob_order argsort (rounded_probs B E c) reverse)
                                (seq 0 (2 ^ nqubits c))).
    { unfold prob_order. rewrite <- Hlen.
      destruct reverse; [apply argsort_perm|].
      rewrite <- Permutation_rev. apply argsort_perm. }
    rewrite Hperm. apply Permutation_refl'.
    apply map_ext_in. intros i Hi. apply in_seq in Hi.
    unfold prob_item. by rewrite nth_enumerate_states by lia.
  - rewrite rows_print_result_prob by done.
    apply (StronglySorted_map_in
             (fun i j => if reverse
                         then (nth i (rounded_probs B E c) 0
                               <= nth j (rounded_probs B E c) 0)%Q
                         else (nth j (rounded_probs B E c) 0
                               <= nth i (rounded_probs B E c) 0)%Q));
      [|apply prob_order_sorted].
    intros i j _ _ Hij. by destruct reverse.
Qed.

Lemma print_result_prob_sorted_witness :
  (print_result_prob (Some toy_backend) (toy_engine probs8) (circuit_of 3)
                     false false []).2 = Ok tt /\
  Permutation (rows (print_result_prob (Some toy_backend) (toy_engine probs8)
                                       (circuit_of 3) false false []).1)
              (map (prob_item (rounded_probs toy_backend (toy_engine probs8)
                                             (circuit_of 3))
                              (nqubits (circuit_of 3)))
                   (seq 0 (2 ^ nqubits (circuit_of 3)))) /\
  StronglySorted (fun r1 r2 => (r2.2 <= r1.2)%Q)
                 (rows (print_result_prob (Some toy_backend) (toy_engine probs8)
                                          (circuit_of 3) false false []).1).
Proof.
  apply (print_result_prob_sorted toy_backend (toy_engine probs8)
           (circuit_of 3) false).
  reflexivity.
Defined.

(** X15.  In wrap mode, with at least two qubits, the probability report prints
    the first four rows of the full report and then its rows -4, -3 and
    -2, whatever the argsort does with equal values.  With three or more
    qubits the last row of the order is therefore not among them, and with
    two qubits the first three rows are printed twice. *)
Theorem print_result_prob_wrap_selection (sorter : list Q -> list nat)
    (B : Backend) (E : Engine) (c : Circuit) (reverse : bool) :
  index_sorter sorter ->
  length (rounded_probs B E c) = 2 ^ nqubits c ->
  2 <= nqubits c ->
  (print_result_prob_with sorter (Some B) E c true reverse []).2 = Ok tt /\
  rows (print_result_prob_with sorter (Some B) E c true reverse []).1
  = take 4 (rows (print_result_prob_with sorter (Some B) E c false reverse []).1)
    ++ take 3 (drop (2 ^ nqubits c - 4)
                    (rows (print_result_prob_with sorter (Some B) E c
                                                  false reverse []).1)).
Proof.
  intros Hperm Hlen Hn.
  assert (H4 : 4 <= 2 ^ nqubits c).
  { change 4 with (2 ^ 2). apply Nat.pow_le_mono_r; lia. }
  destruct (prob_wrap_rows_at sorter B E c reverse Hperm Hlen Hn) as [Hok Hrows].
  split; [done|]. rewrite Hrows, map_app.
  rewrite (take_nth (""%string, 0%Q) _ 4)
    by (rewrite length_prob_rows by done; lia).
  rewrite (take_drop_nth (""%string, 0%Q) _ (2 ^ nqubits c - 4) 3)
    by (rewrite length_prob_rows by done; lia).
  done.
Qed.

Lemma print_result_prob_wrap_selection_witness :
  (print_result_prob_with argsort (Some toy_backend) (toy_engine probs8)
                          (circuit_of 3) true false []).2 = Ok tt /\
  rows (print_result_prob_with argsort (Some toy_backend) (toy_engine probs8)
                               (circuit_of 3) true false []).1
  = take 4 (rows (print_result_prob_with argsort (Some toy_backend)
                    (toy_engine probs8) (circuit_of 3) false false []).1)
    ++ take 3 (drop (2 ^ nqubits (circuit_of 3) - 4)
                    (rows (print_result_prob_with argsort (Some toy_backend)
                             (toy_engine probs8) (circuit_of 3)
                             false false []).1)).
Proof.
  apply (print_result_prob_wrap_selection argsort toy_backend
           (toy_engine probs8) (circuit_of 3) false);
    [exact argsort_perm|reflexivity|simpl; lia].
Defined.

Lemma for_each_app {S X} (xs ys : list X) (body : X -> ST S unit) (s : S) :
  for_each (xs ++ ys) body s
  = match for_each xs body s with
    | (s', Ok _) => for_each ys body s'
    | (s', Raise e) => (s', Raise e)
    end.
Proof.
  unfold for_each. revert s. induction xs as [|x xs IH]; intros s.
  - cbn [app for_fold]. by rewrite ret_eq.
  - cbn [app]. rewrite !for_fold_cons, !ST_bind_eq.
    destruct (body x s) as [s' [[]|e]]; [apply IH|done].
Qed.

Lemma pyindex_beyond {A} (l : list A) (z : Z) :
  (Z.of_nat (length l) <= z)%Z -> pyindex l z = Raise IndexError.
Proof.
  intros Hz. unfold pyindex, getitem.
  destruct (Z.leb_spec 0 z); [|lia].
  by rewrite (proj2 (lookup_ge_None l (Z.to_nat z))) by lia.
Qed.

(** X16.  In wrap mode on a circuit with fewer than two qubits the probability
    report raises IndexError: it prints the header and every row of the
    full report, and fails on the next index of range(4), so that neither
    the ellipsis nor the closing rule is printed. *)
Theorem print_result_prob_wrap_short (sorter : list Q -> list nat)
    (B : Backend) (E : Engine) (c : Circuit) (reverse : bool) (tr : trace) :
  index_sorter sorter ->
  length (rounded_probs B E c) = 2 ^ nqubits c ->
  nqubits c <= 1 ->
  exists out,
    print_result_prob_with sorter (Some B) E c false reverse tr
    = (out ++ [Print (Text rule)], Ok tt) /\
    print_result_prob_with sorter (Some B) E c true reverse tr
    = (out, Raise IndexError) /\
    length (rows out) = length (rows tr) + 2 ^ nqubits c.
Proof.
  intros Hperm Hlen Hn.
  set (probs := rounded_probs B E c) in *.
  set (states := enumerate_states (nqubits c)).
  set (order := prob_order sorter probs reverse).
  assert (Hord : length order = 2 ^ nqubits c).
  { unfold order. by rewrite length_prob_order. }
  exists (tr ++ [ProbabilityQuery; Print (Text (newline ++ rule));
                 Print (Text prob_header); Print (Text rule)]
             ++ map (fun i => Print (ProbRow (nth i states ""%string)
                                             (nth i probs 0%Q))) order).
  split; [|split].
  - rewrite print_result_prob_with_eq
      by (done || by rewrite length_enumerate_states).
    by rewrite <- !app_assoc.
  - assert (Hrange : exists zs2,
               range 0 4 = map Z.of_nat (seq 0 (2 ^ nqubits c))
                           ++ Z.of_nat (2 ^ nqubits c) :: zs2).
    { destruct (nqubits c) as [|[|k]]; [by exists [2; 3]%Z|by exists [3%Z]|lia]. }
    destruct Hrange as [zs2 Hrange].
    unfold print_result_prob_with, try_K, get_K. cbv zeta.
    rewrite ST_bind_eq, ret_eq, ST_bind_eq, ret_eq, ST_bind_eq, emit_eq.
    change (map round4 (tdata (numpy B (probability E c)))) with probs.
    assert (Horder : (if reverse then rev (rev (sorter probs))
                      else rev (sorter probs)) = order).
    { unfold order, prob_order. destruct reverse; [apply rev_involutive|done]. }
    rewrite Horder. fold states.
    rewrite (take_indices_ok ""%string)
      by (unfold states; rewrite length_enumerate_states, <- Hlen;
          by apply prob_order_lt).
    rewrite (take_indices_ok 0%Q) by (by apply prob_order_lt).
    unfold lift. rewrite !ST_bind_eq.
    unfold print. do 3 rewrite emit_eq, ST_bind_eq.
    rewrite ST_bind_eq, Hrange, for_each_app.
    match goal with
    | |- context [for_each _ (print_prob_row ?ss ?ps) ?t] =>
        pose proof (prob_rows_loop ss ps [] [] t eq_refl) as Hloop
    end.
    rewrite !length_map, Hord in Hloop. cbn [length app] in Hloop.
    rewrite Hloop by done.
    unfold for_each. rewrite for_fold_cons, ST_bind_eq.
    unfold print_prob_row at 1.
    rewrite (pyindex_beyond (map (fun i => nth i states ""%string) order))
      by (rewrite length_map, Hord; lia).
    unfold lift. rewrite ST_bind_eq.
    rewrite zip_with_map_map, map_map. by rewrite <- !app_assoc.
  - rewrite !rows_app.
    rewrite (rows_prob (fun i => nth i states ""%string)
                       (fun i => nth i probs 0%Q)).
    rewrite !length_app, length_map, Hord. cbn. lia.
Qed.

Lemma print_result_prob_wrap_short_witness :
  exists out,
    print_result_prob_with argsort (Some toy_backend) (toy_engine coin)
                           (circuit_of 1) false false []
    = (out ++ [Print (Text rule)], Ok tt) /\
    print_result_prob_with argsort (Some toy_backend) (toy_engine coin)
                           (circuit_of 1) true false []
    = (out, Raise IndexError) /\
    length (rows out) = length (rows []) + 2 ^ nqubits (circuit_of 1).
Proof.
  apply (print_result_prob_wrap_short argsort toy_backend (toy_engine coin)
           (circuit_of 1) false []);
    [exact argsort_perm|reflexivity|simpl; lia].
Defined.
